(** * Sitemap crawler worker: a shallow embedding and its properties

    The development follows the TypeScript sources:
    - [src/sitemap.ts]  : [SitemapSource], [UrlsetParser], [IndexParser],
                          [SitemapParserFactory];
    - [src/crawler.ts]  : [allowedByRobots], [pLimit], [crawlBatch];
    - [src/index.ts]    : [InlineEnqueuer], [QueueEnqueuer], [makeEnqueuer],
                          [inferSitemapFromParams], [limitList] and the
                          [/preview] and [/crawl] routes.

    JavaScript strings are sequences of UTF-16 code units, values are
    modelled by an inductive type, exceptions by a result type, the
    platform (network, URL parser, XML parser, gzip, Unicode case tables)
    by a record of functions, and the promise scheduling of [pLimit] by a
    labelled transition system. *)

From Stdlib Require Import ZArith NArith QArith Qround Relations Wellfounded.
From Stdlib Require Import Strings.String Strings.Ascii Strings.Byte.
From Stdlib Require Import Numbers.DecimalString.
From stdpp Require Import base tactics option list gmap sets fin_sets.
From Equations Require Import Equations.

Set Warnings "-register-all,-clear-no-such-hyp".
Set Warnings "-via-type-remapping,-via-type-mismatch".
Local Open Scope list_scope.

(** ** JavaScript strings *)

(** A UTF-16 code unit, and a string: the sequence of its code units.
    [length], [slice], [indexOf] and the like count code units. *)
Definition unit16 : Type := N.
Definition string : Type := list unit16.

(** String literals of this file stand for the code units of the text
    between the quotes, which is written in UTF-8. *)
Module Literal.

Inductive lit : Type :=
| LNil
| LCons (u : N) (r : lit).

(** The code points of a UTF-8 byte sequence. *)
Fixpoint code_points (fuel : nat) (bs : list Byte.byte) : list N :=
  match fuel with
  | O => []
  | S fuel =>
      match bs with
      | [] => []
      | b :: r =>
          let n := Byte.to_N b in
          if (n <? 128)%N then n :: code_points fuel r
          else if (n <? 224)%N then
            match r with
            | b1 :: r' =>
                ((n - 192) * 64 + (Byte.to_N b1 - 128))%N :: code_points fuel r'
            | _ => [65533%N]
            end
          else if (n <? 240)%N then
            match r with
            | b1 :: b2 :: r' =>
                ((n - 224) * 4096 + (Byte.to_N b1 - 128) * 64
                 + (Byte.to_N b2 - 128))%N :: code_points fuel r'
            | _ => [65533%N]
            end
          else
            match r with
            | b1 :: b2 :: b3 :: r' =>
                ((n - 240) * 262144 + (Byte.to_N b1 - 128) * 4096
                 + (Byte.to_N b2 - 128) * 64 + (Byte.to_N b3 - 128))%N
                  :: code_points fuel r'
            | _ => [65533%N]
            end
      end
  end.

(** The code units of a code point: itself, or a surrogate pair. *)
Definition units_of_code_point (c : N) : list N :=
  if (c <? 65536)%N then [c]
  else [(55296 + (c - 65536) / 1024)%N; (56320 + (c - 65536) mod 1024)%N].

Definition utf8_decode (bs : list Byte.byte) : list N :=
  concat (map units_of_code_point (code_points (length bs) bs)).

Fixpoint lit_of_units (l : list N) : lit :=
  match l with
  | [] => LNil
  | u :: r => LCons u (lit_of_units r)
  end.

Definition parse (bs : list Byte.byte) : lit := lit_of_units (utf8_decode bs).

(** Only printable ASCII text is shown as a literal. *)
Fixpoint print (l : lit) : option (list Byte.byte) :=
  match l with
  | LNil => Some []
  | LCons u r =>
      if (32 <=? u)%N && (u <? 127)%N then
        match Byte.of_N u, print r with
        | Some b, Some bs => Some (b :: bs)
        | _, _ => None
        end
      else None
  end.

End Literal.

Declare Scope js_scope.
Delimit Scope js_scope with js.
Bind Scope js_scope with string.
String Notation string Literal.parse Literal.print
  (via Literal.lit mapping [[nil] => Literal.LNil, [cons] => Literal.LCons])
  : js_scope.
Local Open Scope js_scope.

(** ** JavaScript values and string methods *)

Module JS.

(** [a === b] on strings. *)
Fixpoint eqb (a b : string) : bool :=
  match a, b with
  | [], [] => true
  | x :: a', y :: b' => N.eqb x y && eqb a' b'
  | _, _ => false
  end.

(** Values a parsed document can hold.  Numbers are the integers, which
    print in decimal (as JavaScript prints them below 10^21). *)
Inductive Val : Type :=
| Undefined
| Null
| Bool (b : bool)
| Num (z : Z)
| Str (s : string)
| Arr (elems : list Val)
| Obj (props : list (string * Val)).

(** [Boolean(v)], also the test of [if (!v)]. *)
Definition truthy (v : Val) : bool :=
  match v with
  | Undefined | Null => false
  | Bool b => b
  | Num z => negb (z =? 0)%Z
  | Str s => negb (eqb s "")
  | Arr _ | Obj _ => true
  end.

Fixpoint assoc (k : string) (props : list (string * Val)) : option Val :=
  match props with
  | [] => None
  | (k', v) :: rest => if eqb k k' then Some v else assoc k rest
  end.

(** [v?.k] for a key [k] that is no built-in property name: only an
    object with an own property [k] answers, everything else gives
    [undefined]. *)
Definition get (v : Val) (k : string) : Val :=
  match v with
  | Obj props => default Undefined (assoc k props)
  | _ => Undefined
  end.

(** [Array.isArray(v) ? v : [v]] *)
Definition as_list (v : Val) : list Val :=
  match v with Arr l => l | _ => [v] end.

(** The code units of ASCII text. *)
Definition of_ascii (s : String.string) : string :=
  map N_of_ascii (list_ascii_of_string s).

Definition Z_to_string (z : Z) : string :=
  of_ascii (NilZero.string_of_int (Z.to_int z)).

(** [String(v)], the conversion applied to a value used as a URL or
    inside a template literal. *)
Fixpoint ToString (v : Val) : string :=
  match v with
  | Undefined => "undefined"
  | Null => "null"
  | Bool true => "true"
  | Bool false => "false"
  | Num z => Z_to_string z
  | Str s => s
  | Obj _ => "[object Object]"
  | Arr l =>
      (fix join (l : list Val) : string :=
         match l with
         | [] => ""
         | x :: r =>
             let sx := match x with
                       | Undefined | Null => ""
                       | _ => ToString x
                       end in
             match r with
             | [] => sx
             | _ :: _ => sx ++ "," ++ join r
             end
         end) l
  end.

(** *** String methods *)

(** The code units removed by [trim] and skipped by [parseInt]: the
    WhiteSpace and LineTerminator code points of ECMAScript, which are TAB,
    LF, VT, FF, CR, the space, U+00A0, U+1680, U+2000 to U+200A, U+2028,
    U+2029, U+202F, U+205F, U+3000 and U+FEFF. *)
Definition is_space (u : unit16) : bool :=
  ((9 <=? u) && (u <=? 13)
   || (u =? 32) || (u =? 160) || (u =? 5760)
   || (8192 <=? u) && (u <=? 8202)
   || (u =? 8232) || (u =? 8233) || (u =? 8239) || (u =? 8287)
   || (u =? 12288) || (u =? 65279))%N.

Fixpoint trimStart (s : string) : string :=
  match s with
  | [] => []
  | c :: r => if is_space c then trimStart r else s
  end.

Fixpoint trimEnd (s : string) : string :=
  match s with
  | [] => []
  | c :: r =>
      match trimEnd r with
      | [] => if is_space c then [] else [c]
      | r' => c :: r'
      end
  end.

Definition trim (s : string) : string := trimEnd (trimStart s).

(** [s.startsWith(p)] *)
Fixpoint startsWith (s p : string) {struct p} : bool :=
  match p, s with
  | [], _ => true
  | c :: p', d :: s' => N.eqb c d && startsWith s' p'
  | _ :: _, [] => false
  end.

(** [s.includes(p)] *)
Fixpoint includes (s p : string) : bool :=
  startsWith s p ||
  match s with
  | [] => false
  | _ :: r => includes r p
  end.

(** [s.indexOf(p)]; [None] stands for -1. *)
Fixpoint indexOf (s p : string) : option nat :=
  if startsWith s p then Some 0
  else
    match s with
    | [] => None
    | _ :: r => S <$> indexOf r p
    end.

(** [s.slice(i, j)] and [s.slice(i)] for indices that are not negative. *)
Definition slice (s : string) (i j : nat) : string := take (j - i) (drop i s).
Definition slice_from (s : string) (i : nat) : string := drop i s.

Definition CR : unit16 := 13%N.
Definition LF : unit16 := 10%N.

(** [text.split(/\r?\n/)]: [cur] holds the code units of the current
    piece in reverse. *)
Fixpoint split_lines_aux (s : string) (cur : string) : list string :=
  match s with
  | [] => [rev cur]
  | c :: r =>
      if N.eqb c LF then rev cur :: split_lines_aux r []
      else if N.eqb c CR then
        match r with
        | d :: r' =>
            if N.eqb d LF then rev cur :: split_lines_aux r' []
            else split_lines_aux r (c :: cur)
        | [] => split_lines_aux r (c :: cur)
        end
      else split_lines_aux r (c :: cur)
  end.

Definition split_lines (s : string) : list string := split_lines_aux s [].

(** The UTF-8 encoding of a string; a lone surrogate is encoded as
    U+FFFD. *)
Definition utf8_of_code_point (c : N) : list Byte.byte :=
  let byte (n : N) := default Byte.x00 (Byte.of_N n) in
  if (c <? 128)%N then [byte c]
  else if (c <? 2048)%N then [byte (192 + c / 64); byte (128 + c mod 64)]%N
  else if (c <? 65536)%N then
    [byte (224 + c / 4096); byte (128 + (c / 64) mod 64); byte (128 + c mod 64)]%N
  else
    [byte (240 + c / 262144); byte (128 + (c / 4096) mod 64);
     byte (128 + (c / 64) mod 64); byte (128 + c mod 64)]%N.

Fixpoint utf8_encode (s : string) : list Byte.byte :=
  match s with
  | [] => []
  | u :: r =>
      if (55296 <=? u)%N && (u <? 56320)%N then
        match r with
        | lo :: r' =>
            if (56320 <=? lo)%N && (lo <? 57344)%N then
              utf8_of_code_point (65536 + (u - 55296) * 1024 + (lo - 56320))%N
              ++ utf8_encode r'
            else utf8_of_code_point 65533%N ++ utf8_encode r
        | [] => utf8_of_code_point 65533%N
        end
      else if (56320 <=? u)%N && (u <? 57344)%N then
        utf8_of_code_point 65533%N ++ utf8_encode r
      else utf8_of_code_point u ++ utf8_encode r
  end.

Definition utf8_decode (bs : list Byte.byte) : string := Literal.utf8_decode bs.

End JS.

(** ** Exceptions and results *)

(** A thrown value: [new Error(message)] raised by the program itself, or
    an exception raised by the platform or a library. *)
Inductive Exn : Type :=
| Error (message : string)
| PlatformExn (info : string).

Inductive Res (A : Type) : Type :=
| Ok (a : A)
| Throw (e : Exn).
Arguments Ok {A} a.
Arguments Throw {A} e.

#[global] Instance Res_ret : MRet Res := fun A a => Ok a.
#[global] Instance Res_bind : MBind Res := fun A B f m =>
  match m with
  | Ok a => f a
  | Throw e => Throw e
  end.

(** A computation that may also run out of fuel ([None]). *)
Definition Fueled (A : Type) : Type := option (Res A).

(** ** The platform *)

Record Response : Type := mkResponse {
  status : Z;
  body : option (list Byte.byte)
}.

(** [res.ok]: the status is in the range 200-299. *)
Definition Response_ok (res : Response) : bool :=
  (200 <=? status res)%Z && (status res <=? 299)%Z.

Record URL : Type := mkURL {
  origin : string;
  pathname : string
}.

Definition Headers : Type := list (string * string).

(** What the program calls and does not define: the network, the URL
    parser, body decoding, gzip decompression and the XML parser, each of
    which may throw, and [String.prototype.toLowerCase], whose result
    depends on the case tables of the engine's Unicode version. *)
Record Platform : Type := mkPlatform {
  fetch : string -> Headers -> Res Response;
  new_URL : string -> Res URL;
  Response_text : Response -> Res string;
  gunzip_text : list Byte.byte -> Res string;
  XMLParser_parse : string -> Res JS.Val;
  toLowerCase : string -> string
}.

(** ** src/sitemap.ts *)

Module SitemapSource.

(** [/\.gz$/i.test(s)]: some position of [s] holds a dot, a [g] and a
    [z] of either case, followed by the end of the string.  Without the
    [u] flag, [i] lets no other code unit match an ASCII letter. *)
Definition gz_at_end (s : string) : bool :=
  match s with
  | [a; b; c] =>
      (a =? 46)%N && ((b =? 103)%N || (b =? 71)%N)
      && ((c =? 122)%N || (c =? 90)%N)
  | _ => false
  end.

Fixpoint test_gz (s : string) : bool :=
  gz_at_end s ||
  match s with
  | [] => false
  | _ :: r => test_gz r
  end.

Definition fetchText (pf : Platform) (userAgent : string) (url : string)
  : Res string :=
  res ← fetch pf url [("User-Agent", userAgent); ("Accept-Encoding", "gzip,deflate")];
  if negb (Response_ok res) then
    Throw (Error ("Failed to fetch sitemap: " ++ url ++ " ("
                  ++ JS.Z_to_string (status res) ++ ")"))
  else
    u ← new_URL pf url;
    if test_gz (pathname u) then
      match body res with
      | None => Ok ""
      | Some b => gunzip_text pf b
      end
    else Response_text pf res.

End SitemapSource.

Inductive SitemapParserStrategy : Type :=
| UrlsetStrategy
| IndexStrategy.

Module UrlsetParser.

Definition extractUrls (pf : Platform) (xml : string) : Res (list JS.Val) :=
  doc ← XMLParser_parse pf xml;
  let urls := JS.get (JS.get doc "urlset") "url" in
  if negb (JS.truthy urls) then Ok []
  else
    let list_ := JS.as_list urls in
    Ok (List.filter JS.truthy (map (fun u => JS.get u "loc") list_)).

End UrlsetParser.

Module SitemapParserFactory.

Definition from (pf : Platform) (xml : string) : Res SitemapParserStrategy :=
  let head := toLowerCase pf (JS.slice xml 0 200) in
  if JS.includes head "<urlset" then Ok UrlsetStrategy
  else if JS.includes head "<sitemapindex" then Ok IndexStrategy
  else
    doc ← XMLParser_parse pf xml;
    if JS.truthy (JS.get doc "urlset") then Ok UrlsetStrategy
    else if JS.truthy (JS.get doc "sitemapindex") then Ok IndexStrategy
    else Ok UrlsetStrategy.

End SitemapParserFactory.

Module IndexParser.

(** The [for (const entry of list)] loop.  [child] fetches and resolves
    one child location; [results] is the accumulator the loop pushes to. *)
Fixpoint loop (child : string -> Fueled (list JS.Val))
         (list_ : list JS.Val) (results : list JS.Val) : Fueled (list JS.Val) :=
  match list_ with
  | [] => Some (Ok results)
  | entry :: rest =>
      let childLoc := JS.get entry "loc" in
      if negb (JS.truthy childLoc) then loop child rest results
      else
        match child (JS.ToString childLoc) with
        | None => None
        | Some (Throw e) => Some (Throw e)
        | Some (Ok childUrls) => loop child rest (results ++ childUrls)
        end
  end.

(** [fuel] bounds the nesting depth of index documents. *)
Fixpoint extractUrls (pf : Platform) (userAgent : string) (fuel : nat)
         (xml : string) : Fueled (list JS.Val) :=
  match fuel with
  | O => None
  | S fuel' =>
      match XMLParser_parse pf xml with
      | Throw e => Some (Throw e)
      | Ok doc =>
          let entries := JS.get (JS.get doc "sitemapindex") "sitemap" in
          if negb (JS.truthy entries) then Some (Ok [])
          else
            loop
              (fun childLoc =>
                 match SitemapSource.fetchText pf userAgent childLoc with
                 | Throw e => Some (Throw e)
                 | Ok childXml =>
                     match SitemapParserFactory.from pf childXml with
                     | Throw e => Some (Throw e)
                     | Ok UrlsetStrategy =>
                         Some (UrlsetParser.extractUrls pf childXml)
                     | Ok IndexStrategy =>
                         extractUrls pf userAgent fuel' childXml
                     end
                 end)
              (JS.as_list entries) []
      end
  end.

End IndexParser.

(** [parser.extractUrls(xml)] for the strategy the factory returned. *)
Definition extractUrls (pf : Platform) (userAgent : string) (fuel : nat)
           (k : SitemapParserStrategy) (xml : string) : Fueled (list JS.Val) :=
  match k with
  | UrlsetStrategy => Some (UrlsetParser.extractUrls pf xml)
  | IndexStrategy => IndexParser.extractUrls pf userAgent fuel xml
  end.

(** The three steps of the worker's handlers and of the index loop body:
    fetch the text, pick the strategy, extract. *)
Definition resolve (pf : Platform) (userAgent : string) (fuel : nat)
           (sitemapUrl : string) : Fueled (list JS.Val) :=
  match SitemapSource.fetchText pf userAgent sitemapUrl with
  | Throw e => Some (Throw e)
  | Ok xml =>
      match SitemapParserFactory.from pf xml with
      | Throw e => Some (Throw e)
      | Ok k => extractUrls pf userAgent fuel k xml
      end
  end.

(** ** src/crawler.ts *)

(** *** Effects: a log and exception monad *)

(** A computation that appends the events it causes to a log and ends
    with a value or a thrown exception. *)
Definition Eff (E A : Type) : Type := list E -> Res A * list E.

#[global] Instance Eff_ret {E} : MRet (Eff E) := fun A a log => (Ok a, log).
#[global] Instance Eff_bind {E} : MBind (Eff E) := fun A B f m log =>
  match m log with
  | (Ok a, log') => f a log'
  | (Throw e, log') => (Throw e, log')
  end.

(** The requests issued with [fetch]. *)
Definition Request : Type := (string * Headers)%type.
Abbreviation Net := (Eff Request).

(** A platform call that issues no request. *)
Definition lift {A : Type} (r : Res A) : Net A := fun log => (r, log).

(** [await fetch(url, { headers })] *)
Definition net_fetch (pf : Platform) (url : string) (headers : Headers)
  : Net Response :=
  fun log => (fetch pf url headers, log ++ [(url, headers)]).

(** [try { m } catch { h }] *)
Definition try_catch {E A : Type} (m : Eff E A) (h : Eff E A) : Eff E A :=
  fun log =>
    match m log with
    | (Ok a, log') => (Ok a, log')
    | (Throw _, log') => h log'
    end.

(** *** allowedByRobots *)

(** One iteration of [for (const line of lines)] on the pair
    [(inStar, disallows)]. *)
Definition robots_line (pf : Platform) (userAgent : string)
           (st : bool * list string) (line : string) : bool * list string :=
  let '(inStar, disallows) := st in
  if JS.eqb line "" || JS.startsWith line "#" then st
  else
    match JS.indexOf line ":" with
    | None => st
    | Some idx =>
        let k := toLowerCase pf (JS.trim (JS.slice line 0 idx)) in
        let v := JS.trim (JS.slice_from line (idx + 1)) in
        if JS.eqb k "user-agent" then
          (JS.eqb v "*"
           || JS.eqb (toLowerCase pf v) (toLowerCase pf userAgent),
           disallows)
        else if inStar && JS.eqb k "disallow" then
          if negb (JS.eqb v "") then (inStar, disallows ++ [v]) else st
        else st
    end.

(** The [disallows] array after the loop over the lines of [text]. *)
Definition robots_disallows (pf : Platform) (userAgent : string) (text : string)
  : list string :=
  let lines := map JS.trim (JS.split_lines text) in
  snd (fold_left (robots_line pf userAgent) lines (false, [])).

(** [!disallows.some((rule) => rule !== "/" && pathname.startsWith(rule))] *)
Definition robots_verdict (disallows : list string) (path : string) : bool :=
  negb (existsb (fun rule => negb (JS.eqb rule "/") && JS.startsWith path rule)
                disallows).

Definition allowedByRobots (pf : Platform) (url : string) (userAgent : string)
  : Net bool :=
  try_catch
    (u ← lift (new_URL pf url);
     let robotsUrl := origin u ++ "/robots.txt" in
     res ← net_fetch pf robotsUrl [("User-Agent", userAgent)];
     if negb (Response_ok res) then mret true
     else
       text ← lift (Response_text pf res);
       mret (robots_verdict (robots_disallows pf userAgent text) (pathname u)))
    (mret true).

(** *** crawlBatch: the task run for each URL *)

Module CrawlResult.
Record t : Type := mk {
  ok : bool;
  status : Z;
  url : string
}.
End CrawlResult.

(** The async callback passed to [pLimit]; [out] is the shared result
    array, read when the task pushes, which is the last thing it does. *)
Definition crawl_task (pf : Platform) (userAgent : string) (url : string)
           (out : list CrawlResult.t) : Net (list CrawlResult.t) :=
  try_catch
    (allowed ← allowedByRobots pf url userAgent;
     if negb allowed then
       mret (out ++ [CrawlResult.mk true 999 url])
     else
       res ← net_fetch pf url [("User-Agent", userAgent)];
       mret (out ++ [CrawlResult.mk (Response_ok res) (status res) url]))
    (mret (out ++ [CrawlResult.mk false 0 url])).

(** *** Numbers used as a concurrency limit *)

(** JavaScript numbers: [NaN], the finite numbers, which are rationals,
    and the two infinities.  The two zeros are not told apart: no
    operation of the program does. *)
Inductive number : Type :=
| NaN
| Fin (q : Q)
| PInf
| NInf.

(** The number of an integer. *)
Definition Int (z : Z) : number := Fin (inject_Z z).

Definition Math_max (a b : number) : number :=
  match a, b with
  | NaN, _ | _, NaN => NaN
  | PInf, _ | _, PInf => PInf
  | NInf, y => y
  | x, NInf => x
  | Fin x, Fin y => if Qle_bool x y then Fin y else Fin x
  end.

(** [size >= limit] for a set size. *)
Definition size_ge (size : nat) (limit : number) : bool :=
  match limit with
  | NaN => false
  | Fin q => Qle_bool q (inject_Z (Z.of_nat size))
  | PInf => false
  | NInf => true
  end.

(** *** pLimit: promises and the scheduling loop *)

Module PLimit.

(** Where the body of [pLimit] stands. *)
Inductive control : Type :=
| InLoop
    (** about to take the next item of [for (const item of items)] *)
| AwaitRace (snapshot : gset nat) (winner : option bool)
    (** suspended in [await Promise.race(executing)]; [winner] is the
        outcome of the first promise of the snapshot whose reactions
        ran ([true] for fulfilled) *)
| AwaitAll (pending : gset nat) (rejected : bool)
    (** suspended in [await Promise.all(executing)] *)
| Returned
| Thrown.

Section Machine.
Context {T Store : Type}.

(** How the task [fn(item)] may end: from the shared store it sees
    when it ends, fulfilled ([true]) or rejected, leaving a store. *)
Variable fn : T -> Store -> bool -> Store -> Prop.
Variable items : list T.
Variable limit : number.

(** Promise [i] is the one returned by [fn] for the item at index [i]. *)
Record state : Type := mkState {
  started : nat;             (** items taken so far by the loop *)
  launched : list T;         (** the items [fn] was called on, in call order *)
  running : gset nat;        (** promises still pending *)
  settled : gmap nat bool;   (** settled promises whose reactions have
                                 not run yet, with their outcome *)
  executing : gset nat;      (** the [executing] set *)
  ctl : control;
  store : Store
}.

Definition init (s : Store) : state :=
  mkState 0 [] ∅ ∅ ∅ InLoop s.

(** The reactions registered on promise [i], run in registration
    order: first the [finally] callback (it removes [i] from
    [executing]), then the reaction of a pending [Promise.race] or
    [Promise.all] that took [i] in its snapshot. *)
Definition react (c : control) (i : nat) (o : bool) : control :=
  match c with
  | AwaitRace snap None =>
      if decide (i ∈ snap) then AwaitRace snap (Some o) else c
  | AwaitAll pending false =>
      if decide (i ∈ pending) then
        if o then AwaitAll (pending ∖ {[i]}) false else AwaitAll pending true
      else c
  | _ => c
  end.

(** One step of the event loop, seen from a call of [pLimit].  [fn] is an
    async function: calling it starts a task and gives a pending promise,
    which settles in a later step.  A task may settle and reactions may
    run at any point, also between two iterations of the loop: these are
    more interleavings than an event loop produces, so what holds in every
    reachable state holds in every run. *)
Inductive step : state -> state -> Prop :=
| step_start st item :
    ctl st = InLoop ->
    items !! started st = Some item ->
    (* const p = fn(item); executing.add(p); p.finally(...);
       if (executing.size >= limit) await Promise.race(executing); *)
    step st
      (mkState (S (started st)) (launched st ++ [item])
               (running st ∪ {[started st]}) (settled st)
               (executing st ∪ {[started st]})
               (if size_ge (size (executing st ∪ {[started st]})) limit
                then AwaitRace (executing st ∪ {[started st]}) None
                else InLoop)
               (store st))
| step_loop_end st :
    ctl st = InLoop ->
    items !! started st = None ->
    (* await Promise.all(executing); *)
    step st
      (mkState (started st) (launched st) (running st) (settled st)
               (executing st) (AwaitAll (executing st) false) (store st))
| step_settle st i item o s' :
    i ∈ running st ->
    items !! i = Some item ->
    fn item (store st) o s' ->
    step st
      (mkState (started st) (launched st) (running st ∖ {[i]})
               (<[i := o]> (settled st)) (executing st) (ctl st) s')
| step_reactions st i o :
    settled st !! i = Some o ->
    step st
      (mkState (started st) (launched st) (running st)
               (delete i (settled st)) (executing st ∖ {[i]})
               (react (ctl st) i o) (store st))
| step_race_resume st snap :
    ctl st = AwaitRace snap (Some true) ->
    step st
      (mkState (started st) (launched st) (running st) (settled st)
               (executing st) InLoop (store st))
| step_race_throw st snap :
    ctl st = AwaitRace snap (Some false) ->
    step st
      (mkState (started st) (launched st) (running st) (settled st)
               (executing st) Thrown (store st))
| step_all_return st :
    ctl st = AwaitAll ∅ false ->
    step st
      (mkState (started st) (launched st) (running st) (settled st)
               (executing st) Returned (store st))
| step_all_throw st pending :
    ctl st = AwaitAll pending true ->
    step st
      (mkState (started st) (launched st) (running st) (settled st)
               (executing st) Thrown (store st)).

(** States of a call [pLimit(items, limit, fn)] entered with store [s]. *)
Inductive reachable (s : Store) : state -> Prop :=
| reach_init : reachable s (init s)
| reach_step st st' : reachable s st -> step st st' -> reachable s st'.

Inductive steps : state -> state -> Prop :=
| steps_refl st : steps st st
| steps_cons st st' st'' : step st st' -> steps st' st'' -> steps st st''.

End Machine.

End PLimit.

(** *** crawlBatch *)

(** The task of [crawlBatch] as [pLimit] sees it: it ends fulfilled with
    the array it pushed to, or rejected if the callback threw. *)
Definition crawlBatch_fn (pf : Platform) (userAgent : string)
  : string -> list CrawlResult.t -> bool -> list CrawlResult.t -> Prop :=
  fun url out o out' =>
    match fst (crawl_task pf userAgent url out []) with
    | Ok r => o = true /\ out' = r
    | Throw _ => o = false /\ out' = out
    end.

(** [crawlBatch(urls, userAgent, concurrency)] returns [out] when the
    awaited [pLimit] call has returned. *)
Definition crawlBatch_returns (pf : Platform) (urls : list string)
           (userAgent : string) (concurrency : number)
           (result : list CrawlResult.t) : Prop :=
  exists st,
    PLimit.reachable (crawlBatch_fn pf userAgent) urls
                     (Math_max (Int 1) concurrency) [] st
    /\ PLimit.ctl st = PLimit.Returned
    /\ PLimit.store st = result.

(** ** src/index.ts *)

Module InlineEnqueuer.

(** The line written by [console.log]. *)
Definition summary (urls : list string) (results : list CrawlResult.t) : string :=
  let ok := length (List.filter CrawlResult.ok results) in
  "Crawled inline: " ++ JS.Z_to_string (Z.of_nat (length urls))
  ++ " urls (ok=" ++ JS.Z_to_string (Z.of_nat ok) ++ ")".

(** What follows [await crawlBatch(...)]: the logged line and the
    returned count. *)
Definition after_crawl (urls : list string) (results : list CrawlResult.t)
  : string * nat :=
  (summary urls results, length urls).

(** [enqueueMany(urls)] returns [count] having logged [console]. *)
Definition enqueueMany_returns (pf : Platform) (userAgent : string)
           (concurrency : number) (urls : list string)
           (console : string) (count : nat) : Prop :=
  exists results,
    crawlBatch_returns pf urls userAgent concurrency results
    /\ after_crawl urls results = (console, count).

End InlineEnqueuer.

Module QueueEnqueuer.

(** A message of a batch: [{ body: u }]. *)
Record MessageSendRequest : Type := mkMessage { body : string }.

Definition Batch : Type := list MessageSendRequest.

(** The queue binding: what [sendBatch] answers to a batch, given the
    batches it accepted before. *)
Definition Queue : Type := list Batch -> Batch -> Res unit.

(** [await this.queue.sendBatch(batch)]; the log holds the batches the
    queue accepted. *)
Definition sendBatch (queue : Queue) (batch : Batch) : Eff Batch unit :=
  fun log =>
    match queue log batch with
    | Ok _ => (Ok tt, log ++ [batch])
    | Throw e => (Throw e, log)
    end.

Definition chunkSize : nat := 1000.

(** [urls.slice(i, j)] *)
Definition Array_slice {A : Type} (xs : list A) (i j : nat) : list A :=
  take (j - i) (drop i xs).

(** [for (let i = 0; i < urls.length; i += chunkSize) { ... }] from the
    value [i] of the loop variable. *)
Equations? loop (queue : Queue) (urls : list string) (i : nat)
  : Eff Batch unit by wf (length urls - i) lt :=
  loop queue urls i with lt_dec i (length urls) => {
    | left _ =>
        let chunk := Array_slice urls i (i + chunkSize) in
        _ ← sendBatch queue (map mkMessage chunk);
        loop queue urls (i + chunkSize)
    | right _ => mret tt }.
Proof. unfold chunkSize. lia. Qed.

Definition enqueueMany (queue : Queue) (urls : list string) : Eff Batch nat :=
  _ ← loop queue urls 0;
  mret (length urls).

End QueueEnqueuer.

(** ** src/index.ts: configuration, helpers and handlers *)

(** *** Library functions the worker calls *)

Definition is_digit (c : unit16) : bool := (48 <=? c)%N && (c <=? 57)%N.

(** The value of the decimal digits [s] starts with, after the digits
    already read, whose value is [acc]. *)
Fixpoint digits_value (s : string) (acc : Z) : Z :=
  match s with
  | [] => acc
  | c :: r =>
      if is_digit c
      then digits_value r (10 * acc + Z.of_N (c - 48))%Z
      else acc
  end.

(** The double nearest to a natural number [v], ties going to the even
    significand: [v] itself when it has at most 53 bits. *)
Definition round53 (v : Z) : Z :=
  let bits := (Z.log2 v + 1)%Z in
  if (bits <=? 53)%Z then v
  else
    let sh := (bits - 53)%Z in
    let q := Z.shiftr v sh in
    let r := (v mod 2 ^ sh)%Z in
    let half := (2 ^ (sh - 1))%Z in
    let q' := if (half <? r)%Z || ((r =? half)%Z && Z.odd q) then (q + 1)%Z else q in
    Z.shiftl q' sh.

(** The number an integer becomes: rounded to a double, an infinity when
    that is beyond the largest double. *)
Definition number_of_Z (z : Z) : number :=
  let m := round53 (Z.abs z) in
  if (2 ^ 1024 <=? m)%Z then (if (z <? 0)%Z then NInf else PInf)
  else Int (Z.sgn z * m).

(** [parseInt(s, 10)]: leading white space is skipped, a sign is read,
    then the longest run of decimal digits; without a digit the result is
    [NaN], and otherwise the double nearest to the integer read. *)
Definition parseInt (s : string) : number :=
  let trimmed := JS.trimStart s in
  let '(sign, rest) :=
    match trimmed with
    | 45%N :: r => ((-1)%Z, r)      (* "-" *)
    | 43%N :: r => (1%Z, r)         (* "+" *)
    | _ => (1%Z, trimmed)
    end in
  match rest with
  | c :: _ =>
      if is_digit c then number_of_Z (sign * digits_value rest 0) else NaN
  | [] => NaN
  end.

(** The integer part of a finite number. *)
Definition truncate (q : Q) : Z :=
  if Qle_bool 0 q then Qfloor q else Qceiling q.

(** [xs.slice(0, end)]: [end] is cut to its integer part, [NaN] counts as
    0 and a negative [end] counts from the end of the array. *)
Definition Array_slice_to {A : Type} (xs : list A) (end_ : number) : list A :=
  match end_ with
  | NaN => []
  | Fin q =>
      let z := truncate q in
      if (z <? 0)%Z then take (length xs - Z.to_nat (- z)) xs
      else take (Z.to_nat z) xs
  | PInf => xs
  | NInf => []
  end.

(** [s.replace(/\/$/, "")]: one slash at the very end is removed. *)
Fixpoint strip_trailing_slash (s : string) : string :=
  match s with
  | [] => []
  | c :: r =>
      match r with
      | [] => if (c =? 47)%N then [] else s
      | _ :: _ => c :: strip_trailing_slash r
      end
  end.

(** [v || d] for an optional string: [undefined] and the empty string
    give [d]. *)
Definition or_default (v : option string) (d : string) : string :=
  match v with
  | Some s => if JS.eqb s "" then d else s
  | None => d
  end.

(** The test [if (v)] on an optional string: [null] and the empty string
    fail it. *)
Definition nonempty (v : option string) : option string :=
  match v with
  | Some s => if JS.eqb s "" then None else Some s
  | None => None
  end.

Module Worker.

Record Env : Type := mkEnv {
  DEFAULT_SITEMAP : string;
  USER_AGENT : string;
  MAX_CONCURRENCY : option string;
  MAX_URLS_PER_RUN : option string;
  PREVIEW_LIMIT : option string;
  CRAWL_QUEUE : option QueueEnqueuer.Queue
}.

(** The parsed URL of the request: its path, and [searchParams.get]. *)
Record RequestURL : Type := mkRequestURL {
  req_pathname : string;
  searchParams_get : string -> option string
}.

Definition inferSitemapFromParams (url : RequestURL) (env : Env) : string :=
  match nonempty (searchParams_get url "sitemap") with
  | Some direct => direct
  | None =>
      match nonempty (searchParams_get url "domain") with
      | Some domain =>
          "https://" ++ strip_trailing_slash domain ++ "/sitemap.xml"
      | None =>
          or_default (Some (DEFAULT_SITEMAP env)) "https://megabyte.space/sitemap.xml"
      end
  end.

(** [xs.slice(0, Math.max(0, max))] *)
Definition limitList {A : Type} (xs : list A) (max : number) : list A :=
  Array_slice_to xs (Math_max (Int 0) max).

(** The three settings read with [parseInt(env.X || "default", 10)]. *)
Definition preview_limit (env : Env) : number :=
  parseInt (or_default (PREVIEW_LIMIT env) "50").

Definition max_per_run (env : Env) : number :=
  parseInt (or_default (MAX_URLS_PER_RUN env) "40").

Definition max_concurrency (env : Env) : number :=
  parseInt (or_default (MAX_CONCURRENCY env) "5").

Inductive Enqueuer : Type :=
| Inline (userAgent : string) (concurrency : number)
| Queued (queue : QueueEnqueuer.Queue).

Definition makeEnqueuer (env : Env) (concurrency : number) : Enqueuer :=
  match CRAWL_QUEUE env with
  | Some queue => Queued queue
  | None => Inline (USER_AGENT env) concurrency
  end.

(** The URL values as the strings they stand for when fetched; on the
    string values that the type [UrlString[]] declares this changes
    nothing. *)
Definition url_strings (urls : list JS.Val) : list string := map JS.ToString urls.

(** The object given to [json] by the [/preview] route. *)
Record PreviewData : Type := mkPreview {
  pv_sitemap : string;
  pv_total : nat;
  pv_sample : list JS.Val
}.

(** The object given to [json] by the [/crawl] route. *)
Record CrawlData : Type := mkCrawl {
  cr_sitemap : string;
  cr_discovered : nat;
  cr_dispatched : nat;
  cr_mode : string
}.

(** The [/preview] route. *)
Definition preview (pf : Platform) (env : Env) (fuel : nat) (url : RequestURL)
  : Fueled PreviewData :=
  let sitemapUrl := inferSitemapFromParams url env in
  match resolve pf (USER_AGENT env) fuel sitemapUrl with
  | None => None
  | Some (Throw e) => Some (Throw e)
  | Some (Ok urls) =>
      let limit := preview_limit env in
      Some (Ok (mkPreview sitemapUrl (length urls) (limitList urls limit)))
  end.

(** [enqueuer.enqueueMany(batch)] returns [accepted], taking the log of
    the queue from [log] to [log']. *)
Definition enqueueMany_returns (pf : Platform) (enqueuer : Enqueuer)
           (batch : list string) (log : list QueueEnqueuer.Batch)
           (accepted : nat) (log' : list QueueEnqueuer.Batch) : Prop :=
  match enqueuer with
  | Inline userAgent concurrency =>
      (exists console,
          InlineEnqueuer.enqueueMany_returns pf userAgent concurrency batch
                                             console accepted)
      /\ log' = log
  | Queued queue =>
      QueueEnqueuer.enqueueMany queue batch log = (Ok accepted, log')
  end.

(** The [/crawl] route answers with [data]. *)
Definition crawl_returns (pf : Platform) (env : Env) (fuel : nat)
           (url : RequestURL) (log : list QueueEnqueuer.Batch)
           (data : CrawlData) (log' : list QueueEnqueuer.Batch) : Prop :=
  let sitemapUrl := inferSitemapFromParams url env in
  exists urls accepted,
    resolve pf (USER_AGENT env) fuel sitemapUrl = Some (Ok urls)
    /\ (let maxPerRun := max_per_run env in
        let concurrency := max_concurrency env in
        let batch := limitList urls maxPerRun in
        let enqueuer := makeEnqueuer env concurrency in
        enqueueMany_returns pf enqueuer (url_strings batch) log accepted log')
    /\ data = mkCrawl sitemapUrl (length urls) accepted
                      (match CRAWL_QUEUE env with
                       | Some _ => "queued"
                       | None => "inline"
                       end).

End Worker.

(** * Vocabulary of the statements *)

(** ** Sitemaps *)

(** The path ends in [.gz], in either letter case. *)
Definition ends_with_gz (path : string) : Prop :=
  exists pre g z,
    path = pre ++ "." ++ g ++ z
    /\ (g = "g" \/ g = "G") /\ (z = "z" \/ z = "Z").

(** The headers [fetchText] sends. *)
Definition sitemap_headers (userAgent : string) : Headers :=
  [("User-Agent", userAgent); ("Accept-Encoding", "gzip,deflate")].

(** The entries of an index document, as the loop of [IndexParser] sees
    them, the test it makes on each and the URL it fetches. *)
Definition index_entries (doc : JS.Val) : list JS.Val :=
  JS.as_list (JS.get (JS.get doc "sitemapindex") "sitemap").


Definition has_loc (entry : JS.Val) : bool := JS.truthy (JS.get entry "loc").

Definition child_url (entry : JS.Val) : string := JS.ToString (JS.get entry "loc").

(** [child] is an index document that the resolution of the index
    document [parent] goes into: the text fetched for an entry of [parent]
    that has a location, recognised as an index, every entry before it
    having been resolved without an error. *)
Definition nested_in (pf : Platform) (userAgent : string) (child parent : string)
  : Prop :=
  exists doc before entry after,
    XMLParser_parse pf parent = Ok doc
    /\ JS.truthy (JS.get (JS.get doc "sitemapindex") "sitemap") = true
    /\ index_entries doc = before ++ entry :: after
    /\ (forall e, e ∈ before -> has_loc e = true ->
                  exists fuel us,
                    resolve pf userAgent fuel (child_url e) = Some (Ok us))
    /\ has_loc entry = true
    /\ SitemapSource.fetchText pf userAgent (child_url entry) = Ok child
    /\ SitemapParserFactory.from pf child = Ok IndexStrategy.

(** ** robots.txt *)

(** The trimmed lines of a robots.txt text. *)
Definition robots_lines (text : string) : list string :=
  map JS.trim (JS.split_lines text).

(** The directive a line carries: its key in lower case and its value,
    split at the first colon; none for a blank line, a comment or a line
    without a colon. *)
Definition directive (pf : Platform) (line : string) : option (string * string) :=
  if JS.eqb line "" || JS.startsWith line "#" then None
  else
    match JS.indexOf line ":" with
    | None => None
    | Some idx =>
        Some (toLowerCase pf (JS.trim (JS.slice line 0 idx)),
              JS.trim (JS.slice_from line (idx + 1)))
    end.

(** A [User-agent] value that selects the agent: the wildcard, or a
    name that is, in lower case, the agent's name in lower case. *)
Definition applies_to (pf : Platform) (userAgent v : string) : bool :=
  JS.eqb v "*" || JS.eqb (toLowerCase pf v) (toLowerCase pf userAgent).

Definition is_user_agent_line (pf : Platform) (line : string) : Prop :=
  exists v, directive pf line = Some ("user-agent", v).

(** After the lines [pre], a block that applies to the agent is active:
    the last [User-agent] line of [pre] selects the agent. *)
Definition block_active (pf : Platform) (userAgent : string) (pre : list string)
  : Prop :=
  exists l1 line v l2,
    pre = l1 ++ line :: l2
    /\ directive pf line = Some ("user-agent", v)
    /\ applies_to pf userAgent v = true
    /\ Forall (fun l => ~ is_user_agent_line pf l) l2.

(** [rule] is a non-empty [Disallow] value met while such a block is active. *)
Definition collected (pf : Platform) (userAgent : string) (lines : list string)
           (rule : string) : Prop :=
  exists pre line post,
    lines = pre ++ line :: post
    /\ block_active pf userAgent pre
    /\ directive pf line = Some ("disallow", rule)
    /\ rule <> "".

(** [path] starts with [rule]. *)
Definition starts_with (path rule : string) : Prop :=
  exists rest, path = rule ++ rest.

Definition robots_headers (userAgent : string) : Headers :=
  [("User-Agent", userAgent)].

(** ** pLimit and crawlBatch *)

(** Facts that hold for every limit. *)
Definition inv_basic {T Store : Type} (items : list T)
           (st : @PLimit.state T Store) : Prop :=
  PLimit.executing st = PLimit.running st ∪ dom (PLimit.settled st)
  /\ PLimit.running st ## dom (PLimit.settled st)
  /\ (forall i, i ∈ PLimit.executing st -> i < PLimit.started st)
  /\ PLimit.started st <= length items
  /\ PLimit.launched st = take (PLimit.started st) items
  /\ match PLimit.ctl st with
     | PLimit.InLoop => True
     | PLimit.AwaitRace snap w =>
         PLimit.executing st ⊆ snap /\ (w = None -> PLimit.executing st <> ∅)
     | PLimit.AwaitAll pending rej =>
         PLimit.started st = length items /\ (rej = false -> pending = PLimit.executing st)
     | PLimit.Returned => PLimit.started st = length items /\ PLimit.executing st = ∅
     | PLimit.Thrown => True
     end.

(** The number of slots a limit gives: the limit rounded up to an
    integer, and at least one, as the test [executing.size >= limit] comes
    after a task was added; [NaN] and [+Infinity] give no bound. *)
Definition slots (limit : number) : option nat :=
  match limit with
  | NaN => None
  | Fin q => Some (Z.to_nat (Z.max 1 (Qceiling q)))
  | PInf => None
  | NInf => Some 1
  end.

(** [limit >= n] *)
Definition at_least (limit : number) (n : nat) : Prop :=
  match limit with
  | NaN => False
  | Fin q => (inject_Z (Z.of_nat n) <= q)%Q
  | PInf => True
  | NInf => False
  end.

(** The loop is suspended in the race only after the test on the size
    held, with a snapshot of promises of started items. *)
Definition inv_race {T Store : Type} (limit : number)
           (st : @PLimit.state T Store) : Prop :=
  match PLimit.ctl st with
  | PLimit.AwaitRace snap w =>
      size_ge (size snap) limit = true
      /\ (forall i, i ∈ snap -> i < PLimit.started st)
  | _ => True
  end.

(** The size of [executing] against the number of slots, by control
    point. *)
Definition inv_bound {T Store : Type} (n : nat)
           (st : @PLimit.state T Store) : Prop :=
  size (PLimit.executing st) <= n
  /\ match PLimit.ctl st with
     | PLimit.InLoop => size (PLimit.executing st) < n
     | PLimit.AwaitRace snap w =>
         size snap = n
         /\ (forall i, i ∈ snap -> i < PLimit.started st)
         /\ match w with
            | None => PLimit.executing st = snap
            | Some _ => size (PLimit.executing st) < n
            end
     | _ => True
     end.

(** Nothing was rejected. *)
Definition inv_fulfilled {T Store : Type} (st : @PLimit.state T Store) : Prop :=
  (forall i o, PLimit.settled st !! i = Some o -> o = true)
  /\ match PLimit.ctl st with
     | PLimit.AwaitRace _ (Some false) | PLimit.AwaitAll _ true | PLimit.Thrown => False
     | _ => True
     end.

(** The record [crawlBatch] pushes for a URL. *)
Definition crawl_result (pf : Platform) (userAgent url : string) : CrawlResult.t :=
  match fst (allowedByRobots pf url userAgent []) with
  | Ok false => CrawlResult.mk true 999 url
  | Ok true =>
      match fetch pf url (robots_headers userAgent) with
      | Ok res => CrawlResult.mk (Response_ok res) (status res) url
      | Throw _ => CrawlResult.mk false 0 url
      end
  | Throw _ => CrawlResult.mk false 0 url
  end.

(** No promise is rejected, and the store holds the records of the
    settled tasks in the order they settled. *)
Definition inv_collect {T R : Type} (g : T -> R) (items : list T)
           (st : @PLimit.state T (list R)) : Prop :=
  (forall i o, PLimit.settled st !! i = Some o -> o = true)
  /\ match PLimit.ctl st with
     | PLimit.AwaitRace _ (Some false) | PLimit.AwaitAll _ true | PLimit.Thrown => False
     | _ => True
     end
  /\ exists order : list nat,
      NoDup order
      /\ (forall i, i ∈ order <-> i < PLimit.started st /\ i ∉ PLimit.running st)
      /\ Some <$> PLimit.store st = (fun i => g <$> items !! i) <$> order.

Definition ctl_weight (c : PLimit.control) : nat :=
  match c with
  | PLimit.AwaitRace _ _ => 3
  | PLimit.InLoop => 2
  | PLimit.AwaitAll _ _ => 1
  | PLimit.Returned | PLimit.Thrown => 0
  end.

(** Work left: items to start, tasks to settle, reactions to run, and
    the control points still ahead. *)
Definition work_left {T Store : Type} (items : list T)
           (st : @PLimit.state T Store) : nat :=
  4 * (length items - PLimit.started st) + 2 * size (PLimit.running st)
  + size (PLimit.settled st) + ctl_weight (PLimit.ctl st).

(** ** Enqueuers *)

(** [ceil(n / c)] *)
Definition div_ceil (n c : nat) : nat := (n + c - 1) / c.

(** The batch cut at offset [i]. *)
Definition batch_at (urls : list string) (i : nat) : QueueEnqueuer.Batch :=
  map QueueEnqueuer.mkMessage
      (QueueEnqueuer.Array_slice urls i (i + QueueEnqueuer.chunkSize)).

(** The batches of [urls] from offset [i] on: one every [chunkSize] URLs. *)
Definition chunks_from (urls : list string) (i : nat) : list QueueEnqueuer.Batch :=
  map (fun k => batch_at urls (i + k * QueueEnqueuer.chunkSize))
      (seq 0 (div_ceil (length urls - i) QueueEnqueuer.chunkSize)).

Definition chunks (urls : list string) : list QueueEnqueuer.Batch :=
  chunks_from urls 0.

(** Sending batches one after the other, stopping at the first rejection. *)
Fixpoint send_all (queue : QueueEnqueuer.Queue) (batches : list QueueEnqueuer.Batch)
  : Eff QueueEnqueuer.Batch unit :=
  match batches with
  | [] => mret tt
  | b :: rest => _ ← QueueEnqueuer.sendBatch queue b; send_all queue rest
  end.

(** ** Settings, robots.txt lines and parser choice *)

(** How many elements of a list of length [len] a limit lets through at
    most: its integer part, nothing below zero or for [NaN]. *)
Definition limit_count (max : number) (len : nat) : nat :=
  match max with
  | NaN => 0
  | Fin q => Z.to_nat (Qfloor q)
  | PInf => len
  | NInf => 0
  end.

(** The [disallows] array after the loop over trimmed lines. *)
Definition disallows_of_lines (pf : Platform) (userAgent : string)
           (lines : list string) : list string :=
  snd (fold_left (robots_line pf userAgent) lines (false, [])).

(** The non-empty [Disallow] values of some lines, in order. *)
Definition disallow_values (pf : Platform) (lines : list string) : list string :=
  omap (fun line =>
          match directive pf line with
          | Some (k, v) =>
              if JS.eqb k "disallow" && negb (JS.eqb v "")
              then Some v else None
          | None => None
          end) lines.

(** The request [allowedByRobots] issues for a URL. *)
Definition robots_request (pf : Platform) (userAgent url : string) : list Request :=
  match new_URL pf url with
  | Ok u => [(origin u ++ "/robots.txt", robots_headers userAgent)]
  | Throw _ => []
  end.

(** [marker] occurs in the first 200 code units of [xml] once they are
    put in lower case. *)
Definition marker_in_head (pf : Platform) (xml marker : string) : Prop :=
  exists pre post,
    toLowerCase pf (take 200 xml) = pre ++ marker ++ post.

(** Whether the record of a URL has [ok] set. *)
Definition counted_ok (pf : Platform) (userAgent url : string) : bool :=
  CrawlResult.ok (crawl_result pf userAgent url).

(** * A small table-driven platform, used to run the program *)

Module Fixture.

Record Page : Type := mkPage {
  p_url : string;
  p_loc : URL;
  p_status : Z;
  p_body : option (list Byte.byte);
  p_text : string;        (** the decoded text of the body *)
  p_doc : JS.Val          (** what the XML parser makes of the text *)
}.

Fixpoint find_page (pages : list Page) (url : string) : option Page :=
  match pages with
  | [] => None
  | p :: rest => if JS.eqb (p_url p) url then Some p else find_page rest url
  end.

Fixpoint find_text (pages : list Page) (text : string) : option Page :=
  match pages with
  | [] => None
  | p :: rest => if JS.eqb (p_text p) text then Some p else find_text rest text
  end.

(** A stand-in for the lower-casing of the engine: the simple case
    mapping of Unicode 14, code point by code point, and U+0130, which
    gives two code units.  Each run [(first, last, step, image)] maps the
    code points [first], [first + step], ... up to [last] to [image],
    [image + step], ...  The context rule for a final sigma is left
    out. *)
Definition lower_runs : list (N * N * N * N) :=
  [(192, 214, 1, 224); (216, 222, 1, 248); (256, 302, 2, 257);
   (306, 310, 2, 307); (313, 327, 2, 314); (330, 374, 2, 331);
   (376, 376, 1, 255); (377, 381, 2, 378); (385, 385, 1, 595);
   (386, 388, 2, 387); (390, 390, 1, 596); (391, 391, 1, 392);
   (393, 394, 1, 598); (395, 395, 1, 396); (398, 398, 1, 477);
   (399, 399, 1, 601); (400, 400, 1, 603); (401, 401, 1, 402);
   (403, 403, 1, 608); (404, 404, 1, 611); (406, 406, 1, 617);
   (407, 407, 1, 616); (408, 408, 1, 409); (412, 412, 1, 623);
   (413, 413, 1, 626); (415, 415, 1, 629); (416, 420, 2, 417);
   (422, 422, 1, 640); (423, 423, 1, 424); (425, 425, 1, 643);
   (428, 428, 1, 429); (430, 430, 1, 648); (431, 431, 1, 432);
   (433, 434, 1, 650); (435, 437, 2, 436); (439, 439, 1, 658);
   (440, 440, 1, 441); (444, 444, 1, 445); (452, 452, 1, 454);
   (453, 453, 1, 454); (455, 455, 1, 457); (456, 456, 1, 457);
   (458, 458, 1, 460); (459, 475, 2, 460); (478, 494, 2, 479);
   (497, 497, 1, 499); (498, 500, 2, 499); (502, 502, 1, 405);
   (503, 503, 1, 447); (504, 542, 2, 505); (544, 544, 1, 414);
   (546, 562, 2, 547); (570, 570, 1, 11365); (571, 571, 1, 572);
   (573, 573, 1, 410); (574, 574, 1, 11366); (577, 577, 1, 578);
   (579, 579, 1, 384); (580, 580, 1, 649); (581, 581, 1, 652);
   (582, 590, 2, 583); (880, 882, 2, 881); (886, 886, 1, 887);
   (895, 895, 1, 1011); (902, 902, 1, 940); (904, 906, 1, 941);
   (908, 908, 1, 972); (910, 911, 1, 973); (913, 929, 1, 945);
   (931, 939, 1, 963); (975, 975, 1, 983); (984, 1006, 2, 985);
   (1012, 1012, 1, 952); (1015, 1015, 1, 1016); (1017, 1017, 1, 1010);
   (1018, 1018, 1, 1019); (1021, 1023, 1, 891); (1024, 1039, 1, 1104);
   (1040, 1071, 1, 1072); (1120, 1152, 2, 1121); (1162, 1214, 2, 1163);
   (1216, 1216, 1, 1231); (1217, 1229, 2, 1218); (1232, 1326, 2, 1233);
   (1329, 1366, 1, 1377); (4256, 4293, 1, 11520); (4295, 4295, 1, 11559);
   (4301, 4301, 1, 11565); (5024, 5103, 1, 43888); (5104, 5109, 1, 5112);
   (7312, 7354, 1, 4304); (7357, 7359, 1, 4349); (7680, 7828, 2, 7681);
   (7838, 7838, 1, 223); (7840, 7934, 2, 7841); (7944, 7951, 1, 7936);
   (7960, 7965, 1, 7952); (7976, 7983, 1, 7968); (7992, 7999, 1, 7984);
   (8008, 8013, 1, 8000); (8025, 8031, 2, 8017); (8040, 8047, 1, 8032);
   (8072, 8079, 1, 8064); (8088, 8095, 1, 8080); (8104, 8111, 1, 8096);
   (8120, 8121, 1, 8112); (8122, 8123, 1, 8048); (8124, 8124, 1, 8115);
   (8136, 8139, 1, 8050); (8140, 8140, 1, 8131); (8152, 8153, 1, 8144);
   (8154, 8155, 1, 8054); (8168, 8169, 1, 8160); (8170, 8171, 1, 8058);
   (8172, 8172, 1, 8165); (8184, 8185, 1, 8056); (8186, 8187, 1, 8060);
   (8188, 8188, 1, 8179); (8486, 8486, 1, 969); (8490, 8490, 1, 107);
   (8491, 8491, 1, 229); (8498, 8498, 1, 8526); (8544, 8559, 1, 8560);
   (8579, 8579, 1, 8580); (9398, 9423, 1, 9424); (11264, 11311, 1, 11312);
   (11360, 11360, 1, 11361); (11362, 11362, 1, 619); (11363, 11363, 1, 7549);
   (11364, 11364, 1, 637); (11367, 11371, 2, 11368); (11373, 11373, 1, 593);
   (11374, 11374, 1, 625); (11375, 11375, 1, 592); (11376, 11376, 1, 594);
   (11378, 11378, 1, 11379); (11381, 11381, 1, 11382);
   (11390, 11391, 1, 575); (11392, 11490, 2, 11393);
   (11499, 11501, 2, 11500); (11506, 11506, 1, 11507);
   (42560, 42604, 2, 42561); (42624, 42650, 2, 42625);
   (42786, 42798, 2, 42787); (42802, 42862, 2, 42803);
   (42873, 42875, 2, 42874); (42877, 42877, 1, 7545);
   (42878, 42886, 2, 42879); (42891, 42891, 1, 42892);
   (42893, 42893, 1, 613); (42896, 42898, 2, 42897);
   (42902, 42920, 2, 42903); (42922, 42922, 1, 614); (42923, 42923, 1, 604);
   (42924, 42924, 1, 609); (42925, 42925, 1, 620); (42926, 42926, 1, 618);
   (42928, 42928, 1, 670); (42929, 42929, 1, 647); (42930, 42930, 1, 669);
   (42931, 42931, 1, 43859); (42932, 42946, 2, 42933);
   (42948, 42948, 1, 42900); (42949, 42949, 1, 642); (42950, 42950, 1, 7566);
   (42951, 42953, 2, 42952); (42960, 42960, 1, 42961);
   (42966, 42968, 2, 42967); (42997, 42997, 1, 42998);
   (65313, 65338, 1, 65345); (66560, 66599, 1, 66600);
   (66736, 66771, 1, 66776); (66928, 66938, 1, 66967);
   (66940, 66954, 1, 66979); (66956, 66962, 1, 66995);
   (66964, 66965, 1, 67003); (68736, 68786, 1, 68800);
   (71840, 71871, 1, 71872); (93760, 93791, 1, 93792);
   (125184, 125217, 1, 125218)]%N.

Fixpoint lower_in (runs : list (N * N * N * N)) (c : N) : N :=
  match runs with
  | [] => c
  | (first, last, step, image) :: rest =>
      if ((first <=? c) && (c <=? last) && ((c - first) mod step =? 0))%N
      then (image + (c - first))%N
      else lower_in rest c
  end.

Definition lower_code_point (c : N) : N :=
  if (c <? 192)%N then
    if ((65 <=? c) && (c <=? 90))%N then (c + 32)%N else c
  else lower_in lower_runs c.

Fixpoint lower (s : string) : string :=
  match s with
  | [] => []
  | u :: r =>
      if (u =? 304)%N then 105%N :: 775%N :: lower r
      else if ((55296 <=? u) && (u <? 56320))%N then
        match r with
        | lo :: r' =>
            if ((56320 <=? lo) && (lo <? 57344))%N then
              Literal.units_of_code_point
                (lower_code_point (65536 + (u - 55296) * 1024 + (lo - 56320))%N)
              ++ lower r'
            else u :: lower r
        | [] => [u]
        end
      else lower_code_point u :: lower r
  end.

Definition gzip_magic : list Byte.byte := [Byte.x1f; Byte.x8b].

(** A stand-in for gzip: the magic bytes followed by the text. *)
Definition toy_gzip (text : string) : list Byte.byte :=
  gzip_magic ++ JS.utf8_encode text.

Definition toy_gunzip (b : list Byte.byte) : Res string :=
  match b with
  | Byte.x1f :: Byte.x8b :: rest => Ok (JS.utf8_decode rest)
  | _ => Throw (PlatformExn "TypeError: not gzip data")
  end.

(** URLs outside the table are malformed: [new URL] and [fetch] throw.
    A page of status 0 stands for an unreachable host: [fetch] throws. *)
Definition platform (pages : list Page) : Platform :=
  {| fetch := fun url _ =>
       match find_page pages url with
       | Some p =>
           if (p_status p =? 0)%Z then Throw (PlatformExn "TypeError: network failure")
           else Ok (mkResponse (p_status p) (p_body p))
       | None => Throw (PlatformExn "TypeError: Invalid URL")
       end;
     new_URL := fun url =>
       match find_page pages url with
       | Some p => Ok (p_loc p)
       | None => Throw (PlatformExn "TypeError: Invalid URL")
       end;
     Response_text := fun res =>
       Ok (JS.utf8_decode (default [] (body res)));
     gunzip_text := toy_gunzip;
     XMLParser_parse := fun text =>
       match find_text pages text with
       | Some p => Ok (p_doc p)
       | None => Ok (JS.Str text)
       end;
     toLowerCase := lower |}.

Definition loc_entry (loc : string) : JS.Val := JS.Obj [("loc", JS.Str loc)].

(** What the XML parser gives for the children of a root element: the
    child itself when there is one, an array when there are several. *)
Definition children_val (locs : list string) : JS.Val :=
  match locs with
  | [loc] => loc_entry loc
  | _ => JS.Arr (map loc_entry locs)
  end.

Definition urlset_doc (locs : list string) : JS.Val :=
  JS.Obj [("urlset", JS.Obj [("url", children_val locs)])].

Definition index_doc (locs : list string) : JS.Val :=
  JS.Obj [("sitemapindex", JS.Obj [("sitemap", children_val locs)])].

Fixpoint xml_children (tag : string) (locs : list string) : string :=
  match locs with
  | [] => ""
  | loc :: rest =>
      "<" ++ tag ++ "><loc>" ++ loc ++ "</loc></" ++ tag ++ ">"
      ++ xml_children tag rest
  end.

Definition urlset_xml (locs : list string) : string :=
  "<urlset>" ++ xml_children "url" locs ++ "</urlset>".

Definition index_xml (locs : list string) : string :=
  "<sitemapindex>" ++ xml_children "sitemap" locs ++ "</sitemapindex>".

Definition plain_page (url host path text : string) (doc : JS.Val) : Page :=
  mkPage url (mkURL host path) 200 (Some (JS.utf8_encode text)) text doc.

Definition gz_page (url host path text : string) (doc : JS.Val) : Page :=
  mkPage url (mkURL host path) 200 (Some (toy_gzip text)) text doc.

Definition missing_page (url host path : string) : Page :=
  mkPage url (mkURL host path) 404 None "" JS.Undefined.

Definition pages_s1 : list string :=
  ["https://a.example/p1"; "https://a.example/p2"].

Definition pages_s2 : list string :=
  ["https://a.example/p3"; "https://a.example/p1"; "https://a.example/p4"].

Definition children_a : list string :=
  ["https://a.example/s1.xml"; "https://a.example/s2.xml.GZ"].

Definition children_b : list string :=
  ["https://a.example/s1.xml"; "https://b.example/missing.xml";
   "https://a.example/s2.xml.GZ"].

Definition loop_url : string := "https://loop.example/sitemap.xml".

(** An index with two children (the second one gzipped), an index with
    a missing child, and an index that lists itself. *)
Definition site : list Page :=
  [ plain_page "https://a.example/index.xml" "https://a.example" "/index.xml"
      (index_xml children_a) (index_doc children_a);
    plain_page "https://a.example/s1.xml" "https://a.example" "/s1.xml"
      (urlset_xml pages_s1) (urlset_doc pages_s1);
    gz_page "https://a.example/s2.xml.GZ" "https://a.example" "/s2.xml.GZ"
      (urlset_xml pages_s2) (urlset_doc pages_s2);
    plain_page "https://b.example/index.xml" "https://b.example" "/index.xml"
      (index_xml children_b) (index_doc children_b);
    missing_page "https://b.example/missing.xml" "https://b.example" "/missing.xml";
    mkPage "https://a.example/empty.gz" (mkURL "https://a.example" "/empty.gz")
      200 None "" JS.Undefined;
    plain_page loop_url "https://loop.example" "/sitemap.xml"
      (index_xml [loop_url]) (index_doc [loop_url]) ].

Fixpoint join_lines (ls : list string) : string :=
  match ls with
  | [] => ""
  | l :: rest => l ++ JS.LF :: join_lines rest
  end.

Definition text_page (url host path text : string) : Page :=
  mkPage url (mkURL host path) 200 (Some (JS.utf8_encode text)) text (JS.Str text).

Definition down_page (url host path : string) : Page :=
  mkPage url (mkURL host path) 0 None "" JS.Undefined.

(** Hosts with a robots.txt that closes [/private], with one that says
    [Disallow: /], with none, and a host that is down. *)
Definition shops : list Page :=
  [ text_page "https://shop.example/robots.txt" "https://shop.example" "/robots.txt"
      (join_lines ["# policy"; "User-agent: *"; "Disallow: /private"; "";
                   "User-agent: OtherBot"; "Disallow: /public"]);
    text_page "https://shop.example/private/x" "https://shop.example" "/private/x"
      "<html>x</html>";
    text_page "https://shop.example/public" "https://shop.example" "/public"
      "<html>public</html>";
    text_page "https://closed.example/robots.txt" "https://closed.example" "/robots.txt"
      (join_lines ["User-agent: *"; "Disallow: /"]);
    text_page "https://closed.example/page" "https://closed.example" "/page"
      "<html>page</html>";
    missing_page "https://open.example/robots.txt" "https://open.example" "/robots.txt";
    text_page "https://open.example/page" "https://open.example" "/page"
      "<html>open</html>";
    missing_page "https://open.example/gone" "https://open.example" "/gone";
    down_page "https://down.example/robots.txt" "https://down.example" "/robots.txt";
    down_page "https://down.example/page" "https://down.example" "/page" ].

(** An index of an index of a urlset. *)
Definition top_xml : string := index_xml ["https://n.example/mid.xml"].
Definition mid_xml : string := index_xml ["https://n.example/leaf.xml"].
Definition leaf_xml : string := urlset_xml ["https://n.example/page"].

Definition nested : list Page :=
  [ plain_page "https://n.example/top.xml" "https://n.example" "/top.xml"
      top_xml (index_doc ["https://n.example/mid.xml"]);
    plain_page "https://n.example/mid.xml" "https://n.example" "/mid.xml"
      mid_xml (index_doc ["https://n.example/leaf.xml"]);
    plain_page "https://n.example/leaf.xml" "https://n.example" "/leaf.xml"
      leaf_xml (urlset_doc ["https://n.example/page"]) ].

Definition bot : string := "MegabyteLabsBot/1.0".

End Fixture.

Module Samples.

(** An index document with a comment that mentions the urlset element. *)
Definition commented_index_xml : string :=
  "<!-- not a <urlset> -->" ++ Fixture.index_xml Fixture.children_a.

Definition commented : list Fixture.Page :=
  Fixture.plain_page "https://c.example/sitemap.xml" "https://c.example"
    "/sitemap.xml" commented_index_xml (Fixture.index_doc Fixture.children_a)
  :: Fixture.site.

(** A host whose robots.txt cannot be fetched while its pages can. *)
Definition flaky : list Fixture.Page :=
  [ Fixture.down_page "https://flaky.example/robots.txt" "https://flaky.example"
      "/robots.txt";
    Fixture.text_page "https://flaky.example/page" "https://flaky.example" "/page"
      "<html>page</html>" ].

End Samples.


(** * Properties *)

(** ** SitemapSource.fetchText *)

Lemma string_eqb_eq (a b : string) : JS.eqb a b = true <-> a = b.
Proof.
  revert b. induction a as [|x a IH]; intros [|y b]; cbn [JS.eqb]; try done.
  rewrite andb_true_iff, N.eqb_eq, IH. split; [by intros [-> ->] | by intros [= -> ->]].
Qed.

Lemma string_eqb_refl (a : string) : JS.eqb a a = true.
Proof. by apply string_eqb_eq. Qed.

Lemma string_eqb_neq (a b : string) : JS.eqb a b = false <-> a <> b.
Proof.
  rewrite <- string_eqb_eq. destruct (JS.eqb a b); split; congruence.
Qed.

Lemma string_eqb_spec (a b : string) : reflect (a = b) (JS.eqb a b).
Proof.
  destruct (JS.eqb a b) eqn:H; constructor.
  - by apply string_eqb_eq.
  - by apply string_eqb_neq.
Qed.

Lemma gz_at_end_spec (s : string) :
  SitemapSource.gz_at_end s = true <->
  exists g z, s = "." ++ g ++ z /\ (g = "g" \/ g = "G") /\ (z = "z" \/ z = "Z").
Proof.
  split.
  - destruct s as [|a [|b [|c [|? ?]]]]; cbn [SitemapSource.gz_at_end];
      try discriminate.
    intros H. apply andb_true_iff in H as [H Hz]. apply andb_true_iff in H as [Ha Hg].
    apply N.eqb_eq in Ha. subst a. exists [b], [c]. split; [done|].
    apply orb_true_iff in Hg, Hz. rewrite !N.eqb_eq in Hg, Hz. split.
    + destruct Hg as [-> | ->]; [by left | by right].
    + destruct Hz as [-> | ->]; [by left | by right].
  - intros (g & z & -> & [-> | ->] & [-> | ->]); reflexivity.
Qed.

Lemma test_gz_spec (path : string) :
  SitemapSource.test_gz path = true <-> ends_with_gz path.
Proof.
  unfold ends_with_gz. induction path as [|c r IH].
  - split; [discriminate|]. intros (pre & g & z & H & _). by destruct pre.
  - change (SitemapSource.test_gz (c :: r))
      with (SitemapSource.gz_at_end (c :: r) || SitemapSource.test_gz r).
    rewrite orb_true_iff. split.
    + intros [H | H].
      * apply gz_at_end_spec in H as (g & z & H & Hg & Hz).
        exists [], g, z. done.
      * apply IH in H as (pre & g & z & -> & Hg & Hz).
        exists (c :: pre), g, z. done.
    + intros (pre & g & z & H & Hg & Hz). destruct pre as [|d pre]; simpl in H.
      * left. apply gz_at_end_spec. exists g, z. done.
      * right. injection H as -> ->. apply IH. exists pre, g, z. done.
Qed.

(** C8: once the response is successful, [fetchText] gunzips the body
    exactly when the path of the URL ends in [.gz] in either letter case:
    then a response without a body gives the empty string and a body is
    gunzipped before decoding, and otherwise the response is decoded as
    text as it is. *)
Theorem fetchText_gzip_by_suffix (pf : Platform) (userAgent url : string)
        (res : Response) (u : URL) :
  fetch pf url (sitemap_headers userAgent) = Ok res ->
  Response_ok res = true ->
  new_URL pf url = Ok u ->
  (ends_with_gz (pathname u) ->
   SitemapSource.fetchText pf userAgent url =
     match body res with
     | None => Ok ""
     | Some b => gunzip_text pf b
     end)
  /\ (~ ends_with_gz (pathname u) ->
      SitemapSource.fetchText pf userAgent url = Response_text pf res).
Proof.
  intros Hfetch Hok Hurl. unfold SitemapSource.fetchText, sitemap_headers in *.
  rewrite Hfetch. simpl. rewrite Hok. simpl. rewrite Hurl. simpl.
  split; intros Hgz.
  - apply test_gz_spec in Hgz. by rewrite Hgz.
  - destruct (SitemapSource.test_gz (pathname u)) eqn:Ht; [|done].
    apply test_gz_spec in Ht. contradiction.
Qed.

Lemma fetchText_gzip_by_suffix_witness :
  SitemapSource.fetchText (Fixture.platform Fixture.site) Fixture.bot
    "https://a.example/s2.xml.GZ" = Ok (Fixture.urlset_xml Fixture.pages_s2)
  /\ SitemapSource.fetchText (Fixture.platform Fixture.site) Fixture.bot
       "https://a.example/empty.gz" = Ok "".
Proof.
  split.
  - destruct (fetchText_gzip_by_suffix (Fixture.platform Fixture.site) Fixture.bot
                "https://a.example/s2.xml.GZ"
                (mkResponse 200
                   (Some (Fixture.toy_gzip (Fixture.urlset_xml Fixture.pages_s2))))
                (mkURL "https://a.example" "/s2.xml.GZ")) as [H _];
      [reflexivity | reflexivity | reflexivity |].
    rewrite H; [reflexivity|].
    exists "/s2.xml", "G", "Z". split; [reflexivity|]. split; by right.
  - destruct (fetchText_gzip_by_suffix (Fixture.platform Fixture.site) Fixture.bot
                "https://a.example/empty.gz" (mkResponse 200 None)
                (mkURL "https://a.example" "/empty.gz")) as [H _];
      [reflexivity | reflexivity | reflexivity |].
    rewrite H; [reflexivity|].
    exists "/empty", "g", "z". split; [reflexivity|]. split; by left.
Defined.

(** ** Sitemap resolution *)

Section IndexLoop.
Context (pf : Platform) (userAgent : string).

Lemma loop_ext (child1 child2 : string -> Fueled (list JS.Val)) l acc :
  (forall loc, child1 loc = child2 loc) ->
  IndexParser.loop child1 l acc = IndexParser.loop child2 l acc.
Proof.
  intros Hext. revert acc. induction l as [|entry l IH]; intros acc; simpl; [done|].
  destruct (negb _); [apply IH|]. rewrite Hext.
  destruct (child2 _) as [[us|e]|]; [apply IH | reflexivity | reflexivity].
Qed.

(** One level of [IndexParser.extractUrls]: each child goes through
    [resolve] with the remaining fuel. *)
Lemma extractUrls_index_S fuel xml :
  IndexParser.extractUrls pf userAgent (S fuel) xml =
  match XMLParser_parse pf xml with
  | Throw e => Some (Throw e)
  | Ok doc =>
      if negb (JS.truthy (JS.get (JS.get doc "sitemapindex") "sitemap"))
      then Some (Ok [])
      else IndexParser.loop (resolve pf userAgent fuel) (index_entries doc) []
  end.
Proof.
  simpl. destruct (XMLParser_parse pf xml) as [doc|e]; [|done].
  destruct (negb _); [done|]. apply loop_ext. intros loc. unfold resolve.
  destruct (SitemapSource.fetchText pf userAgent loc) as [childXml|e]; [|done].
  destruct (SitemapParserFactory.from pf childXml) as [[|]|e]; done.
Qed.

Lemma loop_app child l1 l2 acc :
  IndexParser.loop child (l1 ++ l2) acc =
  match IndexParser.loop child l1 acc with
  | Some (Ok acc') => IndexParser.loop child l2 acc'
  | other => other
  end.
Proof.
  revert acc. induction l1 as [|entry l1 IH]; intros acc; simpl; [done|].
  destruct (negb _); [apply IH|].
  destruct (child _) as [[us|e]|]; [apply IH | reflexivity | reflexivity].
Qed.

(** The loop appends the URLs of the children that have a location, in
    the order of the entries. *)
Lemma loop_concat child l acc uss :
  Forall2 (fun entry us => child (child_url entry) = Some (Ok us))
          (List.filter has_loc l) uss ->
  IndexParser.loop child l acc = Some (Ok (acc ++ concat uss)).
Proof.
  revert acc uss. induction l as [|entry l IH]; intros acc uss H; simpl in *.
  - inversion H; subst. simpl. by rewrite app_nil_r.
  - fold (has_loc entry). destruct (has_loc entry) eqn:Hloc; simpl.
    + inversion H as [|? us ? uss' Hchild Hrest]; subst.
      unfold child_url in Hchild. rewrite Hchild.
      rewrite (IH _ uss' Hrest). simpl. by rewrite app_assoc.
    + by apply IH.
Qed.

Lemma loop_throw child before entry after acc acc' e :
  IndexParser.loop child before acc = Some (Ok acc') ->
  has_loc entry = true ->
  child (child_url entry) = Some (Throw e) ->
  IndexParser.loop child (before ++ entry :: after) acc = Some (Throw e).
Proof.
  intros Hbefore Hloc Hchild. rewrite loop_app, Hbefore. simpl.
  fold (has_loc entry). rewrite Hloc. simpl.
  unfold child_url in Hchild. by rewrite Hchild.
Qed.

Lemma loop_total child l acc :
  (forall entry, entry ∈ l -> has_loc entry = true ->
                 exists r, child (child_url entry) = Some r) ->
  exists r, IndexParser.loop child l acc = Some r.
Proof.
  revert acc. induction l as [|entry l IH]; intros acc H; simpl; [eauto|].
  assert (Hl : forall entry0, entry0 ∈ l -> has_loc entry0 = true ->
                              exists r, child (child_url entry0) = Some r).
  { intros entry0 Hin. apply H. by right. }
  fold (has_loc entry). destruct (has_loc entry) eqn:Hloc; simpl; [|by apply IH].
  destruct (H entry) as [[us|e] Hr]; [by left | done | |];
    unfold child_url in Hr; rewrite Hr; [by apply IH | eauto].
Qed.

End IndexLoop.



(** C7: [fetchText] throws an error naming the URL and the status on a
    response that is not 2xx, and rethrows a network error; a failed fetch
    of the sitemap aborts the resolution, and a failure in one child, at
    its fetch or anywhere below it, aborts the resolution of the whole
    index, whatever the earlier children gave and whatever the later ones
    would give. *)
Theorem sitemap_fetch_failure_is_fatal (pf : Platform) (userAgent : string) :
  (forall url res,
      fetch pf url (sitemap_headers userAgent) = Ok res ->
      Response_ok res = false ->
      SitemapSource.fetchText pf userAgent url =
        Throw (Error ("Failed to fetch sitemap: " ++ url ++ " ("
                      ++ JS.Z_to_string (status res) ++ ")")))
  /\ (forall url e,
         fetch pf url (sitemap_headers userAgent) = Throw e ->
         SitemapSource.fetchText pf userAgent url = Throw e)
  /\ (forall fuel url e,
         SitemapSource.fetchText pf userAgent url = Throw e ->
         resolve pf userAgent fuel url = Some (Throw e))
  /\ (forall fuel xml doc before entry after acc e,
         XMLParser_parse pf xml = Ok doc ->
         JS.truthy (JS.get (JS.get doc "sitemapindex") "sitemap") = true ->
         index_entries doc = before ++ entry :: after ->
         IndexParser.loop (resolve pf userAgent fuel) before [] = Some (Ok acc) ->
         has_loc entry = true ->
         resolve pf userAgent fuel (child_url entry) = Some (Throw e) ->
         IndexParser.extractUrls pf userAgent (S fuel) xml = Some (Throw e)).
Proof.
  repeat split.
  - intros url res Hfetch Hok. unfold SitemapSource.fetchText, sitemap_headers in *.
    rewrite Hfetch. simpl. by rewrite Hok.
  - intros url e Hfetch. unfold SitemapSource.fetchText, sitemap_headers in *.
    by rewrite Hfetch.
  - intros fuel url e Hfetch. unfold resolve. by rewrite Hfetch.
  - intros fuel xml doc before entry after acc e Hparse Htruthy Hsplit Hbefore Hloc Hchild.
    rewrite extractUrls_index_S, Hparse, Htruthy, Hsplit. simpl.
    by apply (loop_throw _ before entry after [] acc e Hbefore Hloc).
Qed.

Lemma sitemap_fetch_failure_is_fatal_witness :
  IndexParser.extractUrls (Fixture.platform Fixture.site) Fixture.bot 1
    (Fixture.index_xml Fixture.children_b)
  = Some (Throw (Error "Failed to fetch sitemap: https://b.example/missing.xml (404)")).
Proof.
  destruct (sitemap_fetch_failure_is_fatal (Fixture.platform Fixture.site) Fixture.bot)
    as (Hstatus & _ & Hresolve & Hindex).
  apply (Hindex 0 (Fixture.index_xml Fixture.children_b)
           (Fixture.index_doc Fixture.children_b)
           [Fixture.loc_entry "https://a.example/s1.xml"]
           (Fixture.loc_entry "https://b.example/missing.xml")
           [Fixture.loc_entry "https://a.example/s2.xml.GZ"]
           [JS.Str "https://a.example/p1"; JS.Str "https://a.example/p2"]);
    [reflexivity | reflexivity | reflexivity | reflexivity | reflexivity |].
  apply Hresolve.
  apply (Hstatus "https://b.example/missing.xml" (mkResponse 404 None));
    reflexivity.
Defined.

(** *** Termination of index resolution *)

Lemma loop_site_resolve fuel :
  resolve (Fixture.platform Fixture.site) Fixture.bot fuel
          Fixture.loop_url
  = IndexParser.extractUrls (Fixture.platform Fixture.site) Fixture.bot fuel
      (Fixture.index_xml [Fixture.loop_url]).
Proof. reflexivity. Qed.

Lemma loop_site_out_of_fuel fuel :
  IndexParser.extractUrls (Fixture.platform Fixture.site) Fixture.bot fuel
    (Fixture.index_xml [Fixture.loop_url]) = None.
Proof.
  induction fuel as [|fuel IH]; [reflexivity|].
  rewrite extractUrls_index_S.
  change (IndexParser.loop
            (resolve (Fixture.platform Fixture.site) Fixture.bot fuel)
            [Fixture.loc_entry Fixture.loop_url] [] = None).
  cbn [IndexParser.loop].
  change (JS.truthy (JS.get (Fixture.loc_entry Fixture.loop_url) "loc"))
    with true.
  change (JS.ToString (JS.get (Fixture.loc_entry Fixture.loop_url) "loc"))
    with Fixture.loop_url.
  cbn [negb]. by rewrite loop_site_resolve, IH.
Qed.

(** C1, as stated, fails: on an index that lists itself the resolution
    ends for no amount of fuel. *)
Lemma self_referencing_index_never_resolves :
  ~ exists fuel r,
      resolve (Fixture.platform Fixture.site) Fixture.bot fuel
              Fixture.loop_url = Some r.
Proof.
  intros (fuel & r & H). by rewrite loop_site_resolve, loop_site_out_of_fuel in H.
Qed.

Section Nesting.
Context (pf : Platform) (userAgent : string).

Lemma loop_mono (child1 child2 : string -> Fueled (list JS.Val)) l acc r :
  (forall loc r', child1 loc = Some r' -> child2 loc = Some r') ->
  IndexParser.loop child1 l acc = Some r -> IndexParser.loop child2 l acc = Some r.
Proof.
  intros Hmono. revert acc. induction l as [|entry l IH]; intros acc; simpl; [done|].
  destruct (negb _); [apply IH|].
  destruct (child1 _) as [[us|e]|] eqn:Hc; [| |done].
  - rewrite (Hmono _ _ Hc). apply IH.
  - by rewrite (Hmono _ _ Hc).
Qed.

(** More fuel changes no result. *)
Lemma extractUrls_mono fuel fuel' xml r :
  IndexParser.extractUrls pf userAgent fuel xml = Some r -> fuel <= fuel' ->
  IndexParser.extractUrls pf userAgent fuel' xml = Some r.
Proof.
  revert fuel' xml r. induction fuel as [|fuel IH]; intros fuel' xml r H Hle; [done|].
  destruct fuel' as [|fuel']; [lia|].
  rewrite extractUrls_index_S in H |- *.
  destruct (XMLParser_parse pf xml) as [doc|e]; [|done].
  destruct (negb _); [done|].
  apply (loop_mono (resolve pf userAgent fuel)); [|done].
  intros loc r'. unfold resolve.
  destruct (SitemapSource.fetchText pf userAgent loc) as [childXml|e]; [|done].
  destruct (SitemapParserFactory.from pf childXml) as [[|]|e]; cbn [extractUrls];
    [done | | done].
  intros Hchild. apply IH; [done | lia].
Qed.

Lemma resolve_mono fuel fuel' url r :
  resolve pf userAgent fuel url = Some r -> fuel <= fuel' ->
  resolve pf userAgent fuel' url = Some r.
Proof.
  unfold resolve.
  destruct (SitemapSource.fetchText pf userAgent url) as [xml|e]; [|done].
  destruct (SitemapParserFactory.from pf xml) as [[|]|e]; cbn [extractUrls];
    [done | apply extractUrls_mono | done].
Qed.

(** The loop gets to an entry when the entries before it gave no error. *)
Lemma loop_reaches (child : string -> Fueled (list JS.Val)) before entry after acc r :
  IndexParser.loop child (before ++ entry :: after) acc = Some r ->
  (forall e r', e ∈ before -> has_loc e = true -> child (child_url e) = Some r' ->
                exists us, r' = Ok us) ->
  has_loc entry = true ->
  exists r', child (child_url entry) = Some r'.
Proof.
  revert acc. induction before as [|e before IH]; intros acc H Hbefore Hloc.
  - cbn [app IndexParser.loop] in H. fold (has_loc entry) in H. rewrite Hloc in H.
    cbn [negb] in H. fold (child_url entry) in H.
    destruct (child (child_url entry)) as [r'|]; [eauto | done].
  - assert (Hrest : forall e0 r', e0 ∈ before -> has_loc e0 = true ->
                                  child (child_url e0) = Some r' -> exists us, r' = Ok us).
    { intros e0 r' Hin. apply Hbefore. by right. }
    change ((e :: before) ++ entry :: after) with (e :: (before ++ entry :: after)) in H.
    cbn [IndexParser.loop] in H. fold (has_loc e) in H.
    destruct (has_loc e) eqn:He; cbn [negb] in H; [|by eapply IH].
    fold (child_url e) in H.
    destruct (child (child_url e)) as [r'|] eqn:Hc; [|done].
    destruct (Hbefore e r') as [us ->]; [by left | done | done |].
    by eapply IH.
Qed.

(** The entries from some point on are worked off, given fuel, when those
    before gave no error and every index document the loop goes into is
    resolved with some fuel. *)
Lemma loop_ends xml doc :
  XMLParser_parse pf xml = Ok doc ->
  JS.truthy (JS.get (JS.get doc "sitemapindex") "sitemap") = true ->
  (forall child, nested_in pf userAgent child xml ->
                 exists fuel r, IndexParser.extractUrls pf userAgent fuel child = Some r) ->
  forall rest before acc,
    index_entries doc = before ++ rest ->
    (forall e, e ∈ before -> has_loc e = true ->
               exists fuel us, resolve pf userAgent fuel (child_url e) = Some (Ok us)) ->
    exists fuel r, IndexParser.loop (resolve pf userAgent fuel) rest acc = Some r.
Proof.
  intros Hparse Htruthy Hchildren.
  induction rest as [|entry rest IH]; intros before acc Hsplit Hbefore.
  - by exists 0, (Ok acc).
  - assert (Hsplit' : index_entries doc = (before ++ [entry]) ++ rest).
    { by rewrite <- app_assoc. }
    assert (Hnext : forall us,
               (has_loc entry = true ->
                exists fuel, resolve pf userAgent fuel (child_url entry) = Some (Ok us)) ->
               forall e, e ∈ before ++ [entry] -> has_loc e = true ->
                         exists fuel us', resolve pf userAgent fuel (child_url e)
                                          = Some (Ok us')).
    { intros us Hentry e Hin He. apply elem_of_app in Hin as [Hin | Hin].
      - by apply Hbefore.
      - apply list_elem_of_singleton in Hin. subst e.
        destruct (Hentry He) as [fuel Hfuel]. eauto. }
    cbn [IndexParser.loop]. fold (has_loc entry) (child_url entry).
    destruct (has_loc entry) eqn:Hloc; cbn [negb].
    2:{ apply (IH (before ++ [entry]) acc Hsplit'). apply (Hnext []). done. }
    (* what the child gives, with enough fuel *)
    assert (Hchild : (exists e, forall fuel,
                         resolve pf userAgent fuel (child_url entry) = Some (Throw e))
                     \/ (exists fuel us,
                            resolve pf userAgent fuel (child_url entry) = Some (Ok us))
                     \/ exists fuel e,
                         resolve pf userAgent fuel (child_url entry) = Some (Throw e)).
    { unfold resolve.
      destruct (SitemapSource.fetchText pf userAgent (child_url entry))
        as [child|e] eqn:Hfetch; [|left; by exists e].
      destruct (SitemapParserFactory.from pf child) as [[|]|e] eqn:Hfrom;
        cbn [extractUrls]; [| |left; by exists e].
      - destruct (UrlsetParser.extractUrls pf child) as [us|e];
          [right; left; by exists 0, us | left; by exists e].
      - destruct (Hchildren child) as (fuel & [us|e] & Hr).
        { by exists doc, before, entry, rest. }
        + right. left. by exists fuel, us.
        + right. right. by exists fuel, e. }
    destruct Hchild as [[e He] | [(fuel1 & us & Hus) | (fuel1 & e & He)]].
    + exists 0, (Throw e). by rewrite He.
    + destruct (IH (before ++ [entry]) (acc ++ us) Hsplit') as (fuel2 & r & Hr).
      { apply (Hnext us). intros _. by exists fuel1. }
      exists (Nat.max fuel1 fuel2), r.
      rewrite (resolve_mono fuel1 _ _ _ Hus) by lia.
      apply (loop_mono (resolve pf userAgent fuel2)); [|done].
      intros loc r' Hloc'. apply (resolve_mono fuel2); [done | lia].
    + exists fuel1, (Throw e). by rewrite He.
Qed.

Lemma nesting_resolves xml :
  Acc (nested_in pf userAgent) xml ->
  exists fuel r, IndexParser.extractUrls pf userAgent fuel xml = Some r.
Proof.
  induction 1 as [xml _ IH].
  destruct (XMLParser_parse pf xml) as [doc|e] eqn:Hparse.
  2:{ exists 1, (Throw e). by rewrite extractUrls_index_S, Hparse. }
  destruct (JS.truthy (JS.get (JS.get doc "sitemapindex") "sitemap")) eqn:Htruthy.
  2:{ exists 1, (Ok []). by rewrite extractUrls_index_S, Hparse, Htruthy. }
  destruct (loop_ends xml doc Hparse Htruthy IH (index_entries doc) [] [])
    as (fuel & r & Hr); [done | by intros e ?%elem_of_nil |].
  exists (S fuel), r. by rewrite extractUrls_index_S, Hparse, Htruthy.
Qed.

Lemma resolves_nesting fuel xml r :
  IndexParser.extractUrls pf userAgent fuel xml = Some r ->
  Acc (nested_in pf userAgent) xml.
Proof.
  revert xml r. induction fuel as [|fuel IH]; intros xml r H; [done|].
  constructor.
  intros child (doc & before & entry & after & Hparse & Htruthy & Hsplit & Hbefore
                & Hloc & Hfetch & Hfrom).
  rewrite extractUrls_index_S, Hparse, Htruthy, Hsplit in H. cbn [negb] in H.
  destruct (loop_reaches _ _ _ _ _ _ H) as [r' Hr']; [|done|].
  - intros e r' Hin He Hr'. destruct (Hbefore e Hin He) as (fuel' & us & Hus).
    exists us.
    apply (resolve_mono _ (Nat.max fuel fuel')) in Hr'; [|lia].
    apply (resolve_mono _ (Nat.max fuel fuel')) in Hus; [|lia]. congruence.
  - unfold resolve in Hr'. rewrite Hfetch, Hfrom in Hr'. by apply (IH child r').
Qed.

End Nesting.

Lemma split_elem_of {A : Type} (l before : list A) (entry : A) (after : list A) :
  l = before ++ entry :: after -> entry ∈ l.
Proof. intros ->. set_solver. Qed.

Lemma acc_no_cycle {A : Type} (R : A -> A -> Prop) (x : A) :
  Acc R x -> ~ clos_trans A R x x.
Proof.
  intros Hacc. apply Acc_clos_trans in Hacc.
  induction Hacc as [x _ IH]. intros Hx. exact (IH x Hx Hx).
Qed.

(** C1, amended: index resolution keeps no visited set and has no depth
    limit.  The resolution of an index document ends, with a list or a
    thrown error, exactly when the index documents it goes into nest to a
    finite depth: when no endless chain of index documents starts from it,
    each being fetched for an entry of the one before, after the entries
    before that one were resolved without an error.  The same holds for
    the resolution of a URL whose text is an index document.  So the
    resolution never ends for an index document that directly or
    transitively goes into itself.  A resolution that ends with some
    nesting depth allowed ends with the same result with any greater one.
    A child listed twice is fetched and resolved twice and gives its URLs
    twice. *)
Theorem resolution_ends_when_nesting_bounded (pf : Platform) (userAgent : string)
        (xml : string) :
  ((exists fuel r, IndexParser.extractUrls pf userAgent fuel xml = Some r)
   <-> Acc (nested_in pf userAgent) xml)
  /\ (forall url,
         SitemapSource.fetchText pf userAgent url = Ok xml ->
         SitemapParserFactory.from pf xml = Ok IndexStrategy ->
         (exists fuel r, resolve pf userAgent fuel url = Some r)
         <-> Acc (nested_in pf userAgent) xml)
  /\ (clos_trans string (nested_in pf userAgent) xml xml ->
      forall fuel, IndexParser.extractUrls pf userAgent fuel xml = None)
  /\ (forall fuel fuel' r,
         IndexParser.extractUrls pf userAgent fuel xml = Some r -> fuel <= fuel' ->
         IndexParser.extractUrls pf userAgent fuel' xml = Some r)
  /\ (forall doc entry us fuel,
         XMLParser_parse pf xml = Ok doc ->
         JS.truthy (JS.get (JS.get doc "sitemapindex") "sitemap") = true ->
         index_entries doc = [entry; entry] ->
         has_loc entry = true ->
         resolve pf userAgent fuel (child_url entry) = Some (Ok us) ->
         IndexParser.extractUrls pf userAgent (S fuel) xml = Some (Ok (us ++ us))).
Proof.
  assert (Hiff : (exists fuel r, IndexParser.extractUrls pf userAgent fuel xml = Some r)
                 <-> Acc (nested_in pf userAgent) xml).
  { split.
    - intros (fuel & r & H). by apply (resolves_nesting pf userAgent fuel xml r).
    - apply nesting_resolves. }
  split; [exact Hiff|]. split; [|split; [|split]].
  - intros url Hfetch Hfrom. rewrite <- Hiff. unfold resolve.
    rewrite Hfetch, Hfrom. done.
  - intros Hcycle fuel.
    destruct (IndexParser.extractUrls pf userAgent fuel xml) as [r|] eqn:H; [|done].
    exfalso. apply (acc_no_cycle (nested_in pf userAgent) xml); [|done].
    by apply (resolves_nesting pf userAgent fuel xml r).
  - intros fuel fuel' r. apply extractUrls_mono.
  - intros doc entry us fuel Hparse Htruthy Hentries Hloc Hchild.
    rewrite extractUrls_index_S, Hparse, Htruthy, Hentries. cbn [negb].
    rewrite (loop_concat _ _ [] [us; us]); simpl.
    + by rewrite app_nil_r.
    + fold (has_loc entry). rewrite Hloc. by repeat constructor.
Qed.

Lemma resolution_ends_when_nesting_bounded_witness :
  (exists fuel r,
      IndexParser.extractUrls (Fixture.platform Fixture.site) Fixture.bot fuel
        (Fixture.index_xml Fixture.children_a) = Some r)
  /\ exists fuel r,
      IndexParser.extractUrls (Fixture.platform Fixture.nested) Fixture.bot fuel
        Fixture.top_xml = Some r.
Proof.
  split.
  - apply (resolution_ends_when_nesting_bounded (Fixture.platform Fixture.site)
             Fixture.bot (Fixture.index_xml Fixture.children_a)).
    constructor.
    intros child (doc & before & entry & after & Hparse & _ & Hsplit & _ & _
                  & Hfetch & Hfrom).
    vm_compute in Hparse. inversion Hparse; subst doc; clear Hparse.
    apply split_elem_of in Hsplit. vm_compute in Hsplit.
    apply elem_of_cons in Hsplit as [-> | Hsplit];
      [|apply list_elem_of_singleton in Hsplit; subst entry];
      vm_compute in Hfetch; inversion Hfetch; subst child;
      vm_compute in Hfrom; discriminate Hfrom.
  - apply (resolution_ends_when_nesting_bounded (Fixture.platform Fixture.nested)
             Fixture.bot Fixture.top_xml).
    constructor.
    intros mid (doc & before & entry & after & Hparse & _ & Hsplit & _ & _
                & Hfetch & Hfrom).
    vm_compute in Hparse. inversion Hparse; subst doc; clear Hparse.
    apply split_elem_of in Hsplit. vm_compute in Hsplit.
    apply list_elem_of_singleton in Hsplit. subst entry.
    vm_compute in Hfetch. inversion Hfetch; subst mid.
    clear Hfetch Hfrom before after. constructor.
    intros leaf (doc & before & entry & after & Hparse & _ & Hsplit & _ & _
                 & Hfetch & Hfrom).
    vm_compute in Hparse. inversion Hparse; subst doc; clear Hparse.
    apply split_elem_of in Hsplit. vm_compute in Hsplit.
    apply list_elem_of_singleton in Hsplit. subst entry.
    vm_compute in Hfetch. inversion Hfetch; subst leaf.
    vm_compute in Hfrom. discriminate Hfrom.
Defined.

(** ** allowedByRobots *)

Section Robots.
Context (pf : Platform) (userAgent : string).

Lemma startsWith_spec path rule :
  JS.startsWith path rule = true <-> starts_with path rule.
Proof.
  unfold starts_with. revert path.
  induction rule as [|c rule IH]; intros path.
  - split; [intros _; by exists path | done].
  - destruct path as [|d path]; cbn [JS.startsWith].
    + split; [discriminate | intros [rest H]; discriminate].
    + rewrite andb_true_iff, N.eqb_eq, IH. split.
      * intros [-> [rest ->]]. by exists rest.
      * intros [rest [= -> ->]]. split; [done | by exists rest].
Qed.

Lemma robots_line_directive inStar disallows line :
  robots_line pf userAgent (inStar, disallows) line =
  match directive pf line with
  | None => (inStar, disallows)
  | Some (k, v) =>
      if JS.eqb k "user-agent" then (applies_to pf userAgent v, disallows)
      else if inStar && JS.eqb k "disallow" then
        if negb (JS.eqb v "") then (inStar, disallows ++ [v])
        else (inStar, disallows)
      else (inStar, disallows)
  end.
Proof.
  unfold robots_line, directive.
  destruct (JS.eqb line "" || JS.startsWith line "#"); [done|].
  destruct (JS.indexOf line ":"); done.
Qed.

Lemma snoc_split {A} (pre : list A) (x : A) l1 y l2 :
  pre ++ [x] = l1 ++ y :: l2 ->
  (l2 = [] /\ l1 = pre /\ y = x)
  \/ (exists l2', l2 = l2' ++ [x] /\ pre = l1 ++ y :: l2').
Proof.
  induction l2 as [|z l2 _] using rev_ind; intros H.
  - left. apply (app_inj_tail pre l1 x y) in H. destruct H as [-> ->]. auto.
  - right. exists l2.
    change (l1 ++ y :: l2 ++ [z]) with (l1 ++ (y :: l2) ++ [z]) in H.
    rewrite app_assoc in H.
    apply (app_inj_tail pre (l1 ++ y :: l2) x z) in H. destruct H as [-> ->]. auto.
Qed.

Lemma block_active_snoc_other pre line :
  ~ is_user_agent_line pf line ->
  block_active pf userAgent (pre ++ [line]) <-> block_active pf userAgent pre.
Proof.
  intros Hnot. split.
  - intros (l1 & l & v & l2 & Hsplit & Hdir & Happ & Hrest).
    apply snoc_split in Hsplit as [(-> & -> & ->) | (l2' & -> & ->)].
    + exfalso. apply Hnot. by exists v.
    + exists l1, l, v, l2'. apply Forall_app in Hrest as [Hrest _]. done.
  - intros (l1 & l & v & l2 & -> & Hdir & Happ & Hrest).
    exists l1, l, v, (l2 ++ [line]). rewrite <- app_assoc. repeat split; try done.
    apply Forall_app. split; [done|]. by constructor.
Qed.

Lemma block_active_snoc_user_agent pre line v :
  directive pf line = Some ("user-agent", v) ->
  block_active pf userAgent (pre ++ [line]) <-> applies_to pf userAgent v = true.
Proof.
  intros Hdir. split.
  - intros (l1 & l & v' & l2 & Hsplit & Hdir' & Happ & Hrest).
    apply snoc_split in Hsplit as [(-> & -> & ->) | (l2' & -> & ->)].
    + congruence.
    + apply Forall_app in Hrest as [_ Hrest]. inversion Hrest as [|? ? Hline _]; subst.
      exfalso. apply Hline. by exists v.
  - intros Happ. exists pre, line, v, []. repeat split; try done.
Qed.

Lemma collected_snoc pre line rule :
  collected pf userAgent (pre ++ [line]) rule <->
  collected pf userAgent pre rule
  \/ (block_active pf userAgent pre
      /\ directive pf line = Some ("disallow", rule) /\ rule <> "").
Proof.
  split.
  - intros (p & l & post & Hsplit & Hact & Hdir & Hne).
    apply snoc_split in Hsplit as [(-> & -> & ->) | (post' & -> & ->)].
    + by right.
    + left. by exists p, l, post'.
  - intros [(p & l & post & -> & Hact & Hdir & Hne) | (Hact & Hdir & Hne)].
    + exists p, l, (post ++ [line]). rewrite <- app_assoc. done.
    + by exists pre, line, [].
Qed.

(** What the loop has in [inStar] and [disallows] after the lines. *)
Lemma robots_loop_spec lines :
  let st := fold_left (robots_line pf userAgent) lines (false, []) in
  (fst st = true <-> block_active pf userAgent lines)
  /\ (forall rule, In rule (snd st) <-> collected pf userAgent lines rule).
Proof.
  induction lines as [|line pre IH] using rev_ind; simpl.
  - split.
    + split; [discriminate|]. intros (l1 & l & v & l2 & H & _). by destruct l1.
    + intros rule. split; [done|]. intros (p & l & post & H & _). by destruct p.
  - rewrite fold_left_app. simpl in *.
    destruct (fold_left (robots_line pf userAgent) pre (false, []))
      as [inStar disallows]. simpl in IH. destruct IH as [IHstar IHrules].
    rewrite robots_line_directive.
    destruct (directive pf line) as [[k v]|] eqn:Hdir.
    + destruct (JS.eqb k "user-agent") eqn:Hk.
      * apply string_eqb_eq in Hk. subst k. simpl. split.
        -- symmetry. by apply block_active_snoc_user_agent.
        -- intros rule. rewrite collected_snoc, IHrules. split; [by left|].
           intros [H | (_ & H & _)]; [done | congruence].
      * assert (Hnot : ~ is_user_agent_line pf line).
        { intros [v' Hv']. rewrite Hdir in Hv'. injection Hv' as -> _.
          by rewrite string_eqb_refl in Hk. }
        destruct (inStar && JS.eqb k "disallow") eqn:Hcond.
        -- apply andb_true_iff in Hcond as [-> Hd]. apply string_eqb_eq in Hd.
           subst k. destruct (JS.eqb v "") eqn:Hv; simpl.
           ++ apply string_eqb_eq in Hv. subst v. split.
              ** rewrite block_active_snoc_other by done. done.
              ** intros rule. rewrite collected_snoc, IHrules. split; [by left|].
                 intros [H | (_ & H & Hne)]; [done | congruence].
           ++ apply string_eqb_neq in Hv. split.
              ** rewrite block_active_snoc_other by done. done.
              ** intros rule. rewrite collected_snoc, in_app_iff, IHrules.
                 simpl. split.
                 --- intros [H | [<- | []]]; [by left | right].
                     split; [by apply IHstar | done].
                 --- intros [H | (_ & H & _)]; [by left | right; left; congruence].
        -- simpl. split.
           ++ rewrite block_active_snoc_other by done. done.
           ++ intros rule. rewrite collected_snoc, IHrules. split; [by left|].
              intros [H | (Hact & H & Hne)]; [done|]. exfalso.
              apply IHstar in Hact. simpl in Hact. subst inStar.
              rewrite Hdir in H. injection H as -> ->.
              by rewrite string_eqb_refl in Hcond.
    + assert (Hnot : ~ is_user_agent_line pf line).
      { intros [v' Hv']. congruence. }
      simpl. split.
      * rewrite block_active_snoc_other by done. done.
      * intros rule. rewrite collected_snoc, IHrules. split; [by left|].
        intros [H | (_ & H & _)]; [done | congruence].
Qed.

Lemma robots_disallows_spec text rule :
  In rule (robots_disallows pf userAgent text)
  <-> collected pf userAgent (robots_lines text) rule.
Proof. apply (robots_loop_spec (robots_lines text)). Qed.

Lemma robots_verdict_false disallows path :
  robots_verdict disallows path = false <->
  exists rule, In rule disallows /\ rule <> "/" /\ starts_with path rule.
Proof.
  unfold robots_verdict. rewrite negb_false_iff, existsb_exists.
  split; intros (rule & Hin & H); exists rule; (split; [done|]).
  - apply andb_true_iff in H as [Hne Hpre]. apply negb_true_iff in Hne.
    apply string_eqb_neq in Hne. by apply startsWith_spec in Hpre.
  - destruct H as [Hne Hpre]. apply andb_true_iff. split.
    + apply negb_true_iff. by apply string_eqb_neq.
    + by apply startsWith_spec.
Qed.

End Robots.

(** The four ways [allowedByRobots] ends. *)
Lemma allowedByRobots_run (pf : Platform) (url userAgent : string) (log : list Request) :
  allowedByRobots pf url userAgent log =
  match new_URL pf url with
  | Throw _ => (Ok true, log)
  | Ok u =>
      let robotsUrl := origin u ++ "/robots.txt" in
      let log' := log ++ [(robotsUrl, robots_headers userAgent)] in
      match fetch pf robotsUrl (robots_headers userAgent) with
      | Throw _ => (Ok true, log')
      | Ok res =>
          if Response_ok res then
            match Response_text pf res with
            | Throw _ => (Ok true, log')
            | Ok text =>
                (Ok (robots_verdict (robots_disallows pf userAgent text) (pathname u)),
                 log')
            end
          else (Ok true, log')
      end
  end.
Proof.
  unfold allowedByRobots, try_catch, mbind, Eff_bind, lift, net_fetch, robots_headers.
  destruct (new_URL pf url) as [u|e]; [|done]. simpl.
  destruct (fetch pf _ _) as [res|e]; [|done].
  destruct (Response_ok res); simpl; [|done].
  destruct (Response_text pf res) as [text|e]; done.
Qed.

(** C5: [allowedByRobots] always returns a boolean.  It returns [false]
    exactly when robots.txt was fetched with a 2xx status and the path of
    the URL starts with a [Disallow] value other than [/] that was
    collected while a block for the agent (wildcard, or a name that is
    the agent's once both are put in lower case) was active.  It returns
    [true] when the URL does not parse, the fetch throws, the status is
    not 2xx, the body cannot be read, no [User-agent] line selects the
    agent, or the only collected rule is [/]. *)
Theorem allowedByRobots_verdict (pf : Platform) (url userAgent : string)
        (log : list Request) :
  (exists b, fst (allowedByRobots pf url userAgent log) = Ok b)
  /\ (fst (allowedByRobots pf url userAgent log) = Ok false <->
      exists u res text rule,
        new_URL pf url = Ok u
        /\ fetch pf (origin u ++ "/robots.txt") (robots_headers userAgent) = Ok res
        /\ Response_ok res = true
        /\ Response_text pf res = Ok text
        /\ collected pf userAgent (robots_lines text) rule
        /\ rule <> "/"
        /\ starts_with (pathname u) rule)
  /\ ((forall e, new_URL pf url = Throw e ->
                 fst (allowedByRobots pf url userAgent log) = Ok true)
      /\ (forall u e,
             new_URL pf url = Ok u ->
             fetch pf (origin u ++ "/robots.txt") (robots_headers userAgent) = Throw e ->
             fst (allowedByRobots pf url userAgent log) = Ok true)
      /\ (forall u res,
             new_URL pf url = Ok u ->
             fetch pf (origin u ++ "/robots.txt") (robots_headers userAgent) = Ok res ->
             Response_ok res = false ->
             fst (allowedByRobots pf url userAgent log) = Ok true)
      /\ (forall u res e,
             new_URL pf url = Ok u ->
             fetch pf (origin u ++ "/robots.txt") (robots_headers userAgent) = Ok res ->
             Response_text pf res = Throw e ->
             fst (allowedByRobots pf url userAgent log) = Ok true))
  /\ (forall u res text,
         new_URL pf url = Ok u ->
         fetch pf (origin u ++ "/robots.txt") (robots_headers userAgent) = Ok res ->
         Response_text pf res = Ok text ->
         ((forall line v, line ∈ robots_lines text ->
                          directive pf line = Some ("user-agent", v) ->
                          applies_to pf userAgent v = false)
          \/ (forall rule, collected pf userAgent (robots_lines text) rule -> rule = "/")) ->
         fst (allowedByRobots pf url userAgent log) = Ok true).
Proof.
  rewrite allowedByRobots_run.
  assert (Hfalse :
    fst match new_URL pf url with
        | Throw _ => (Ok true, log)
        | Ok u =>
            let robotsUrl := origin u ++ "/robots.txt" in
            let log' := log ++ [(robotsUrl, robots_headers userAgent)] in
            match fetch pf robotsUrl (robots_headers userAgent) with
            | Throw _ => (Ok true, log')
            | Ok res =>
                if Response_ok res then
                  match Response_text pf res with
                  | Throw _ => (Ok true, log')
                  | Ok text =>
                      (Ok (robots_verdict (robots_disallows pf userAgent text)
                                          (pathname u)), log')
                  end
                else (Ok true, log')
            end
        end = Ok false <->
    exists u res text rule,
      new_URL pf url = Ok u
      /\ fetch pf (origin u ++ "/robots.txt") (robots_headers userAgent) = Ok res
      /\ Response_ok res = true
      /\ Response_text pf res = Ok text
      /\ collected pf userAgent (robots_lines text) rule
      /\ rule <> "/"
      /\ starts_with (pathname u) rule).
  { split.
    - destruct (new_URL pf url) as [u|e]; [|discriminate]. simpl.
      destruct (fetch pf _ _) as [res|e] eqn:Hfetch; [|discriminate].
      destruct (Response_ok res) eqn:Hok; [|discriminate].
      destruct (Response_text pf res) as [text|e] eqn:Htext; [|discriminate].
      simpl. intros H. injection H as H.
      apply robots_verdict_false in H as (rule & Hin & Hne & Hpre).
      apply robots_disallows_spec in Hin. by exists u, res, text, rule.
    - intros (u & res & text & rule & -> & Hfetch & Hok & Htext & Hcol & Hne & Hpre).
      simpl. rewrite Hfetch, Hok, Htext. simpl. f_equal.
      apply robots_verdict_false. exists rule. split; [|done].
      by apply robots_disallows_spec. }
  split; [|split; [exact Hfalse|split]].
  - destruct (new_URL pf url) as [u|e]; [|by exists true]. simpl.
    destruct (fetch pf _ _) as [res|e]; [|by exists true].
    destruct (Response_ok res); [|by exists true].
    destruct (Response_text pf res) as [text|e]; [|by exists true]. simpl. eauto.
  - repeat split.
    + by intros e ->.
    + intros u e -> Hfetch. simpl. by rewrite Hfetch.
    + intros u res -> Hfetch Hok. simpl. by rewrite Hfetch, Hok.
    + intros u res e -> Hfetch Htext. simpl. rewrite Hfetch, Htext.
      by destruct (Response_ok res).
  - intros u res text Hurl Hfetch Htext Hnone.
    rewrite Hurl. simpl. rewrite Hfetch, Htext.
    destruct (Response_ok res); [|done]. simpl. f_equal.
    destruct (robots_verdict _ _) eqn:Hv; [done|]. exfalso.
    apply robots_verdict_false in Hv as (rule & Hin & Hne & Hpre).
    apply robots_disallows_spec in Hin. destruct Hnone as [Hnone | Hroot].
    + destruct Hin as (pre & line & post & Hsplit & Hact & _).
      destruct Hact as (l1 & ual & v & l2 & -> & Hdir & Happ & _).
      rewrite (Hnone ual v) in Happ; [discriminate | | done].
      rewrite Hsplit. apply list_elem_of_In, in_app_iff. left.
      apply in_app_iff. right. by left.
    + by apply Hne, Hroot.
Qed.

Lemma allowedByRobots_verdict_witness :
  fst (allowedByRobots (Fixture.platform Fixture.shops)
         "https://shop.example/private/x" Fixture.bot []) = Ok false
  /\ fst (allowedByRobots (Fixture.platform Fixture.shops)
            "https://closed.example/page" Fixture.bot []) = Ok true.
Proof.
  split.
  - apply (allowedByRobots_verdict (Fixture.platform Fixture.shops)
             "https://shop.example/private/x" Fixture.bot []).
    exists (mkURL "https://shop.example" "/private/x"),
      (mkResponse 200
         (Some (JS.utf8_encode
                  (Fixture.join_lines
                     ["# policy"; "User-agent: *"; "Disallow: /private"; "";
                      "User-agent: OtherBot"; "Disallow: /public"])))),
      (Fixture.join_lines
         ["# policy"; "User-agent: *"; "Disallow: /private"; "";
          "User-agent: OtherBot"; "Disallow: /public"]),
      "/private".
    split; [reflexivity|]. split; [reflexivity|]. split; [reflexivity|].
    split; [vm_compute; reflexivity|]. split; [|split].
    + exists ["# policy"; "User-agent: *"], "Disallow: /private",
        [""; "User-agent: OtherBot"; "Disallow: /public"; ""].
      split; [vm_compute; reflexivity|]. split; [|split].
      * exists ["# policy"], "User-agent: *", "*", [].
        split; [reflexivity|]. split; [vm_compute; reflexivity|].
        split; [reflexivity | constructor].
      * vm_compute; reflexivity.
      * discriminate.
    + discriminate.
    + exists "/x". reflexivity.
  - destruct (allowedByRobots_verdict (Fixture.platform Fixture.shops)
                "https://closed.example/page" Fixture.bot []) as (_ & _ & _ & Hroot).
    apply (Hroot (mkURL "https://closed.example" "/page")
             (mkResponse 200
                (Some (JS.utf8_encode
                         (Fixture.join_lines ["User-agent: *"; "Disallow: /"]))))
             (Fixture.join_lines ["User-agent: *"; "Disallow: /"]));
      [reflexivity | reflexivity | vm_compute; reflexivity |].
    right. intros rule Hrule. apply robots_disallows_spec in Hrule.
    vm_compute in Hrule. destruct Hrule as [<- | []]. reflexivity.
Defined.

(** White space and letters beyond ASCII: a no-break space around a key
    or a value is trimmed, and an agent name with an accented capital is
    selected by its lower-case form. *)
Lemma robots_beyond_ascii :
  robots_disallows (Fixture.platform []) "Bot"
    (Fixture.join_lines ["User-agent: *"; "Disallow:" ++ [160%N] ++ "/private"])
  = ["/private"]
  /\ robots_disallows (Fixture.platform []) "Bot"
       (Fixture.join_lines ["User-agent: *"; "disallow" ++ [160%N] ++ ": /x"])
     = ["/x"]
  /\ robots_disallows (Fixture.platform []) "Éclair"
       (Fixture.join_lines ["User-agent: éclair"; "Disallow: /private"])
     = ["/private"]
  /\ robots_disallows (Fixture.platform []) "Eclair"
       (Fixture.join_lines ["User-agent: éclair"; "Disallow: /private"])
     = [].
Proof. repeat split; vm_compute; reflexivity. Qed.

(** ** pLimit *)

Section PLimitInvariants.
Context {T Store : Type}.
Variable fn : T -> Store -> bool -> Store -> Prop.
Variable items : list T.
Variable limit : number.
Variable s0 : Store.

Import PLimit.

Local Abbreviation state := (@PLimit.state T Store).
Local Abbreviation step := (PLimit.step fn items limit).
Local Abbreviation reachable := (PLimit.reachable fn items limit s0).

Lemma inv_basic_init : inv_basic items (init s0).
Proof.
  unfold inv_basic, init; simpl. repeat split; try set_solver. lia.
Qed.

Lemma inv_basic_step st st' : inv_basic items st -> step st st' -> inv_basic items st'.
Proof.
  intros (Hex & Hdisj & Hlt & Hle & Hlaunched & Hctl) Hstep.
  destruct Hstep as [st item Hc Hitem | st Hc Hitem | st i item o s' Hi Hitem Hfn
                    | st i o Hi | st snap Hc | st snap Hc | st Hc | st pending Hc];
    unfold inv_basic; simpl; rewrite ?Hc in *.
  - (* start *)
    assert (Hfresh : started st ∉ executing st).
    { intros Hin. apply Hlt in Hin. lia. }
    repeat split.
    + rewrite Hex. set_solver.
    + rewrite Hex in Hfresh. set_solver.
    + intros i Hin. apply elem_of_union in Hin as [Hin | Hin].
      * apply Hlt in Hin. lia.
      * apply elem_of_singleton in Hin. lia.
    + apply lookup_lt_Some in Hitem. lia.
    + rewrite Hlaunched. symmetry. by apply take_S_r.
    + destruct (size_ge _ _); [|done]. split; [done|]. intros _. set_solver.
  - (* loop end *)
    repeat split; try done.
    apply lookup_ge_None in Hitem. lia.
  - (* settle *)
    repeat split; try done.
    + rewrite dom_insert_L, Hex.
      apply set_eq. intros j. rewrite !elem_of_union, elem_of_difference,
        elem_of_singleton. destruct (decide (j = i)) as [->|]; naive_solver.
    + rewrite dom_insert_L. set_solver.
  - (* reactions *)
    assert (Hdom : i ∈ dom (settled st)) by (apply elem_of_dom; eauto).
    assert (Hin : i ∈ executing st) by (rewrite Hex; set_solver).
    assert (Hrun : i ∉ running st) by set_solver.
    repeat split.
    + rewrite dom_delete_L, Hex. set_solver.
    + rewrite dom_delete_L. set_solver.
    + intros j Hj. apply Hlt. set_solver.
    + done.
    + done.
    + destruct (ctl st) as [|snap [w|]|pending [|]| |]; simpl.
      * done.
      * destruct Hctl as [Hsub _]. split; [set_solver | done].
      * destruct Hctl as [Hsub _]. destruct (decide (i ∈ snap)); [|set_solver].
        split; [set_solver | done].
      * destruct Hctl as [Hall _]. done.
      * destruct Hctl as [Hall Hpending]. specialize (Hpending eq_refl). subst pending.
        destruct (decide (i ∈ executing st)); [|done].
        destruct o; split; done.
      * destruct Hctl as [Hall Hempty]. set_solver.
      * done.
  - (* race resume *) repeat split; done.
  - (* race throw *) repeat split; done.
  - (* all return *)
    destruct Hctl as [Hall Hpending]. specialize (Hpending eq_refl).
    repeat split; done.
  - (* all throw *) repeat split; done.
Qed.

Lemma reachable_inv_basic st : reachable st -> inv_basic items st.
Proof.
  induction 1 as [|st st' _ IH Hstep]; [apply inv_basic_init|].
  by apply (inv_basic_step st).
Qed.

End PLimitInvariants.

Lemma reachable_step_eq {T Store : Type} (fn : T -> Store -> bool -> Store -> Prop)
      (items : list T) (limit : number) (s0 : Store) st st' st'' :
  PLimit.reachable fn items limit s0 st -> PLimit.step fn items limit st st' ->
  st' = st'' -> PLimit.reachable fn items limit s0 st''.
Proof. intros Hreach Hstep <-. by apply (PLimit.reach_step _ _ _ _ st). Qed.

(** *** The limit as a number of slots *)

Lemma size_ge_Fin (k : nat) (q : Q) :
  size_ge k (Fin q) = (Qceiling q <=? Z.of_nat k)%Z.
Proof.
  cbn [size_ge]. apply eq_iff_eq_true. rewrite Qle_bool_iff, Z.leb_le. split.
  - intros H. apply Qceiling_resp_le in H. by rewrite Qceiling_Z in H.
  - intros H. eapply Qle_trans; [apply Qle_ceiling|]. by rewrite <- Zle_Qle.
Qed.

Lemma size_ge_Int (k : nat) (L : Z) : size_ge k (Int L) = (L <=? Z.of_nat k)%Z.
Proof. unfold Int. by rewrite size_ge_Fin, Qceiling_Z. Qed.

Lemma slots_Some (limit : number) (n : nat) :
  slots limit = Some n ->
  1 <= n /\ forall k, 1 <= k -> size_ge k limit = (n <=? k).
Proof.
  destruct limit as [|q| |]; cbn [slots]; intros [= <-].
  - split; [lia|]. intros k Hk. rewrite size_ge_Fin.
    apply eq_iff_eq_true. rewrite Z.leb_le, Nat.leb_le. lia.
  - split; [done|]. intros k Hk. cbn [size_ge]. symmetry. by apply Nat.leb_le.
Qed.

Lemma slots_None (limit : number) :
  slots limit = None -> forall k, size_ge k limit = false.
Proof. by destruct limit. Qed.

Lemma slots_Int (L : Z) : slots (Int L) = Some (Z.to_nat (Z.max 1 L)).
Proof. unfold Int. cbn [slots]. by rewrite Qceiling_Z. Qed.

Lemma at_least_size_ge (limit : number) (n k : nat) :
  at_least limit n -> k < n -> size_ge k limit = false.
Proof.
  destruct limit as [|q| |]; cbn [at_least size_ge]; try done.
  intros Hn Hk. destruct (Qle_bool q _) eqn:Hq; [|done]. exfalso.
  apply Qle_bool_iff in Hq. pose proof (Qle_trans _ _ _ Hn Hq) as H.
  rewrite <- Zle_Qle in H. lia.
Qed.

Lemma size_add_fresh (X : gset nat) (p : nat) :
  p ∉ X -> size (X ∪ {[p]}) = S (size X).
Proof.
  intros Hp. rewrite size_union by set_solver. rewrite size_singleton. lia.
Qed.

Lemma size_remove (X : gset nat) (i : nat) :
  i ∈ X -> S (size (X ∖ {[i]})) = size X.
Proof.
  intros Hi. rewrite size_difference by set_solver. rewrite size_singleton.
  assert (size X <> 0); [|lia].
  intros H0. apply size_empty_inv in H0. set_solver.
Qed.

Section PLimitRace.
Context {T Store : Type}.
Variable fn : T -> Store -> bool -> Store -> Prop.
Variable items : list T.
Variable limit : number.
Variable s0 : Store.

Import PLimit.

Local Abbreviation state := (@PLimit.state T Store).
Local Abbreviation step := (PLimit.step fn items limit).
Local Abbreviation reachable := (PLimit.reachable fn items limit s0).

Lemma inv_race_step st st' :
  inv_basic items st -> inv_race limit st -> step st st' -> inv_race limit st'.
Proof.
  intros (Hex & Hdisj & Hlt & Hle & Hlaunched & Hctl) Hrace Hstep.
  destruct Hstep as [st item Hc Hitem | st Hc Hitem | st i item o s' Hi Hitem Hfn
                    | st i o Hi | st snap Hc | st snap Hc | st Hc | st pending Hc];
    unfold inv_race in *; cbn [ctl started]; rewrite ?Hc in *; try done.
  - destruct (size_ge _ _) eqn:Hge; [|done]. split; [done|].
    intros i Hin. apply elem_of_union in Hin as [Hin | Hin].
    + apply Hlt in Hin. lia.
    + apply elem_of_singleton in Hin. lia.
  - destruct (ctl st) as [|snap [w|]|pending [|]| |]; cbn [react]; try done.
    + by destruct (decide (i ∈ snap)).
    + destruct (decide (i ∈ pending)); [by destruct o | done].
Qed.

Lemma reachable_inv_race st : reachable st -> inv_race limit st.
Proof.
  induction 1 as [|st st' Hreach IH Hstep]; [done|].
  apply (inv_race_step st); [|done|done].
  by apply (reachable_inv_basic fn items limit s0).
Qed.

(** While the test [executing.size >= limit] fails, the loop starts one
    item after the other. *)
Lemma start_all_at_once k :
  k <= length items -> (forall j, 1 <= j <= k -> size_ge j limit = false) ->
  exists st, reachable st /\ started st = k /\ ctl st = InLoop
             /\ running st = set_seq 0 k /\ executing st = set_seq 0 k.
Proof.
  induction k as [|k IH]; intros Hk HL.
  - exists (init s0). repeat split. constructor.
  - destruct IH as (st & Hreach & Hstarted & Hc & Hrun & Hexe);
      [lia | intros j Hj; apply HL; lia |].
    destruct (lookup_lt_is_Some_2 items k) as [item Hitem]; [lia|].
    rewrite <- Hstarted in Hitem.
    eexists. split; [eapply reach_step; [exact Hreach | by apply step_start]|].
    cbn [started ctl running executing]. rewrite Hstarted, Hrun, Hexe.
    assert (Hset : set_seq (C := gset nat) 0 k ∪ {[k]} = set_seq 0 (S k)).
    { rewrite set_seq_S_end_union_L. set_solver. }
    assert (Hsize : size (set_seq (C := gset nat) 0 k ∪ {[k]}) = S k).
    { rewrite Hset. apply size_set_seq. }
    rewrite Hsize, Hset. rewrite HL by lia. done.
Qed.

End PLimitRace.

Section PLimitBound.
Context {T Store : Type}.
Variable fn : T -> Store -> bool -> Store -> Prop.
Variable items : list T.
Variable limit : number.
Variable n : nat.
Variable s0 : Store.

Hypothesis Hn : 1 <= n.
Hypothesis Hge : forall k, 1 <= k -> size_ge k limit = (n <=? k).

Import PLimit.

Local Abbreviation state := (@PLimit.state T Store).
Local Abbreviation step := (PLimit.step fn items limit).
Local Abbreviation reachable := (PLimit.reachable fn items limit s0).

Lemma inv_bound_step st st' :
  inv_basic items st -> inv_bound n st -> step st st' -> inv_bound n st'.
Proof.
  intros (Hex & Hdisj & Hlt & Hle & Hlaunched & Hctl) [Hmax Hsize] Hstep.
  destruct Hstep as [st item Hc Hitem | st Hc Hitem | st i item o s' Hi Hitem Hfn
                    | st i o Hi | st snap Hc | st snap Hc | st Hc | st pending Hc];
    unfold inv_bound; cbn [executing ctl started]; rewrite ?Hc in *;
    try (split; [done | done]).
  - (* start *)
    assert (Hfresh : started st ∉ executing st).
    { intros Hin. apply Hlt in Hin. lia. }
    rewrite size_add_fresh by done. split; [lia|].
    rewrite Hge by lia. destruct (n <=? _) eqn:Hcmp.
    + apply Nat.leb_le in Hcmp. rewrite size_add_fresh by done.
      split; [lia|]. split; [|done].
      intros i Hin. apply elem_of_union in Hin as [Hin | Hin].
      * apply Hlt in Hin. lia.
      * apply elem_of_singleton in Hin. lia.
    + apply Nat.leb_gt in Hcmp. lia.
  - (* reactions *)
    assert (Hin : i ∈ executing st).
    { rewrite Hex. apply elem_of_union_r, elem_of_dom. eauto. }
    pose proof (size_remove (executing st) i Hin) as Hrem.
    split; [lia|].
    destruct (ctl st) as [|snap [w|]|pending [|]| |]; cbn [react]; try done; try lia.
    + destruct Hsize as (Hsnap & Hbelow & Hw). repeat split; [done | done | lia].
    + destruct Hsize as (Hsnap & Hbelow & Hw). subst snap.
      destruct (decide (i ∈ executing st)); [|done].
      repeat split; [done | done | lia].
    + destruct (decide (i ∈ pending)); [by destruct o | done].
  - (* race resume *)
    split; [done|]. by destruct Hsize as (_ & _ & Hw).
Qed.

Lemma reachable_inv_bound st : reachable st -> inv_bound n st.
Proof.
  induction 1 as [|st st' Hreach IH Hstep].
  - unfold inv_bound, init; cbn [executing ctl]. rewrite size_empty. lia.
  - apply (inv_bound_step st); [|done|done].
    by apply (reachable_inv_basic fn items limit s0).
Qed.

End PLimitBound.

(** With [NaN] as limit the test [executing.size >= limit] never holds:
    the loop never suspends before [Promise.all]. *)
Lemma pLimit_NaN_never_suspends {T Store : Type}
      (fn : T -> Store -> bool -> Store -> Prop) (items : list T)
      (s0 : Store) (st : PLimit.state) :
  PLimit.reachable fn items NaN s0 st ->
  forall snap w, PLimit.ctl st <> PLimit.AwaitRace snap w.
Proof.
  intros Hreach snap w Hc.
  pose proof (reachable_inv_race fn items NaN s0 st Hreach) as Hrace.
  unfold inv_race in Hrace. rewrite Hc in Hrace. by destruct Hrace.
Qed.

(** *** Every run of pLimit is finite *)

Section PLimitMeasure.
Context {T Store : Type}.
Variable fn : T -> Store -> bool -> Store -> Prop.
Variable items : list T.
Variable limit : number.

Import PLimit.

Lemma react_weight c i o : ctl_weight (react c i o) = ctl_weight c.
Proof.
  destruct c as [|snap [w|]|pending [|]| |]; simpl; try done.
  - by destruct (decide (i ∈ snap)).
  - destruct (decide (i ∈ pending)); [by destruct o | done].
Qed.

Lemma step_work_left st st' :
  inv_basic items st -> PLimit.step fn items limit st st' ->
  work_left items st' < work_left items st.
Proof.
  intros (Hex & Hdisj & Hlt & Hle & Hlaunched & Hctl) Hstep.
  destruct Hstep as [st item Hc Hitem | st Hc Hitem | st i item o s' Hi Hitem Hfn
                    | st i o Hi | st snap Hc | st snap Hc | st Hc | st pending Hc];
    unfold work_left; cbn [started running settled ctl]; rewrite ?Hc;
    cbn [ctl_weight]; try lia.
  - (* start *)
    apply lookup_lt_Some in Hitem.
    assert (Hfresh : started st ∉ running st).
    { intros Hin. assert (started st < started st); [|lia].
      apply Hlt. rewrite Hex. set_solver. }
    rewrite size_add_fresh by done.
    destruct (size_ge _ _); cbn [ctl_weight]; lia.
  - (* settle *)
    pose proof (size_remove (running st) i Hi) as Hrem.
    rewrite map_size_insert_None; [lia|].
    apply not_elem_of_dom. set_solver.
  - (* reactions *)
    rewrite react_weight.
    pose proof (map_size_delete_Some i (settled st)) as Hdel.
    rewrite Hdel by eauto.
    assert (size (settled st) <> 0); [|lia].
    intros H0. apply map_size_empty_inv in H0. rewrite H0 in Hi.
    by rewrite lookup_empty in Hi.
Qed.

Lemma steps_reach (s0 : Store) st st' :
  PLimit.reachable fn items limit s0 st -> PLimit.steps fn items limit st st' ->
  PLimit.reachable fn items limit s0 st'.
Proof.
  intros Hreach Hsteps. induction Hsteps as [|st st1 st2 Hstep _ IH]; [done|].
  apply IH. by apply (reach_step _ _ _ _ st).
Qed.

End PLimitMeasure.

(** *** Runs of tasks that settle *)

Section PLimitRuns.
Context {T Store : Type}.
Variable fn : T -> Store -> bool -> Store -> Prop.
Variable items : list T.
Variable limit : number.
Variable s0 : Store.

(** Every task ends, fulfilled or rejected, whatever the store holds. *)
Hypothesis fn_settles : forall item s, exists o s', fn item s o s'.

Import PLimit.

Local Abbreviation state := (@PLimit.state T Store).
Local Abbreviation step := (PLimit.step fn items limit).
Local Abbreviation reachable := (PLimit.reachable fn items limit s0).

(** A pending or settled promise of [executing] can move on. *)
Lemma executing_moves (st : state) i :
  inv_basic items st -> i ∈ executing st -> exists st', step st st'.
Proof.
  intros (Hex & Hdisj & Hlt & Hle & _) Hi.
  pose proof (Hlt i Hi) as Hstarted.
  rewrite Hex in Hi. apply elem_of_union in Hi as [Hrun | Hset].
  - destruct (lookup_lt_is_Some_2 items i) as [item Hitem]; [lia|].
    destruct (fn_settles item (store st)) as (o & s' & Hfn).
    eexists. by apply (step_settle _ _ _ st i item o s').
  - apply elem_of_dom in Hset as [o Ho]. eexists. by apply (step_reactions _ _ _ st i o).
Qed.

(** Until the call has returned or thrown, something can happen. *)
Lemma pLimit_progress st :
  reachable st -> ctl st <> Returned -> ctl st <> Thrown -> exists st', step st st'.
Proof.
  intros Hreach Hnot Hnot'.
  pose proof (reachable_inv_basic fn items limit s0 st Hreach) as Hbasic.
  pose proof Hbasic as (Hex & Hdisj & Hlt & Hle & _ & Hctl).
  destruct (ctl st) as [|snap [[|]|]|pending [|]| |] eqn:Hc; try done.
  - destruct (items !! started st) as [item|] eqn:Hitem.
    + eexists. by apply (step_start _ _ _ st item).
    + eexists. by apply step_loop_end.
  - eexists. by apply (step_race_resume _ _ _ st snap).
  - eexists. by apply (step_race_throw _ _ _ st snap).
  - destruct Hctl as [_ Hne]. specialize (Hne eq_refl).
    apply set_choose_L in Hne as [i Hi]. by apply (executing_moves st i).
  - eexists. by apply (step_all_throw _ _ _ st pending).
  - destruct Hctl as [_ Hpending]. specialize (Hpending eq_refl). subst pending.
    destruct (decide (executing st = ∅)) as [Hempty|Hne].
    + eexists. apply step_all_return. by rewrite Hc, Hempty.
    + apply set_choose_L in Hne as [i Hi]. by apply (executing_moves st i).
Qed.

(** Every reachable state leads to the end of the call. *)
Lemma pLimit_ends st :
  reachable st ->
  exists st', PLimit.steps fn items limit st st'
              /\ (ctl st' = Returned \/ ctl st' = Thrown).
Proof.
  remember (work_left items st) as k eqn:Hk. revert st Hk.
  induction k as [k IH] using lt_wf_ind. intros st -> Hreach.
  assert (Hcases : (ctl st = Returned \/ ctl st = Thrown)
                   \/ (ctl st <> Returned /\ ctl st <> Thrown)).
  { destruct (ctl st); first [by left; left | by left; right | by right]. }
  destruct Hcases as [Hend|[Hnot Hnot']].
  - exists st. split; [constructor | done].
  - destruct (pLimit_progress st Hreach Hnot Hnot') as [st1 Hstep].
    destruct (IH (work_left items st1)) with (st := st1) as (st' & Hsteps & Hend).
    + apply (step_work_left fn items limit); [|done].
      by apply (reachable_inv_basic fn items limit s0).
    + done.
    + by apply (reach_step _ _ _ _ st).
    + exists st'. split; [|done]. by apply (steps_cons _ _ _ st st1).
Qed.

(** When no task rejects, nothing is rejected and the call does not
    throw. *)
Hypothesis fn_fulfils : forall item s o s', fn item s o s' -> o = true.

Lemma inv_fulfilled_step st st' :
  inv_fulfilled st -> step st st' -> inv_fulfilled st'.
Proof.
  intros [Hok Hctl] Hstep.
  destruct Hstep as [st item Hc Hitem | st Hc Hitem | st i item o s' Hi Hitem Hfn
                    | st i o Hi | st snap Hc | st snap Hc | st Hc | st pending Hc];
    unfold inv_fulfilled; cbn [settled ctl]; rewrite ?Hc in *; try done.
  - split; [done|]. by destruct (size_ge _ _).
  - apply fn_fulfils in Hfn as ->. split; [|done].
    intros j o Hj. destruct (decide (i = j)) as [->|Hne].
    + rewrite lookup_insert_eq in Hj. congruence.
    + rewrite lookup_insert_ne in Hj by done. eauto.
  - pose proof (Hok i o Hi) as ->. split.
    + intros j o Hj. apply lookup_delete_Some in Hj as [_ Hj]. eauto.
    + destruct (ctl st) as [|snap [[|]|]|pending [|]| |]; cbn [react]; try done.
      * by destruct (decide (i ∈ snap)).
      * by destruct (decide (i ∈ pending)).
Qed.

Lemma reachable_inv_fulfilled st : reachable st -> inv_fulfilled st.
Proof.
  induction 1 as [|st st' Hreach IH Hstep].
  - split; [|done]. intros i o Hi.
    change ((∅ : gmap nat bool) !! i = Some o) in Hi. by rewrite lookup_empty in Hi.
  - by apply (inv_fulfilled_step st).
Qed.

Lemma pLimit_returns st :
  reachable st -> exists st', PLimit.steps fn items limit st st' /\ ctl st' = Returned.
Proof.
  intros Hreach. destruct (pLimit_ends st Hreach) as (st' & Hsteps & [Hret | Hthrown]).
  - by exists st'.
  - pose proof (steps_reach fn items limit s0 st st' Hreach Hsteps) as Hreach'.
    apply reachable_inv_fulfilled in Hreach' as [_ Hctl].
    by rewrite Hthrown in Hctl.
Qed.

End PLimitRuns.

(** C2, as stated, fails for a limit that is no integer: with the limit
    1.5 two tasks run at once.  It also fails for the limit [crawlBatch]
    passes when the concurrency setting does not parse: [Math.max(1, NaN)]
    is [NaN], and three tasks of three run at once. *)
Lemma pLimit_limit_exceeded :
  (exists st : @PLimit.state string unit,
      PLimit.reachable (fun _ s o s' => o = true /\ s' = s) ["a"; "b"] (Fin (3 # 2)) tt st
      /\ size (PLimit.running st) = 2
      /\ (3 # 2 < inject_Z (Z.of_nat (size (PLimit.running st))))%Q)
  /\ Math_max (Int 1) (parseInt "many") = NaN
  /\ exists st : @PLimit.state string unit,
      PLimit.reachable (fun _ s o s' => o = true /\ s' = s) ["a"; "b"; "c"]
                       (Math_max (Int 1) (parseInt "many")) tt st
      /\ size (PLimit.running st) = 3.
Proof.
  split; [|split; [vm_compute; reflexivity|]].
  - destruct (start_all_at_once (fun (_ : string) (s : unit) o s' => o = true /\ s' = s)
                ["a"; "b"] (Fin (3 # 2)) tt 1)
      as (st1 & Hreach1 & Hstarted & Hc & Hrun & Hexe).
    { cbn [length]. lia. }
    { intros j Hj. assert (j = 1) as -> by lia. reflexivity. }
    assert (Hitem : ["a"; "b"] !! PLimit.started st1 = Some "b") by (by rewrite Hstarted).
    eexists. split; [|split].
    + eapply PLimit.reach_step; [exact Hreach1|].
      by apply (PLimit.step_start _ _ _ st1 "b").
    + cbn [PLimit.running]. rewrite Hrun, Hstarted. reflexivity.
    + cbn [PLimit.running]. rewrite Hrun, Hstarted. reflexivity.
  - change (Math_max (Int 1) (parseInt "many")) with NaN.
    destruct (start_all_at_once (fun (_ : string) (s : unit) o s' => o = true /\ s' = s)
                ["a"; "b"; "c"] NaN tt 3)
      as (st & Hreach & _ & _ & Hrun & _); [cbn [length]; lia | done |].
    exists st. split; [done|]. rewrite Hrun. apply size_set_seq.
Qed.

(** C2, amended: in every state of a call [pLimit(items, limit, fn)], for
    every number [limit], at most [slots limit] tasks are running: the
    limit rounded up to an integer, and at least 1, which for an integer
    limit is [max(1, limit)]; [NaN] and [+Infinity] bound nothing.  The
    tasks started so far are those of a prefix of [items], in input order.
    The loop stays suspended only while every slot is taken; the reactions
    of a settled promise can run, they free its slot and decide the race
    the loop waits for; once the race is decided by a fulfilled promise the
    loop resumes with a free slot, and in the loop the next item, if any,
    is started.  The call has returned only if every item was started and
    every task has settled and had its reactions run.  If every task
    settles, each running task can settle, each step leaves less work, some
    step is possible until the call has returned or thrown, and the call
    does end; it returns when no task rejects.  When the limit is at least
    the number of items the loop never suspends before the last item is
    started, and all tasks can be running at once. *)
Theorem pLimit_bounded_concurrency {T Store : Type}
        (fn : T -> Store -> bool -> Store -> Prop) (items : list T)
        (limit : number) (s0 : Store) (st : PLimit.state) :
  PLimit.reachable fn items limit s0 st ->
  ((forall n, slots limit = Some n -> size (PLimit.running st) <= n)
   /\ forall L : Z, slots (Int L) = Some (Z.to_nat (Z.max 1 L)))
  /\ PLimit.launched st = take (PLimit.started st) items
  /\ (forall snap,
         PLimit.ctl st = PLimit.AwaitRace snap None ->
         slots limit = Some (size (PLimit.executing st))
         /\ forall i o,
             PLimit.settled st !! i = Some o ->
             PLimit.react (PLimit.ctl st) i o = PLimit.AwaitRace snap (Some o)
             /\ exists st',
                 PLimit.step fn items limit st st'
                 /\ PLimit.ctl st' = PLimit.AwaitRace snap (Some o)
                 /\ PLimit.executing st' = PLimit.executing st ∖ {[i]})
  /\ (forall snap,
         PLimit.ctl st = PLimit.AwaitRace snap (Some true) ->
         exists st',
           PLimit.step fn items limit st st'
           /\ PLimit.ctl st' = PLimit.InLoop
           /\ PLimit.started st' = PLimit.started st
           /\ forall n, slots limit = Some n -> size (PLimit.executing st') < n)
  /\ (PLimit.ctl st = PLimit.InLoop ->
      forall item,
        items !! PLimit.started st = Some item ->
        exists st',
          PLimit.step fn items limit st st'
          /\ PLimit.launched st' = PLimit.launched st ++ [item]
          /\ PLimit.started st ∈ PLimit.running st')
  /\ (PLimit.ctl st = PLimit.Returned ->
      PLimit.launched st = items /\ PLimit.running st = ∅ /\ PLimit.settled st = ∅)
  /\ ((forall item s, exists o s', fn item s o s') ->
      (forall i, i ∈ PLimit.running st ->
                 exists st' o, PLimit.step fn items limit st st'
                               /\ PLimit.settled st' !! i = Some o)
      /\ (forall st', PLimit.step fn items limit st st' ->
                      work_left items st' < work_left items st)
      /\ (PLimit.ctl st <> PLimit.Returned -> PLimit.ctl st <> PLimit.Thrown ->
          exists st', PLimit.step fn items limit st st')
      /\ (exists st', PLimit.steps fn items limit st st'
                      /\ (PLimit.ctl st' = PLimit.Returned
                          \/ PLimit.ctl st' = PLimit.Thrown))
      /\ ((forall item s o s', fn item s o s' -> o = true) ->
          exists st', PLimit.steps fn items limit st st'
                      /\ PLimit.ctl st' = PLimit.Returned))
  /\ (at_least limit (length items) ->
      (forall snap w,
          PLimit.ctl st = PLimit.AwaitRace snap w ->
          PLimit.started st = length items)
      /\ exists st',
          PLimit.reachable fn items limit s0 st'
          /\ PLimit.running st' = set_seq 0 (length items)).
Proof.
  intros Hreach.
  pose proof (reachable_inv_basic fn items limit s0 st Hreach) as Hbasic.
  pose proof Hbasic as (Hex & Hdisj & Hlt & Hle & Hlaunched & Hctl).
  pose proof (reachable_inv_race fn items limit s0 st Hreach) as Hrace.
  assert (Hbound : forall n, slots limit = Some n -> inv_bound n st).
  { intros n Hn. apply slots_Some in Hn as [Hn Hge].
    by apply (reachable_inv_bound fn items limit n s0). }
  split; [split|split; [|split; [|split; [|split; [|split; [|split]]]]]].
  - intros n Hn. destruct (Hbound n Hn) as [Hmax _].
    assert (size (PLimit.running st) <= size (PLimit.executing st)); [|lia].
    apply subseteq_size. rewrite Hex. set_solver.
  - apply slots_Int.
  - done.
  - intros snap Hc. split.
    + unfold inv_race in Hrace. rewrite Hc in Hrace. destruct Hrace as [Hge _].
      destruct (slots limit) as [n|] eqn:Hn.
      * destruct (Hbound n eq_refl) as [_ Hsize]. rewrite Hc in Hsize.
        destruct Hsize as (Hsnap & _ & Hsame). by rewrite Hsame, Hsnap.
      * by rewrite slots_None in Hge.
    + intros i o Hi.
      assert (Hreact : PLimit.react (PLimit.ctl st) i o
                       = PLimit.AwaitRace snap (Some o)).
      { rewrite Hc. cbn [PLimit.react].
        rewrite Hc in Hctl. destruct Hctl as [Hsub _].
        assert (Hin : i ∈ snap).
        { apply Hsub. rewrite Hex. apply elem_of_union_r, elem_of_dom. eauto. }
        by destruct (decide (i ∈ snap)). }
      split; [done|]. eexists.
      split; [by apply (PLimit.step_reactions _ _ _ st i o)|].
      cbn [PLimit.ctl PLimit.executing]. by rewrite Hreact.
  - intros snap Hc. eexists.
    split; [by apply (PLimit.step_race_resume _ _ _ st snap)|].
    split; [done|]. split; [done|]. intros n Hn. cbn [PLimit.executing].
    destruct (Hbound n Hn) as [_ Hsize]. rewrite Hc in Hsize.
    by destruct Hsize as (_ & _ & Hw).
  - intros Hc item Hitem. eexists.
    split; [by apply (PLimit.step_start _ _ _ st item)|].
    split; [done|]. cbn [PLimit.running]. set_solver.
  - intros Hc. rewrite Hc in Hctl. destruct Hctl as [Hall Hempty]. split; [|split].
    + rewrite Hlaunched, Hall. apply firstn_all.
    + rewrite Hex in Hempty. set_solver.
    + rewrite Hex in Hempty. apply dom_empty_inv_L. set_solver.
  - intros Hsettles. split; [|split; [|split; [|split]]].
    + intros i Hi.
      assert (Hi' : i < length items).
      { assert (i < PLimit.started st); [|lia].
        apply Hlt. rewrite Hex. by apply elem_of_union_l. }
      destruct (lookup_lt_is_Some_2 items i Hi') as [item Hitem].
      destruct (Hsettles item (PLimit.store st)) as (o & s' & Hfn).
      eexists _, o. split; [by apply (PLimit.step_settle _ _ _ st i item o s')|].
      cbn [PLimit.settled]. apply lookup_insert_eq.
    + intros st' Hstep. by apply (step_work_left fn items limit).
    + by apply (pLimit_progress fn items limit s0).
    + by apply (pLimit_ends fn items limit s0).
    + intros Hfulfils. by apply (pLimit_returns fn items limit s0).
  - intros HL. split.
    { intros snap w Hc. unfold inv_race in Hrace. rewrite Hc in Hrace.
      destruct Hrace as [Hge Hbelow].
      assert (Hsub : snap ⊆ set_seq 0 (PLimit.started st)).
      { intros i Hi. apply elem_of_set_seq. apply Hbelow in Hi. lia. }
      apply subseteq_size in Hsub. rewrite size_set_seq in Hsub.
      destruct (decide (size snap < length items)) as [Hlt'|Hnlt]; [|lia].
      by rewrite (at_least_size_ge limit _ _ HL Hlt') in Hge. }
    destruct (start_all_at_once fn items limit s0 (length items - 1))
      as (st1 & Hreach1 & Hstarted & Hc & Hrun & _); [lia | |].
    { intros j Hj. apply (at_least_size_ge limit (length items)); [done | lia]. }
    destruct (length items) as [|n] eqn:Hlen.
    + exists (PLimit.init s0). split; [constructor | done].
    + destruct (lookup_lt_is_Some_2 items n) as [item Hitem]; [lia|].
      replace (S n - 1) with n in * by lia.
      rewrite <- Hstarted in Hitem.
      eexists. split; [eapply PLimit.reach_step; [exact Hreach1 |
                                               by apply PLimit.step_start]|].
      cbn [PLimit.running]. rewrite Hstarted, Hrun.
      rewrite set_seq_S_end_union_L. set_solver.
Qed.

Lemma pLimit_bounded_concurrency_witness :
  exists st : @PLimit.state string unit,
    PLimit.reachable (fun _ s o s' => o = true /\ s' = s) ["a"; "b"; "c"] (Int 2) tt st
    /\ PLimit.started st = 2
    /\ size (PLimit.running st) = 2
    /\ size (PLimit.running st) <= 2
    /\ exists st', PLimit.steps (fun _ s o s' => o = true /\ s' = s)
                     ["a"; "b"; "c"] (Int 2) st st'
                   /\ PLimit.ctl st' = PLimit.Returned.
Proof.
  assert (Hreach : PLimit.reachable (fun (_ : string) (s : unit) o s' => o = true /\ s' = s)
                     ["a"; "b"; "c"] (Int 2) tt
                     (PLimit.mkState 2 ["a"; "b"] {[0; 1]} ∅ {[0; 1]}
                                     (PLimit.AwaitRace {[0; 1]} None) tt)).
  { eapply reachable_step_eq;
      [eapply reachable_step_eq; [apply PLimit.reach_init| |]| |].
    - by apply (PLimit.step_start _ _ _ _ "a").
    - reflexivity.
    - by apply (PLimit.step_start _ _ _ _ "b").
    - vm_compute. reflexivity. }
  eexists. split; [exact Hreach|]. split; [reflexivity|].
  split; [vm_compute; reflexivity|].
  destruct (pLimit_bounded_concurrency _ _ _ _ _ Hreach)
    as ([Hbound _] & _ & _ & _ & _ & _ & Hruns & _).
  split.
  - apply Hbound. vm_compute. reflexivity.
  - destruct Hruns as (_ & _ & _ & _ & Hreturns).
    + intros item s. by exists true, s.
    + apply Hreturns. by intros item s o s' [-> _].
Defined.

(** ** crawlBatch *)

Section CrawlTask.
Context (pf : Platform) (userAgent : string).

Lemma allowedByRobots_log_irrelevant url log1 log2 :
  fst (allowedByRobots pf url userAgent log1)
  = fst (allowedByRobots pf url userAgent log2).
Proof.
  rewrite !allowedByRobots_run.
  destruct (new_URL pf url) as [u|e]; [|done]. simpl.
  destruct (fetch pf _ _) as [res|e]; [|done].
  destruct (Response_ok res); [|done].
  destruct (Response_text pf res); done.
Qed.

(** The ways the task ends, by the robots verdict and the page fetch. *)
Lemma crawl_task_run url out log :
  crawl_task pf userAgent url out log =
  match allowedByRobots pf url userAgent log with
  | (Ok false, log1) => (Ok (out ++ [CrawlResult.mk true 999 url]), log1)
  | (Ok true, log1) =>
      match fetch pf url (robots_headers userAgent) with
      | Ok res =>
          (Ok (out ++ [CrawlResult.mk (Response_ok res) (status res) url]),
           log1 ++ [(url, robots_headers userAgent)])
      | Throw _ =>
          (Ok (out ++ [CrawlResult.mk false 0 url]),
           log1 ++ [(url, robots_headers userAgent)])
      end
  | (Throw _, log1) => (Ok (out ++ [CrawlResult.mk false 0 url]), log1)
  end.
Proof.
  unfold crawl_task, try_catch, mbind, Eff_bind, net_fetch, robots_headers.
  destruct (allowedByRobots pf url userAgent log) as [[[|]|e] log1]; simpl; try done.
  destruct (fetch pf url _) as [res|e]; done.
Qed.

Lemma crawl_task_result url out log :
  fst (crawl_task pf userAgent url out log)
  = Ok (out ++ [crawl_result pf userAgent url]).
Proof.
  rewrite crawl_task_run. unfold crawl_result.
  rewrite (allowedByRobots_log_irrelevant url [] log).
  destruct (allowedByRobots pf url userAgent log) as [[[|]|e] log1]; simpl; try done.
  destruct (fetch pf url _) as [res|e]; done.
Qed.

Lemma crawlBatch_fn_spec url out o out' :
  crawlBatch_fn pf userAgent url out o out'
  <-> o = true /\ out' = out ++ [crawl_result pf userAgent url].
Proof. unfold crawlBatch_fn. by rewrite crawl_task_result. Qed.

End CrawlTask.

(** *** Tasks that push one record and never reject *)

Section Collecting.
Context {T R : Type}.
Variable g : T -> R.
Variable fn : T -> list R -> bool -> list R -> Prop.
Variable items : list T.
Variable limit : number.

Hypothesis fn_spec :
  forall item s o s', fn item s o s' <-> o = true /\ s' = s ++ [g item].

Import PLimit.

Local Abbreviation state := (@PLimit.state T (list R)).
Local Abbreviation step := (PLimit.step fn items limit).
Local Abbreviation reachable := (PLimit.reachable fn items limit []).

Lemma inv_collect_step st st' :
  inv_basic items st -> inv_collect g items st -> step st st' -> inv_collect g items st'.
Proof.
  intros (Hex & Hdisj & Hlt & Hle & Hlaunched & Hctl)
         (Hok & Hnothrow & order & Hnodup & Horder & Hstore) Hstep.
  destruct Hstep as [st item Hc Hitem | st Hc Hitem | st i item o s' Hi Hitem Hfn
                    | st i o Hi | st snap Hc | st snap Hc | st Hc | st pending Hc];
    unfold inv_collect; cbn [settled ctl started running store];
    rewrite ?Hc in *; try done.
  - (* start *)
    split; [done|]. split; [by destruct (size_ge _ _)|].
    exists order. split; [done|]. split; [|done].
    intros i. rewrite Horder, not_elem_of_union, not_elem_of_singleton.
    split.
    + intros [? ?]. split; [lia|]. split; [done | lia].
    + intros (? & ? & ?). split; [lia | done].
  - (* loop end *)
    split; [done|]. split; [done|]. by exists order.
  - (* settle *)
    apply fn_spec in Hfn as [-> ->].
    assert (Hstarted : i < started st).
    { apply Hlt. rewrite Hex. set_solver. }
    split; [|split; [done|]].
    + intros j o Hj. destruct (decide (i = j)) as [->|Hne].
      * rewrite lookup_insert_eq in Hj. congruence.
      * rewrite lookup_insert_ne in Hj by done. eauto.
    + exists (order ++ [i]). split; [|split].
      * apply NoDup_app. split; [done|]. split; [|apply NoDup_singleton].
        intros j Hj Hji. apply list_elem_of_singleton in Hji. subst j.
        apply Horder in Hj. tauto.
      * intros j. rewrite elem_of_app, list_elem_of_singleton, Horder,
          elem_of_difference, elem_of_singleton.
        destruct (decide (j = i)) as [->|Hne]; [tauto|]. tauto.
      * rewrite !fmap_app, Hstore. simpl. by rewrite Hitem.
  - (* reactions *)
    pose proof (Hok i o Hi) as ->.
    split; [|split].
    + intros j o Hj. apply lookup_delete_Some in Hj as [_ Hj]. eauto.
    + destruct (ctl st) as [|snap [[|]|]|pending [|]| |]; cbn [react]; try done.
      * by destruct (decide (i ∈ snap)).
      * by destruct (decide (i ∈ pending)).
    + by exists order.
  - (* race resume *)
    split; [done|]. split; [done|]. by exists order.
  - (* all return *)
    split; [done|]. split; [done|]. by exists order.
Qed.

Lemma reachable_inv_collect st : reachable st -> inv_collect g items st.
Proof.
  induction 1 as [|st st' Hreach IH Hstep].
  - split; [|split; [done|]].
    + intros i o Hi. change ((∅ : gmap nat bool) !! i = Some o) in Hi.
      by rewrite lookup_empty in Hi.
    + exists []. split; [constructor|]. split; [|done].
      intros i. simpl. split; [by intros ?%elem_of_nil | lia].
  - apply (inv_collect_step st); [|done|done].
    by apply (reachable_inv_basic fn items limit []).
Qed.

End Collecting.

Section CollectingRuns.
Context {T R : Type}.
Variable g : T -> R.
Variable fn : T -> list R -> bool -> list R -> Prop.
Variable items : list T.
Variable limit : number.

Hypothesis fn_spec :
  forall item s o s', fn item s o s' <-> o = true /\ s' = s ++ [g item].

Import PLimit.

Local Abbreviation state := (@PLimit.state T (list R)).
Local Abbreviation step := (PLimit.step fn items limit).
Local Abbreviation reachable := (PLimit.reachable fn items limit []).

(** A pending or settled promise of [executing] can move on. *)
Lemma executing_can_move (st : state) i :
  inv_basic items st -> i ∈ executing st -> exists st', step st st'.
Proof.
  intros (Hex & Hdisj & Hlt & Hle & _) Hi.
  pose proof (Hlt i Hi) as Hstarted.
  rewrite Hex in Hi. apply elem_of_union in Hi as [Hrun | Hset].
  - destruct (lookup_lt_is_Some_2 items i) as [item Hitem]; [lia|].
    eexists. apply (step_settle _ _ _ st i item true (store st ++ [g item]));
      [done | done |]. by apply fn_spec.
  - apply elem_of_dom in Hset as [o Ho]. eexists. by apply (step_reactions _ _ _ st i o).
Qed.

(** Until the call has returned, something can happen. *)
Lemma collecting_progress st :
  reachable st -> ctl st <> Returned -> exists st', step st st'.
Proof.
  intros Hreach Hnot.
  pose proof (reachable_inv_basic fn items limit [] st Hreach) as Hbasic.
  pose proof (reachable_inv_collect g fn items limit fn_spec st Hreach)
    as (_ & Hnothrow & _).
  pose proof Hbasic as (Hex & Hdisj & Hlt & Hle & _ & Hctl).
  destruct (ctl st) as [|snap [[|]|]|pending [|]| |] eqn:Hc; try done.
  - destruct (items !! started st) as [item|] eqn:Hitem.
    + eexists. by apply (step_start _ _ _ st item).
    + eexists. by apply step_loop_end.
  - eexists. by apply (step_race_resume _ _ _ st snap).
  - destruct Hctl as [_ Hne]. specialize (Hne eq_refl).
    apply set_choose_L in Hne as [i Hi]. by apply (executing_can_move st i).
  - destruct Hctl as [_ Hpending]. specialize (Hpending eq_refl). subst pending.
    destruct (decide (executing st = ∅)) as [Hempty|Hne].
    + eexists. apply step_all_return. by rewrite Hc, Hempty.
    + apply set_choose_L in Hne as [i Hi]. by apply (executing_can_move st i).
Qed.

(** Every reachable state leads to the return of the call. *)
Lemma collecting_returns st :
  reachable st -> exists st', PLimit.steps fn items limit st st' /\ ctl st' = Returned.
Proof.
  remember (work_left items st) as n eqn:Hn. revert st Hn.
  induction n as [n IH] using lt_wf_ind. intros st -> Hreach.
  assert (Hcases : ctl st = Returned \/ ctl st <> Returned).
  { destruct (ctl st); first [by left | by right]. }
  destruct Hcases as [Hret|Hnot].
  - exists st. split; [constructor | done].
  - destruct (collecting_progress st Hreach Hnot) as [st1 Hstep].
    destruct (IH (work_left items st1)) with (st := st1) as (st' & Hsteps & Hret).
    + apply (step_work_left fn items limit); [|done].
      by apply (reachable_inv_basic fn items limit []).
    + done.
    + by apply (reach_step _ _ _ _ st).
    + exists st'. split; [|done]. by apply (steps_cons _ _ _ st st1).
Qed.

Lemma steps_reachable st st' :
  reachable st -> PLimit.steps fn items limit st st' -> reachable st'.
Proof.
  intros Hreach Hsteps. induction Hsteps as [|st st1 st2 Hstep _ IH]; [done|].
  apply IH. by apply (reach_step _ _ _ _ st).
Qed.

(** On return the store holds exactly one record per item. *)
Lemma collecting_result st :
  reachable st -> ctl st = Returned -> store st ≡ₚ map g items.
Proof.
  intros Hreach Hret.
  pose proof (reachable_inv_basic fn items limit [] st Hreach)
    as (Hex & _ & _ & _ & _ & Hctl).
  pose proof (reachable_inv_collect g fn items limit fn_spec st Hreach)
    as (_ & _ & order & Hnodup & Horder & Hstore).
  rewrite Hret in Hctl. destruct Hctl as [Hall Hempty].
  assert (Hperm : order ≡ₚ seq 0 (length items)).
  { apply NoDup_Permutation; [done | apply NoDup_seq |].
    intros i. rewrite Horder, elem_of_seq, Hall.
    rewrite Hex in Hempty. split; [intros [? _]; lia|].
    intros [_ ?]. split; [lia | set_solver]. }
  change (map g items) with (g <$> items).
  assert (Hseq : (fun i => g <$> items !! i) <$> seq 0 (length items)
                 = Some <$> (g <$> items)).
  { apply list_eq. intros i. rewrite !list_lookup_fmap.
    destruct (decide (i < length items)) as [Hlt|Hge].
    - rewrite lookup_seq_lt by done. simpl.
      destruct (lookup_lt_is_Some_2 items i Hlt) as [item Hitem].
      by rewrite Hitem.
    - rewrite lookup_seq_ge by lia. simpl.
      rewrite (lookup_ge_None_2 items i) by lia. done. }
  apply (fmap_Permutation (fun i => g <$> items !! i)) in Hperm.
  rewrite <- Hstore, Hseq in Hperm.
  apply Permutation_map_inv in Hperm as (l3 & Hl3 & Hperm).
  assert (l3 = store st) as ->; [|by symmetry].
  apply (inj (fmap Some)). by symmetry.
Qed.

End CollectingRuns.

Lemma crawlBatch_result (pf : Platform) (urls : list string)
      (userAgent : string) (concurrency : number) (result : list CrawlResult.t) :
  crawlBatch_returns pf urls userAgent concurrency result ->
  result ≡ₚ map (crawl_result pf userAgent) urls.
Proof.
  intros (st & Hreach & Hret & <-).
  by apply (collecting_result (crawl_result pf userAgent) _ urls
                              (Math_max (Int 1) concurrency)
                              (crawlBatch_fn_spec pf userAgent)).
Qed.

Lemma crawlBatch_does_return (pf : Platform) (urls : list string)
      (userAgent : string) (concurrency : number) :
  exists result, crawlBatch_returns pf urls userAgent concurrency result.
Proof.
  destruct (collecting_returns (crawl_result pf userAgent) _ urls
              (Math_max (Int 1) concurrency) (crawlBatch_fn_spec pf userAgent)
              (PLimit.init []))
    as (st & Hsteps & Hret); [constructor|].
  exists (PLimit.store st), st. split; [|done].
  apply (steps_reachable _ urls _ (PLimit.init [])); [constructor | done].
Qed.

(** C4: whenever [crawlBatch] returns, its result holds exactly one record
    per input URL: it is a permutation of the records of the URLs, whatever
    the robots verdicts, the responses and the fetch errors, and whatever
    the concurrency.  And it does return: a result exists; every state of
    the run leads to the return; until the return some step is possible,
    and every step leaves less work, so no run goes on for ever or stops
    short of the return. *)
Theorem crawlBatch_one_result_per_url (pf : Platform) (urls : list string)
        (userAgent : string) (concurrency : number) :
  (forall result,
      crawlBatch_returns pf urls userAgent concurrency result ->
      length result = length urls
      /\ result ≡ₚ map (crawl_result pf userAgent) urls)
  /\ (exists result, crawlBatch_returns pf urls userAgent concurrency result)
  /\ (forall st,
         PLimit.reachable (crawlBatch_fn pf userAgent) urls
                          (Math_max (Int 1) concurrency) [] st ->
         (exists st',
             PLimit.steps (crawlBatch_fn pf userAgent) urls
                          (Math_max (Int 1) concurrency) st st'
             /\ PLimit.ctl st' = PLimit.Returned)
         /\ (PLimit.ctl st <> PLimit.Returned ->
             exists st', PLimit.step (crawlBatch_fn pf userAgent) urls
                                     (Math_max (Int 1) concurrency) st st')
         /\ (forall st',
                PLimit.step (crawlBatch_fn pf userAgent) urls
                            (Math_max (Int 1) concurrency) st st' ->
                work_left urls st' < work_left urls st)).
Proof.
  pose proof (crawlBatch_fn_spec pf userAgent) as Hspec.
  split; [|split].
  - intros result Hreturns.
    pose proof (crawlBatch_result pf urls userAgent concurrency result Hreturns)
      as Hperm.
    split; [|done]. apply Permutation_length in Hperm.
    by rewrite length_map in Hperm.
  - apply crawlBatch_does_return.
  - intros st Hreach. split; [|split].
    + by apply (collecting_returns (crawl_result pf userAgent) _ urls _ Hspec).
    + by apply (collecting_progress (crawl_result pf userAgent) _ urls _ Hspec).
    + intros st' Hstep.
      apply (step_work_left (crawlBatch_fn pf userAgent) urls
                            (Math_max (Int 1) concurrency) st st'); [|done].
      by apply (reachable_inv_basic (crawlBatch_fn pf userAgent) urls
                                    (Math_max (Int 1) concurrency) []).
Qed.

Lemma crawlBatch_one_result_per_url_witness :
  exists result,
    crawlBatch_returns (Fixture.platform Fixture.shops)
      ["https://shop.example/private/x"; "https://shop.example/public";
       "https://down.example/page"] Fixture.bot (Int 2) result
    /\ length result = 3.
Proof.
  destruct (crawlBatch_one_result_per_url (Fixture.platform Fixture.shops)
              ["https://shop.example/private/x"; "https://shop.example/public";
               "https://down.example/page"] Fixture.bot (Int 2))
    as (Hcount & [result Hreturns] & _).
  exists result. split; [done|]. by apply Hcount.
Defined.

(** C6, as stated, fails: when the fetch of robots.txt throws, the
    exception is absorbed by [allowedByRobots], the page is fetched and the
    record is the one of the page, not [{ok: false, status: 0}]. *)
Lemma robots_exception_gives_page_record :
  fetch (Fixture.platform Samples.flaky) "https://flaky.example/robots.txt"
        (robots_headers Fixture.bot)
  = Throw (PlatformExn "TypeError: network failure")
  /\ crawl_task (Fixture.platform Samples.flaky) Fixture.bot
       "https://flaky.example/page" [] []
     = (Ok [CrawlResult.mk true 200 "https://flaky.example/page"],
        [("https://flaky.example/robots.txt", robots_headers Fixture.bot);
         ("https://flaky.example/page", robots_headers Fixture.bot)]).
Proof. split; vm_compute; reflexivity. Qed.

(** C6, amended: the task of [crawlBatch] always ends by pushing one
    record and never throws.  When robots.txt disallows the URL the record
    is [{ok: true, status: 999}] and the only request issued is the one for
    robots.txt.  The record is [{ok: false, status: 0}] when the fetch of
    the page throws, and only then or for a response of status 0; an
    exception raised while robots.txt is checked is absorbed there: the
    page is fetched and the record is the one of its response.  No state of
    a batch is a thrown one. *)
Theorem crawlBatch_per_url_outcome (pf : Platform) (userAgent url : string)
        (out : list CrawlResult.t) (log : list Request) :
  (exists r, fst (crawl_task pf userAgent url out log) = Ok (out ++ [r]))
  /\ (fst (allowedByRobots pf url userAgent log) = Ok false ->
      exists u,
        new_URL pf url = Ok u
        /\ crawl_task pf userAgent url out log
           = (Ok (out ++ [CrawlResult.mk true 999 url]),
              log ++ [(origin u ++ "/robots.txt", robots_headers userAgent)]))
  /\ (forall e,
         fst (allowedByRobots pf url userAgent log) = Ok true ->
         fetch pf url (robots_headers userAgent) = Throw e ->
         fst (crawl_task pf userAgent url out log)
         = Ok (out ++ [CrawlResult.mk false 0 url]))
  /\ (forall res,
         fst (allowedByRobots pf url userAgent log) = Ok true ->
         fetch pf url (robots_headers userAgent) = Ok res ->
         fst (crawl_task pf userAgent url out log)
         = Ok (out ++ [CrawlResult.mk (Response_ok res) (status res) url]))
  /\ (fst (crawl_task pf userAgent url out log)
      = Ok (out ++ [CrawlResult.mk false 0 url]) <->
      fst (allowedByRobots pf url userAgent log) = Ok true
      /\ ((exists e, fetch pf url (robots_headers userAgent) = Throw e)
          \/ exists res, fetch pf url (robots_headers userAgent) = Ok res
                         /\ status res = 0%Z))
  /\ (forall res,
         fetch pf url (robots_headers userAgent) = Ok res ->
         (exists e, new_URL pf url = Throw e)
         \/ (exists u e,
                new_URL pf url = Ok u
                /\ fetch pf (origin u ++ "/robots.txt") (robots_headers userAgent)
                   = Throw e)
         \/ (exists u robots e,
                new_URL pf url = Ok u
                /\ fetch pf (origin u ++ "/robots.txt") (robots_headers userAgent)
                   = Ok robots
                /\ Response_text pf robots = Throw e) ->
         fst (crawl_task pf userAgent url out log)
         = Ok (out ++ [CrawlResult.mk (Response_ok res) (status res) url]))
  /\ (forall urls concurrency st,
         PLimit.reachable (crawlBatch_fn pf userAgent) urls
                          (Math_max (Int 1) concurrency) [] st ->
         PLimit.ctl st <> PLimit.Thrown).
Proof.
  assert (Hpage : forall res,
             fst (allowedByRobots pf url userAgent log) = Ok true ->
             fetch pf url (robots_headers userAgent) = Ok res ->
             fst (crawl_task pf userAgent url out log)
             = Ok (out ++ [CrawlResult.mk (Response_ok res) (status res) url])).
  { intros res Htrue Hfetch. rewrite crawl_task_run.
    destruct (allowedByRobots pf url userAgent log) as [a log1]. simpl in Htrue.
    subst a. by rewrite Hfetch. }
  split; [|split; [|split; [|split; [|split; [|split]]]]].
  - rewrite crawl_task_result. eauto.
  - intros Hfalse. rewrite crawl_task_run.
    rewrite allowedByRobots_run in Hfalse |- *.
    destruct (new_URL pf url) as [u|e]; [|discriminate]. exists u. split; [done|].
    cbn zeta in Hfalse |- *.
    destruct (fetch pf (origin u ++ "/robots.txt") _) as [res|e]; [|discriminate].
    destruct (Response_ok res); [|discriminate].
    destruct (Response_text pf res) as [text|e]; [|discriminate].
    simpl in Hfalse. injection Hfalse as ->. done.
  - intros e Htrue Hfetch. rewrite crawl_task_run.
    destruct (allowedByRobots pf url userAgent log) as [a log1]. simpl in Htrue.
    subst a. by rewrite Hfetch.
  - exact Hpage.
  - rewrite crawl_task_run.
    destruct (allowedByRobots pf url userAgent log) as [[[|]|e] log1] eqn:Ha;
      cbn [fst].
    + destruct (fetch pf url (robots_headers userAgent)) as [res|e] eqn:Hfetch;
        cbn [fst]; split.
      * intros [= H]. apply app_inv_head in H. injection H as Hok Hst.
        split; [done|]. right. by exists res.
      * intros [_ [[e He] | (res' & [= <-] & Hst)]]; [done|].
        unfold Response_ok. rewrite Hst. reflexivity.
      * intros _. split; [done|]. left. by exists e.
      * done.
    + split; [|by intros [? _]].
      intros [= H]. apply app_inv_head in H. discriminate H.
    + split; [|by intros [? _]]. intros _. exfalso. revert Ha.
      rewrite allowedByRobots_run.
      destruct (new_URL pf url) as [u|?]; [|done]. cbn zeta.
      destruct (fetch pf (origin u ++ "/robots.txt") _) as [res|?]; [|done].
      destruct (Response_ok res); [|done].
      by destruct (Response_text pf res).
  - intros res Hfetch Hrobots. apply Hpage; [|done].
    rewrite allowedByRobots_run.
    destruct Hrobots as [[e ->] | [(u & e & -> & Hr) | (u & robots & e & -> & Hr & Ht)]];
      [done | |]; cbn zeta; rewrite Hr; [done|].
    rewrite Ht. by destruct (Response_ok robots).
  - intros urls concurrency st Hreach Hthrown.
    pose proof (reachable_inv_collect (crawl_result pf userAgent) _ urls _
                  (crawlBatch_fn_spec pf userAgent) st Hreach) as (_ & Hnothrow & _).
    by rewrite Hthrown in Hnothrow.
Qed.

Lemma crawlBatch_per_url_outcome_witness :
  crawl_task (Fixture.platform Fixture.shops) Fixture.bot
    "https://shop.example/private/x" [] []
  = (Ok [CrawlResult.mk true 999 "https://shop.example/private/x"],
     [("https://shop.example/robots.txt", robots_headers Fixture.bot)])
  /\ fst (crawl_task (Fixture.platform Fixture.shops) Fixture.bot
            "https://down.example/page" [] [])
     = Ok [CrawlResult.mk false 0 "https://down.example/page"]
  /\ fst (crawl_task (Fixture.platform Samples.flaky) Fixture.bot
            "https://flaky.example/page" [] [])
     = Ok [CrawlResult.mk true 200 "https://flaky.example/page"].
Proof.
  split; [|split].
  - destruct (crawlBatch_per_url_outcome (Fixture.platform Fixture.shops) Fixture.bot
                "https://shop.example/private/x" [] []) as (_ & Hskip & _).
    destruct Hskip as (u & Hu & Hrun); [vm_compute; reflexivity|].
    vm_compute in Hu. inversion Hu; subst u. exact Hrun.
  - destruct (crawlBatch_per_url_outcome (Fixture.platform Fixture.shops) Fixture.bot
                "https://down.example/page" [] []) as (_ & _ & Hfail & _).
    apply (Hfail (PlatformExn "TypeError: network failure"));
      vm_compute; reflexivity.
  - destruct (crawlBatch_per_url_outcome (Fixture.platform Samples.flaky) Fixture.bot
                "https://flaky.example/page" [] [])
      as (_ & _ & _ & _ & _ & Habsorbed & _).
    apply (Habsorbed
             (mkResponse 200 (Some (JS.utf8_encode "<html>page</html>"))));
      [vm_compute; reflexivity|].
    right. left.
    exists (mkURL "https://flaky.example" "/page"),
      (PlatformExn "TypeError: network failure").
    split; vm_compute; reflexivity.
Defined.

(** *** Completion order *)

Section CollectingOrder.
Context {T R : Type}.
Variable g : T -> R.
Variable fn : T -> list R -> bool -> list R -> Prop.
Variables a b : T.

Hypothesis fn_spec :
  forall item s o s', fn item s o s' <-> o = true /\ s' = s ++ [g item].

Import PLimit.

Local Abbreviation reachable := (PLimit.reachable fn [a; b] (Int 2) []).

Lemma reach_step_eq st st' st'' :
  reachable st -> PLimit.step fn [a; b] (Int 2) st st' -> st' = st'' ->
  reachable st''.
Proof. intros Hreach Hstep <-. by apply (reach_step _ _ _ _ st). Qed.

(** A run on two items and two slots in which the second task settles
    first: both start, [b] settles, [a] settles, the reactions of [b]
    wake the loop, the loop ends, the reactions of [a] run, the call
    returns. *)
Lemma second_task_may_settle_first :
  exists st, reachable st /\ ctl st = Returned /\ store st = [g b; g a].
Proof.
  assert (H1 : reachable (mkState 1 [a] {[0]} ∅ {[0]} InLoop [])).
  { eapply reach_step_eq; [apply reach_init | by apply (step_start _ _ _ _ a) |].
    vm_compute. reflexivity. }
  assert (H2 : reachable (mkState 2 [a; b] {[0; 1]} ∅ {[0; 1]}
                                  (AwaitRace {[0; 1]} None) [])).
  { eapply reach_step_eq; [exact H1 | by apply (step_start _ _ _ _ b) |].
    vm_compute. reflexivity. }
  assert (H3 : reachable (mkState 2 [a; b] {[0]} {[1 := true]} {[0; 1]}
                                  (AwaitRace {[0; 1]} None) [g b])).
  { eapply reach_step_eq; [exact H2 | |].
    - apply (step_settle _ _ _ _ 1 b true [g b]); [set_solver | done |].
      by apply fn_spec.
    - vm_compute. reflexivity. }
  assert (H4 : reachable (mkState 2 [a; b] ∅ {[0 := true; 1 := true]} {[0; 1]}
                                  (AwaitRace {[0; 1]} None) [g b; g a])).
  { eapply reach_step_eq; [exact H3 | |].
    - apply (step_settle _ _ _ _ 0 a true [g b; g a]); [set_solver | done |].
      by apply fn_spec.
    - vm_compute. reflexivity. }
  assert (H5 : reachable (mkState 2 [a; b] ∅ {[0 := true]} {[0]}
                                  (AwaitRace {[0; 1]} (Some true)) [g b; g a])).
  { eapply reach_step_eq; [exact H4 | by apply (step_reactions _ _ _ _ 1 true) |].
    vm_compute. reflexivity. }
  assert (H6 : reachable (mkState 2 [a; b] ∅ {[0 := true]} {[0]} InLoop
                                  [g b; g a])).
  { eapply reach_step_eq;
      [exact H5 | by apply (step_race_resume _ _ _ _ {[0; 1]}) | reflexivity]. }
  assert (H7 : reachable (mkState 2 [a; b] ∅ {[0 := true]} {[0]}
                                  (AwaitAll {[0]} false) [g b; g a])).
  { eapply reach_step_eq; [exact H6 | by apply step_loop_end | reflexivity]. }
  assert (H8 : reachable (mkState 2 [a; b] ∅ ∅ ∅ (AwaitAll ∅ false) [g b; g a])).
  { eapply reach_step_eq; [exact H7 | by apply (step_reactions _ _ _ _ 0 true) |].
    vm_compute. reflexivity. }
  eexists. split; [|split]; cycle 1.
  - shelve.
  - shelve.
  - eapply reach_step_eq; [exact H8 | by apply step_all_return | reflexivity].
  Unshelve. all: reflexivity.
Qed.

End CollectingOrder.

(** The result list need not follow input order: with two slots the
    record of the second URL may come first. *)
Lemma crawlBatch_order_may_differ (pf : Platform) (userAgent u1 u2 : string) :
  crawlBatch_returns pf [u1; u2] userAgent (Int 2)
    [crawl_result pf userAgent u2; crawl_result pf userAgent u1].
Proof.
  apply (second_task_may_settle_first (crawl_result pf userAgent) _ u1 u2).
  apply crawlBatch_fn_spec.
Qed.

(** ** Enqueuers *)

Section QueueLoop.
Import QueueEnqueuer.

Lemma loop_unfold queue urls i :
  loop queue urls i =
  if lt_dec i (length urls) then
    (_ ← sendBatch queue (batch_at urls i); loop queue urls (i + chunkSize))
  else mret tt.
Proof.
  rewrite loop_equation_1. destruct (lt_dec i (length urls)); reflexivity.
Qed.

Lemma div_ceil_step (a c : nat) :
  0 < c -> 0 < a -> div_ceil a c = S (div_ceil (a - c) c).
Proof.
  intros Hc Ha. unfold div_ceil. destruct (le_lt_dec a c) as [Hle|Hgt].
  - replace (a - c) with 0 by lia. simpl.
    rewrite (Nat.div_small (c - 1) c) by lia.
    symmetry. apply (Nat.div_unique (a + c - 1) c 1 (a - 1)); lia.
  - replace (a + c - 1) with ((a - c + c - 1) + 1 * c) by lia.
    rewrite Nat.div_add by lia. lia.
Qed.

Lemma chunks_from_unfold urls i :
  i < length urls ->
  chunks_from urls i = batch_at urls i :: chunks_from urls (i + chunkSize).
Proof.
  intros Hi. unfold chunks_from.
  rewrite (div_ceil_step (length urls - i) chunkSize) by (unfold chunkSize; lia).
  replace (length urls - i - chunkSize) with (length urls - (i + chunkSize)) by lia.
  cbn [seq map]. f_equal; [f_equal; lia|].
  rewrite <- seq_shift, map_map. apply map_ext. intros k. f_equal. lia.
Qed.

Lemma chunks_from_end urls i : length urls <= i -> chunks_from urls i = [].
Proof.
  intros Hi. unfold chunks_from. replace (length urls - i) with 0 by lia.
  reflexivity.
Qed.

(** The loop sends the batches cut every [chunkSize] URLs, in order. *)
Lemma loop_send_all queue urls i :
  loop queue urls i = send_all queue (chunks_from urls i).
Proof.
  remember (length urls - i) as n eqn:Hn. revert i Hn.
  induction n as [n IH] using lt_wf_ind. intros i ->.
  rewrite loop_unfold. destruct (lt_dec i (length urls)) as [Hlt|Hge].
  - rewrite chunks_from_unfold by done. cbn [send_all].
    rewrite (IH (length urls - (i + chunkSize))); [done | | done].
    unfold chunkSize. lia.
  - rewrite chunks_from_end by lia. reflexivity.
Qed.

Lemma concat_chunks_from urls i :
  concat (chunks_from urls i) = map mkMessage (drop i urls).
Proof.
  remember (length urls - i) as n eqn:Hn. revert i Hn.
  induction n as [n IH] using lt_wf_ind. intros i ->.
  destruct (lt_dec i (length urls)) as [Hlt|Hge].
  - rewrite chunks_from_unfold by done. cbn [concat].
    rewrite (IH (length urls - (i + chunkSize))); [| unfold chunkSize; lia | done].
    unfold batch_at, Array_slice. rewrite <- map_app. f_equal.
    replace (i + chunkSize - i) with chunkSize by lia.
    rewrite <- drop_drop. apply take_drop.
  - rewrite chunks_from_end by lia. rewrite drop_ge by lia. reflexivity.
Qed.

Lemma chunks_from_sizes urls i :
  Forall (fun b : Batch => 0 < length b <= chunkSize) (chunks_from urls i).
Proof.
  remember (length urls - i) as n eqn:Hn. revert i Hn.
  induction n as [n IH] using lt_wf_ind. intros i ->.
  destruct (lt_dec i (length urls)) as [Hlt|Hge].
  - rewrite chunks_from_unfold by done. constructor.
    + unfold batch_at, Array_slice. rewrite length_map, length_take, length_drop.
      unfold chunkSize. lia.
    + apply (IH (length urls - (i + chunkSize))); [unfold chunkSize; lia | done].
  - rewrite chunks_from_end by lia. constructor.
Qed.

Lemma send_all_app queue l1 l2 log :
  send_all queue (l1 ++ l2) log =
  match send_all queue l1 log with
  | (Ok _, log') => send_all queue l2 log'
  | (Throw e, log') => (Throw e, log')
  end.
Proof.
  revert log. induction l1 as [|b l1 IH]; intros log; [done|].
  cbn [app send_all]. unfold mbind, Eff_bind.
  destruct (sendBatch queue b log) as [[[]|e] log']; [apply IH | done].
Qed.

(** Batches the queue accepts are all logged, in order. *)
Lemma send_all_accepted queue batches log :
  (forall j b, batches !! j = Some b -> queue (log ++ take j batches) b = Ok tt) ->
  send_all queue batches log = (Ok tt, log ++ batches).
Proof.
  revert log. induction batches as [|b rest IH]; intros log Hacc.
  - cbn. by rewrite app_nil_r.
  - cbn [send_all]. unfold mbind, Eff_bind, sendBatch.
    pose proof (Hacc 0 b eq_refl) as H0. cbn in H0. rewrite app_nil_r in H0.
    rewrite H0. rewrite IH.
    + by rewrite <- app_assoc.
    + intros j b' Hj. specialize (Hacc (S j) b' Hj). cbn in Hacc.
      by rewrite <- app_assoc.
Qed.

(** A result of [send_all] that is not a throw logs every batch. *)
Lemma send_all_ok queue batches log log' :
  send_all queue batches log = (Ok tt, log') -> log' = log ++ batches.
Proof.
  revert log. induction batches as [|b rest IH]; intros log H.
  - cbn in H. injection H as <-. by rewrite app_nil_r.
  - cbn [send_all] in H. unfold mbind, Eff_bind, sendBatch in H.
    destruct (queue log b) as [[]|e]; [|discriminate].
    apply IH in H. by rewrite <- app_assoc in H.
Qed.

End QueueLoop.

(** C9: the inline enqueuer returns the number of URLs it was given,
    whatever the crawls gave, and it does return.  The queue enqueuer,
    when no send is rejected, returns the number of URLs after sending the
    batches cut every 1000 URLs, in order: [ceil(length / 1000)] batches
    of between 1 and 1000 messages that together carry the URLs in order. *)
Theorem enqueueMany_counts (pf : Platform) (userAgent : string)
        (concurrency : number) (urls : list string)
        (queue : QueueEnqueuer.Queue) (log : list QueueEnqueuer.Batch) :
  ((forall console count,
       InlineEnqueuer.enqueueMany_returns pf userAgent concurrency urls console count ->
       count = length urls)
   /\ exists console,
       InlineEnqueuer.enqueueMany_returns pf userAgent concurrency urls console
                                          (length urls))
  /\ ((forall count log',
          QueueEnqueuer.enqueueMany queue urls log = (Ok count, log') ->
          count = length urls /\ log' = log ++ chunks urls)
      /\ ((forall l b, queue l b = Ok tt) ->
          QueueEnqueuer.enqueueMany queue urls log
          = (Ok (length urls), log ++ chunks urls))
      /\ length (chunks urls) = div_ceil (length urls) 1000
      /\ concat (chunks urls) = map QueueEnqueuer.mkMessage urls
      /\ Forall (fun b : QueueEnqueuer.Batch => 0 < length b <= 1000) (chunks urls)).
Proof.
  split; [split|split; [|split; [|split; [|split]]]].
  - intros console count (results & _ & Hafter). by injection Hafter as _ <-.
  - destruct (crawlBatch_does_return pf urls userAgent concurrency)
      as [results Hreturns].
    exists (InlineEnqueuer.summary urls results), results. done.
  - intros count log' H. unfold QueueEnqueuer.enqueueMany, mbind, Eff_bind in H.
    rewrite loop_send_all in H. fold (chunks urls) in H.
    destruct (send_all queue (chunks urls) log) as [[[]|e] log1] eqn:Hsend;
      [|discriminate].
    apply send_all_ok in Hsend. unfold mret, Eff_ret in H. by injection H as <- <-.
  - intros Haccept. unfold QueueEnqueuer.enqueueMany, mbind, Eff_bind.
    rewrite loop_send_all. fold (chunks urls).
    rewrite send_all_accepted; [done|]. intros j b _. apply Haccept.
  - unfold chunks, chunks_from. rewrite length_map, length_seq.
    by rewrite Nat.sub_0_r.
  - unfold chunks. by rewrite concat_chunks_from.
  - apply chunks_from_sizes.
Qed.

Lemma enqueueMany_counts_witness :
  QueueEnqueuer.enqueueMany (fun _ _ => Ok tt) (repeat "u" 2500) []
  = (Ok 2500, [batch_at (repeat "u" 2500) 0; batch_at (repeat "u" 2500) 1000;
               batch_at (repeat "u" 2500) 2000]).
Proof.
  destruct (enqueueMany_counts (Fixture.platform Fixture.shops) Fixture.bot (Int 5)
              (repeat "u" 2500) (fun _ _ => Ok tt) [])
    as (_ & _ & Hqueue & _).
  rewrite Hqueue; [|reflexivity]. vm_compute. reflexivity.
Defined.

(** The count of the inline enqueuer is not the count of successes: one
    URL on a host that is down gives count 1 with no successful crawl. *)
Lemma inline_count_is_not_success_count :
  InlineEnqueuer.enqueueMany_returns (Fixture.platform Fixture.shops) Fixture.bot
    (Int 5) ["https://down.example/page"] "Crawled inline: 1 urls (ok=0)" 1.
Proof.
  destruct (crawlBatch_does_return (Fixture.platform Fixture.shops)
              ["https://down.example/page"] Fixture.bot (Int 5))
    as [results Hreturns].
  exists results. split; [done|].
  pose proof (crawlBatch_result _ _ _ _ _ Hreturns) as Hperm.
  apply Permutation_singleton_r in Hperm. subst results.
  vm_compute. reflexivity.
Qed.

(** C10: the queue enqueuer is not atomic.  If the queue accepts the
    first [k] batches and rejects the next one with [e], [enqueueMany]
    throws [e], returns no count, and the [k] accepted batches stay sent. *)
Theorem enqueueMany_partial_dispatch (queue : QueueEnqueuer.Queue)
        (urls : list string) (log : list QueueEnqueuer.Batch)
        (k : nat) (b : QueueEnqueuer.Batch) (e : Exn) :
  chunks urls !! k = Some b ->
  (forall j b', j < k -> chunks urls !! j = Some b' ->
                queue (log ++ take j (chunks urls)) b' = Ok tt) ->
  queue (log ++ take k (chunks urls)) b = Throw e ->
  QueueEnqueuer.enqueueMany queue urls log = (Throw e, log ++ take k (chunks urls)).
Proof.
  intros Hk Haccept Hreject.
  unfold QueueEnqueuer.enqueueMany, mbind, Eff_bind.
  rewrite loop_send_all. fold (chunks urls).
  rewrite <- (take_drop_middle (chunks urls) k b Hk) at 1.
  rewrite send_all_app, send_all_accepted.
  - cbn [send_all]. unfold mbind, Eff_bind, QueueEnqueuer.sendBatch.
    by rewrite Hreject.
  - intros j b' Hj. apply lookup_take_Some in Hj as [Hj Hlt].
    rewrite take_take. replace (j `min` k) with j by lia. by apply Haccept.
Qed.

Lemma enqueueMany_partial_dispatch_witness :
  QueueEnqueuer.enqueueMany
    (fun sent _ => if Nat.eqb (length sent) 2
                   then Throw (PlatformExn "queue unavailable") else Ok tt)
    (repeat "u" 2500) []
  = (Throw (PlatformExn "queue unavailable"),
     [batch_at (repeat "u" 2500) 0; batch_at (repeat "u" 2500) 1000]).
Proof.
  apply (enqueueMany_partial_dispatch _ (repeat "u" 2500) [] 2
           (batch_at (repeat "u" 2500) 2000)).
  - vm_compute. reflexivity.
  - intros j b' Hj _. destruct j as [|[|j]]; [reflexivity | reflexivity | lia].
  - reflexivity.
Defined.

(** * Further properties *)

(** ** parseInt, by example *)

Lemma parseInt_examples :
  parseInt "40" = Int 40
  /\ parseInt "  -7 urls" = Int (-7)
  /\ parseInt [160; 53]%N = Int 5
  /\ parseInt "forty" = NaN
  /\ parseInt "9007199254740993" = Int 9007199254740992
  /\ parseInt (repeat 57%N 400) = PInf.
Proof. repeat split; vm_compute; reflexivity. Qed.

(** ** limitList and inferSitemapFromParams *)

Lemma limitList_take {A : Type} (xs : list A) (max : number) :
  Worker.limitList xs max = take (limit_count max (length xs)) xs.
Proof.
  unfold Worker.limitList, Array_slice_to, limit_count, Int.
  destruct max as [|q| |]; cbn [Math_max].
  - done.
  - change (inject_Z 0) with 0%Q. destruct (Qle_bool 0 q) eqn:Hq.
    + unfold truncate. rewrite Hq. apply Qle_bool_iff, Qfloor_resp_le in Hq.
      change (Qfloor 0) with 0%Z in Hq.
      by replace (Qfloor q <? 0)%Z with false by (symmetry; apply Z.ltb_ge; lia).
    + assert (Hneg : (Qfloor q < 0)%Z).
      { destruct (Z_lt_le_dec (Qfloor q) 0) as [|Hge]; [done|]. exfalso.
        assert (Hle : (0 <= q)%Q).
        { eapply Qle_trans; [|apply Qfloor_le]. by rewrite <- (Zle_Qle 0). }
        apply Qle_bool_iff in Hle. congruence. }
      change (truncate 0) with 0%Z. cbn [Z.ltb Z.compare Z.to_nat].
      replace (Z.to_nat (Qfloor q)) with 0 by lia. done.
  - symmetry. by apply take_ge.
  - done.
Qed.

Lemma limitList_length {A : Type} (xs : list A) (max : number) :
  length (Worker.limitList xs max)
  = Nat.min (length xs) (limit_count max (length xs)).
Proof. rewrite limitList_take, length_take. lia. Qed.

(** X2: [limitList] returns the first [max] elements of the list, [max]
    being cut to its integer part: all of them when there are fewer or
    [max] is [+Infinity], and none when [max] is negative or [NaN]; it
    never counts from the end of the list. *)
Theorem limitList_is_prefix {A : Type} (xs : list A) (max : number) :
  Worker.limitList xs max = take (limit_count max (length xs)) xs
  /\ length (Worker.limitList xs max)
     = Nat.min (length xs) (limit_count max (length xs)).
Proof. split; [apply limitList_take | apply limitList_length]. Qed.

Lemma strip_trailing_slash_added (d : string) :
  strip_trailing_slash (d ++ "/") = d.
Proof.
  induction d as [|c d IH]; [reflexivity|].
  change ((c :: d) ++ "/") with (c :: (d ++ "/")).
  cbn [strip_trailing_slash]. rewrite IH.
  destruct d; reflexivity.
Qed.

Lemma strip_trailing_slash_none (d : string) :
  (forall pre, d <> pre ++ "/") -> strip_trailing_slash d = d.
Proof.
  induction d as [|c d IH]; intros Hno; [reflexivity|].
  cbn [strip_trailing_slash]. destruct d as [|c' d].
  - destruct (N.eqb_spec c 47) as [->|]; [|done].
    by destruct (Hno "").
  - f_equal. apply IH. intros pre Hpre. apply (Hno (c :: pre)).
    rewrite Hpre. reflexivity.
Qed.

(** X3: [inferSitemapFromParams] never returns the empty string.  A
    non-empty [sitemap] parameter is returned as it is; otherwise a
    non-empty [domain] parameter gives [https://<domain>/sitemap.xml], one
    trailing slash of the domain being dropped, so that [d] and [d/] give
    the same URL; otherwise the configured default, or the built-in one
    when that is empty. *)
Theorem inferSitemapFromParams_choice (url : Worker.RequestURL) (env : Worker.Env) :
  Worker.inferSitemapFromParams url env <> ""
  /\ (forall s, Worker.searchParams_get url "sitemap" = Some s -> s <> "" ->
                Worker.inferSitemapFromParams url env = s)
  /\ (nonempty (Worker.searchParams_get url "sitemap") = None ->
      (forall d,
          (Worker.searchParams_get url "domain" = Some (d ++ "/")
           \/ (Worker.searchParams_get url "domain" = Some d /\ d <> ""
               /\ forall pre, d <> pre ++ "/")) ->
          Worker.inferSitemapFromParams url env = "https://" ++ d ++ "/sitemap.xml")
      /\ (nonempty (Worker.searchParams_get url "domain") = None ->
          Worker.inferSitemapFromParams url env =
            if JS.eqb (Worker.DEFAULT_SITEMAP env) ""
            then "https://megabyte.space/sitemap.xml"
            else Worker.DEFAULT_SITEMAP env)).
Proof.
  unfold Worker.inferSitemapFromParams. split; [|split].
  - destruct (Worker.searchParams_get url "sitemap") as [s|]; simpl.
    + destruct (string_eqb_spec s ""); [|done].
      destruct (nonempty _); [done|]. simpl.
      by destruct (string_eqb_spec (Worker.DEFAULT_SITEMAP env) "").
    + destruct (nonempty _); [done|]. simpl.
      by destruct (string_eqb_spec (Worker.DEFAULT_SITEMAP env) "").
  - intros s -> Hs. simpl. by destruct (string_eqb_spec s "").
  - intros ->. split.
    + intros d [-> | (-> & Hd & Hno)]; simpl.
      * replace (JS.eqb (d ++ "/") "") with false by (by destruct d).
        by rewrite strip_trailing_slash_added.
      * destruct (string_eqb_spec d ""); [done|].
        by rewrite strip_trailing_slash_none.
    + intros ->. reflexivity.
Qed.

Lemma inferSitemapFromParams_choice_witness :
  Worker.inferSitemapFromParams
    (Worker.mkRequestURL "/crawl"
       (fun k => if JS.eqb k "domain" then Some "example.com/" else None))
    (Worker.mkEnv "" Fixture.bot None None None None)
  = "https://example.com/sitemap.xml".
Proof.
  destruct (inferSitemapFromParams_choice
              (Worker.mkRequestURL "/crawl"
                 (fun k => if JS.eqb k "domain" then Some "example.com/" else None))
              (Worker.mkEnv "" Fixture.bot None None None None))
    as (_ & _ & H).
  destruct H as [H _]; [reflexivity|].
  apply (H "example.com"). left. reflexivity.
Defined.

(** ** The routes *)

Lemma or_default_unset (v : option string) (d : string) :
  v = None \/ v = Some "" -> or_default v d = d.
Proof. by intros [-> | ->]. Qed.

(** X4: the [/preview] route reports the number of URLs discovered and
    shows the first of them, in discovery order, up to the preview limit:
    the first 50 when [PREVIEW_LIMIT] is unset or empty. *)
Theorem preview_shows_prefix (pf : Platform) (env : Worker.Env) (fuel : nat)
        (url : Worker.RequestURL) (data : Worker.PreviewData) :
  Worker.preview pf env fuel url = Some (Ok data) ->
  exists urls,
    resolve pf (Worker.USER_AGENT env) fuel (Worker.inferSitemapFromParams url env)
    = Some (Ok urls)
    /\ Worker.pv_total data = length urls
    /\ Worker.pv_sample data
       = take (limit_count (Worker.preview_limit env) (length urls)) urls
    /\ (Worker.PREVIEW_LIMIT env = None \/ Worker.PREVIEW_LIMIT env = Some "" ->
        Worker.pv_sample data = take 50 urls).
Proof.
  unfold Worker.preview. intros H.
  destruct (resolve pf _ fuel _) as [[urls|e]|]; [|done|done].
  injection H as <-. exists urls. cbn [Worker.pv_total Worker.pv_sample].
  pose proof (limitList_take urls (Worker.preview_limit env)) as Htake.
  repeat split; [done|]. intros Hunset. rewrite Htake.
  unfold Worker.preview_limit. by rewrite or_default_unset.
Qed.

Lemma preview_shows_prefix_witness :
  exists urls,
    resolve (Fixture.platform Fixture.site) Fixture.bot 2 "https://a.example/index.xml"
    = Some (Ok urls)
    /\ 5 = length urls
    /\ [JS.Str "https://a.example/p1"; JS.Str "https://a.example/p2"]
       = take (limit_count (Int 2) (length urls)) urls
    /\ (Some "2" = None \/ Some "2" = Some "" ->
        [JS.Str "https://a.example/p1"; JS.Str "https://a.example/p2"] = take 50 urls).
Proof.
  apply (preview_shows_prefix (Fixture.platform Fixture.site)
           (Worker.mkEnv "https://a.example/index.xml" Fixture.bot None None
                         (Some "2") None)
           2 (Worker.mkRequestURL "/preview" (fun _ => None))
           (Worker.mkPreview "https://a.example/index.xml" 5
              [JS.Str "https://a.example/p1"; JS.Str "https://a.example/p2"])).
  vm_compute. reflexivity.
Defined.

(** What [QueueEnqueuer.enqueueMany] leaves when it returns. *)
Lemma queue_enqueueMany_ok queue urls log count log' :
  QueueEnqueuer.enqueueMany queue urls log = (Ok count, log') ->
  count = length urls /\ log' = log ++ chunks urls.
Proof.
  intros H. unfold QueueEnqueuer.enqueueMany, mbind, Eff_bind in H.
  rewrite loop_send_all in H. fold (chunks urls) in H.
  destruct (send_all queue (chunks urls) log) as [[[]|e] log1] eqn:Hsend;
    [|discriminate].
  apply send_all_ok in Hsend. unfold mret, Eff_ret in H. by injection H as <- <-.
Qed.

Lemma chunks_length urls :
  length (chunks urls) = div_ceil (length urls) QueueEnqueuer.chunkSize.
Proof.
  unfold chunks, chunks_from. rewrite length_map, length_seq. by rewrite Nat.sub_0_r.
Qed.

(** X5: the [/crawl] route dispatches the first [MAX_URLS_PER_RUN]
    discovered URLs and reports how many: never more than were discovered.
    Without a queue binding the queue is left alone; with one, the queue
    receives the batches of those URLs and nothing else.  With the setting
    unset or empty at most 40 URLs are dispatched, in at most one batch;
    with a setting that does not parse, none. *)
Theorem crawl_dispatch_bounded (pf : Platform) (env : Worker.Env) (fuel : nat)
        (url : Worker.RequestURL) (log : list QueueEnqueuer.Batch)
        (data : Worker.CrawlData) (log' : list QueueEnqueuer.Batch) :
  Worker.crawl_returns pf env fuel url log data log' ->
  Worker.cr_dispatched data
  = Nat.min (Worker.cr_discovered data)
            (limit_count (Worker.max_per_run env) (Worker.cr_discovered data))
  /\ (exists urls,
         resolve pf (Worker.USER_AGENT env) fuel
                 (Worker.inferSitemapFromParams url env) = Some (Ok urls)
         /\ Worker.cr_discovered data = length urls
         /\ match Worker.CRAWL_QUEUE env with
            | None => log' = log /\ Worker.cr_mode data = "inline"
            | Some _ =>
                log' = log ++ chunks (Worker.url_strings
                                        (take (limit_count (Worker.max_per_run env)
                                                           (length urls)) urls))
                /\ Worker.cr_mode data = "queued"
            end)
  /\ (Worker.MAX_URLS_PER_RUN env = None \/ Worker.MAX_URLS_PER_RUN env = Some "" ->
      Worker.cr_dispatched data <= 40 /\ length log' <= S (length log))
  /\ (Worker.max_per_run env = NaN ->
      Worker.cr_dispatched data = 0 /\ log' = log).
Proof.
  intros (urls & accepted & Hresolve & Henq & ->).
  cbn [Worker.cr_dispatched Worker.cr_discovered Worker.cr_mode].
  pose proof (limitList_take urls (Worker.max_per_run env)) as Htake.
  pose proof (limitList_length urls (Worker.max_per_run env)) as Hlen.
  cbv zeta in Henq. rewrite Htake in Henq.
  set (batch := take (limit_count (Worker.max_per_run env) (length urls)) urls) in *.
  assert (Hbatch : length (Worker.url_strings batch)
                   = Nat.min (length urls)
                             (limit_count (Worker.max_per_run env) (length urls))).
  { unfold Worker.url_strings. rewrite length_map. unfold batch.
    rewrite length_take. lia. }
  assert (Hacc : accepted = length (Worker.url_strings batch)
                 /\ match Worker.CRAWL_QUEUE env with
                    | None => log' = log
                    | Some _ => log' = log ++ chunks (Worker.url_strings batch)
                    end).
  { unfold Worker.enqueueMany_returns, Worker.makeEnqueuer in Henq.
    destruct (Worker.CRAWL_QUEUE env) as [queue|].
    - by apply queue_enqueueMany_ok in Henq.
    - destruct Henq as [(console & results & _ & Hafter) ->].
      by injection Hafter as _ <-. }
  destruct Hacc as [-> Hlog]. split; [|split; [|split]].
  - done.
  - exists urls. split; [done|]. split; [done|].
    destruct (Worker.CRAWL_QUEUE env); by split.
  - intros Hunset.
    assert (Hlim : limit_count (Worker.max_per_run env) (length urls) = 40).
    { unfold Worker.max_per_run. by rewrite or_default_unset. }
    rewrite Hlim in Hbatch. split; [rewrite Hbatch; lia|].
    destruct (Worker.CRAWL_QUEUE env); subst log'; [|lia].
    rewrite length_app, chunks_length, Hbatch.
    assert (div_ceil (Nat.min (length urls) 40) QueueEnqueuer.chunkSize < 2); [|lia].
    unfold div_ceil, QueueEnqueuer.chunkSize.
    apply Nat.Div0.div_lt_upper_bound. lia.
  - intros Hnan. rewrite Hnan in Hbatch. cbn [limit_count] in Hbatch.
    split; [lia|]. destruct (Worker.CRAWL_QUEUE env); [|done].
    subst log'. unfold batch. rewrite Hnan. cbn [limit_count].
    rewrite take_0. by rewrite app_nil_r.
Qed.

Lemma crawl_dispatch_bounded_witness :
  exists data log',
    Worker.crawl_returns (Fixture.platform Fixture.site)
      (Worker.mkEnv "https://a.example/index.xml" Fixture.bot None (Some "3") None
                    (Some (fun _ _ => Ok tt)))
      2 (Worker.mkRequestURL "/crawl" (fun _ => None)) [] data log'
    /\ Worker.cr_discovered data = 5
    /\ Worker.cr_dispatched data = 3.
Proof.
  exists (Worker.mkCrawl "https://a.example/index.xml" 5 3 "queued"),
    [map QueueEnqueuer.mkMessage
         ["https://a.example/p1"; "https://a.example/p2"; "https://a.example/p3"]].
  assert (H : Worker.crawl_returns (Fixture.platform Fixture.site)
                (Worker.mkEnv "https://a.example/index.xml" Fixture.bot None
                              (Some "3") None (Some (fun _ _ => Ok tt)))
                2 (Worker.mkRequestURL "/crawl" (fun _ => None)) []
                (Worker.mkCrawl "https://a.example/index.xml" 5 3 "queued")
                [map QueueEnqueuer.mkMessage
                     ["https://a.example/p1"; "https://a.example/p2";
                      "https://a.example/p3"]]).
  { exists [JS.Str "https://a.example/p1"; JS.Str "https://a.example/p2";
            JS.Str "https://a.example/p3"; JS.Str "https://a.example/p1";
            JS.Str "https://a.example/p4"], 3.
    split; [vm_compute; reflexivity|]. split; [vm_compute; reflexivity | reflexivity]. }
  split; [exact H|]. split; [reflexivity|].
  destruct (crawl_dispatch_bounded _ _ _ _ _ _ _ H) as [Hd _]. exact Hd.
Defined.

(** ** pLimit: a limit that is no number, a task that rejects *)

Lemma start_all_NaN {T Store : Type} (fn : T -> Store -> bool -> Store -> Prop)
      (items : list T) (s0 : Store) (k : nat) :
  k <= length items ->
  exists st, PLimit.reachable fn items NaN s0 st
             /\ PLimit.started st = k /\ PLimit.ctl st = PLimit.InLoop
             /\ PLimit.running st = set_seq 0 k.
Proof.
  induction k as [|k IH]; intros Hk.
  - exists (PLimit.init s0). repeat split. constructor.
  - destruct IH as (st & Hreach & Hstarted & Hc & Hrun); [lia|].
    destruct (lookup_lt_is_Some_2 items k) as [item Hitem]; [lia|].
    rewrite <- Hstarted in Hitem.
    eexists. split; [eapply PLimit.reach_step; [exact Hreach |
                                             by apply PLimit.step_start]|].
    cbn [PLimit.started PLimit.ctl PLimit.running size_ge].
    rewrite Hstarted, Hrun. repeat split.
    rewrite set_seq_S_end_union_L. set_solver.
Qed.

(** X6: when the concurrency setting does not parse, [Math.max(1, NaN)] is
    [NaN] and [pLimit] bounds nothing: the loop never waits for a slot, and
    the tasks of all items can be running at once. *)
Theorem pLimit_unbounded_on_NaN {T Store : Type}
        (fn : T -> Store -> bool -> Store -> Prop) (items : list T) (s0 : Store) :
  Math_max (Int 1) NaN = NaN
  /\ (forall st, PLimit.reachable fn items NaN s0 st ->
                 forall snap w, PLimit.ctl st <> PLimit.AwaitRace snap w)
  /\ exists st, PLimit.reachable fn items NaN s0 st
                /\ size (PLimit.running st) = length items.
Proof.
  split; [reflexivity|]. split.
  - apply pLimit_NaN_never_suspends.
  - destruct (start_all_NaN fn items s0 (length items)) as (st & Hreach & _ & _ & Hrun);
      [lia|].
    exists st. split; [done|]. rewrite Hrun. apply size_set_seq.
Qed.

Lemma pLimit_unbounded_on_NaN_witness :
  PLimit.ctl (PLimit.init (T:=string) tt) <> PLimit.AwaitRace ∅ None.
Proof.
  destruct (pLimit_unbounded_on_NaN
              (fun (_ : string) (s : unit) (o : bool) (s' : unit) => s' = s)
              ["a"; "b"] tt) as (_ & H & _).
  apply (H (PLimit.init tt)). apply PLimit.reach_init.
Defined.

(** X7: once [pLimit] has thrown it starts no further item, and once it
    has returned nothing of the call is left to happen.  With limit 1, if
    the task of the first item may reject, the call can throw with only
    that item ever started. *)
Theorem pLimit_rejection_stops_the_loop {T Store : Type}
        (fn : T -> Store -> bool -> Store -> Prop) (items : list T)
        (limit : number) (s0 : Store) :
  (forall st st',
      PLimit.ctl st = PLimit.Thrown -> PLimit.step fn items limit st st' ->
      PLimit.ctl st' = PLimit.Thrown /\ PLimit.launched st' = PLimit.launched st)
  /\ (forall st st',
         PLimit.reachable fn items limit s0 st ->
         PLimit.ctl st = PLimit.Returned ->
         ~ PLimit.step fn items limit st st')
  /\ (forall a rest s1,
         items = a :: rest -> limit = Int 1 -> fn a s0 false s1 ->
         exists st, PLimit.reachable fn items limit s0 st
                    /\ PLimit.ctl st = PLimit.Thrown
                    /\ PLimit.launched st = [a]).
Proof.
  split; [|split].
  - intros st st' Hc Hstep.
    destruct Hstep as [st item Hc' Hitem | st Hc' Hitem | st i item o s' Hi Hitem Hfn
                      | st i o Hi | st snap Hc' | st snap Hc' | st Hc' | st pending Hc'];
      cbn [PLimit.ctl PLimit.launched]; try congruence; try done.
    by rewrite Hc.
  - intros st st' Hreach Hc Hstep.
    pose proof (reachable_inv_basic fn items limit s0 st Hreach)
      as (Hex & _ & _ & _ & _ & Hctl).
    rewrite Hc in Hctl. destruct Hctl as [_ Hempty]. rewrite Hex in Hempty.
    destruct Hstep as [st item Hc' Hitem | st Hc' Hitem | st i item o s' Hi Hitem Hfn
                      | st i o Hi | st snap Hc' | st snap Hc' | st Hc' | st pending Hc'];
      try congruence.
    + set_solver.
    + assert (i ∈ dom (PLimit.settled st)) by (apply elem_of_dom; eauto). set_solver.
  - intros a rest s1 -> -> Hfn.
    assert (H1 : PLimit.reachable fn (a :: rest) (Int 1) s0
                   (PLimit.mkState 1 [a] {[0]} ∅ {[0]}
                                   (PLimit.AwaitRace {[0]} None) s0)).
    { eapply reachable_step_eq; [apply PLimit.reach_init
                                | by apply (PLimit.step_start _ _ _ _ a) |].
      vm_compute. reflexivity. }
    assert (H2 : PLimit.reachable fn (a :: rest) (Int 1) s0
                   (PLimit.mkState 1 [a] ∅ {[0 := false]} {[0]}
                                   (PLimit.AwaitRace {[0]} None) s1)).
    { eapply reachable_step_eq; [exact H1 | |].
      - apply (PLimit.step_settle _ _ _ _ 0 a false s1); [set_solver | done | done].
      - vm_compute. reflexivity. }
    assert (H3 : PLimit.reachable fn (a :: rest) (Int 1) s0
                   (PLimit.mkState 1 [a] ∅ ∅ ∅
                                   (PLimit.AwaitRace {[0]} (Some false)) s1)).
    { eapply reachable_step_eq;
        [exact H2 | by apply (PLimit.step_reactions _ _ _ _ 0 false) |].
      vm_compute. reflexivity. }
    eexists. split; [eapply PLimit.reach_step; [exact H3 |
                                             by eapply PLimit.step_race_throw]|].
    split; reflexivity.
Qed.

Lemma pLimit_rejection_stops_the_loop_witness :
  exists st : @PLimit.state string unit,
    PLimit.reachable (fun _ s o s' => o = false /\ s' = s) ["a"; "b"] (Int 1) tt st
    /\ PLimit.ctl st = PLimit.Thrown
    /\ PLimit.launched st = ["a"].
Proof.
  destruct (pLimit_rejection_stops_the_loop
              (fun (_ : string) (s : unit) o s' => o = false /\ s' = s)
              ["a"; "b"] (Int 1) tt) as (_ & _ & H).
  apply (H "a" ["b"] tt); [reflexivity | reflexivity | by split].
Defined.

(** ** More on robots.txt *)

Lemma robots_disallows_lines pf userAgent text :
  robots_disallows pf userAgent text = disallows_of_lines pf userAgent (robots_lines text).
Proof. reflexivity. Qed.

(** X8: lines that carry no directive (blank lines, comments, lines
    without a colon), directives other than [User-agent] and [Disallow]
    (such as [Allow], [Sitemap], [Crawl-delay]) and [Disallow] lines with
    an empty value change nothing: with or without them, anywhere in the
    file, the same rules are collected. *)
Theorem robots_other_lines_ignored (pf : Platform) (userAgent : string)
        (l1 l2 : list string) (line : string) :
  (directive pf line = None
   \/ exists k v, directive pf line = Some (k, v)
                  /\ k <> "user-agent" /\ (k <> "disallow" \/ v = "")) ->
  disallows_of_lines pf userAgent (l1 ++ line :: l2)
  = disallows_of_lines pf userAgent (l1 ++ l2).
Proof.
  intros Hline. unfold disallows_of_lines. rewrite !fold_left_app. cbn [fold_left].
  destruct (fold_left (robots_line pf userAgent) l1 (false, [])) as [inStar ds].
  replace (robots_line pf userAgent (inStar, ds) line) with (inStar, ds); [done|].
  rewrite robots_line_directive.
  destruct Hline as [-> | (k & v & -> & Hua & Hdis)]; [done|].
  destruct (string_eqb_spec k "user-agent"); [done|].
  destruct Hdis as [Hk | ->].
  - destruct (string_eqb_spec k "disallow"); [done|]. by rewrite andb_false_r.
  - by destruct (inStar && JS.eqb k "disallow").
Qed.

Lemma robots_other_lines_ignored_witness :
  disallows_of_lines (Fixture.platform []) Fixture.bot
    (["User-agent: *"] ++ "Allow: /private/open" :: ["Disallow: /private"])
  = disallows_of_lines (Fixture.platform []) Fixture.bot
      (["User-agent: *"] ++ ["Disallow: /private"]).
Proof.
  apply robots_other_lines_ignored. right. exists "allow", "/private/open".
  split; [vm_compute; reflexivity|]. split; [discriminate | left; discriminate].
Defined.

Lemma disallow_values_cons pf line body :
  disallow_values pf (line :: body)
  = match directive pf line with
    | Some (k, v) =>
        if JS.eqb k "disallow" && negb (JS.eqb v "")
        then v :: disallow_values pf body else disallow_values pf body
    | None => disallow_values pf body
    end.
Proof.
  unfold disallow_values. cbn [omap list_omap].
  destruct (directive pf line) as [[k v]|]; [|done].
  by destruct (JS.eqb k "disallow" && negb (JS.eqb v "")).
Qed.

Lemma robots_fold_no_user_agent pf userAgent body inStar ds :
  Forall (fun l => ~ is_user_agent_line pf l) body ->
  fold_left (robots_line pf userAgent) body (inStar, ds)
  = (inStar, ds ++ if inStar then disallow_values pf body else []).
Proof.
  revert ds. induction body as [|line body IH]; intros ds Hbody.
  - cbn. destruct inStar; by rewrite app_nil_r.
  - inversion Hbody as [|? ? Hline Hrest]; subst. cbn [fold_left].
    rewrite robots_line_directive, disallow_values_cons.
    destruct (directive pf line) as [[k v]|] eqn:Hdir.
    + destruct (string_eqb_spec k "user-agent") as [->|_].
      { exfalso. apply Hline. by exists v. }
      destruct inStar; cbn [andb].
      * destruct (JS.eqb k "disallow"); cbn [andb].
        -- destruct (negb (JS.eqb v "")).
           ++ rewrite IH by done. by rewrite <- app_assoc.
           ++ by rewrite IH.
        -- by rewrite IH.
      * by rewrite IH.
    + by rewrite IH.
Qed.

(** X9: each [User-agent] line decides alone whether the rules that
    follow it, up to the next [User-agent] line, are collected: they are
    when its value is the wildcard or, put in lower case, the agent's
    name in lower case, whatever the [User-agent] lines before it said,
    and they are not otherwise, even if the line just before selected the
    agent. *)
Theorem robots_user_agent_line_decides (pf : Platform) (userAgent : string)
        (pre body : list string) (line v : string) :
  directive pf line = Some ("user-agent", v) ->
  Forall (fun l => ~ is_user_agent_line pf l) body ->
  disallows_of_lines pf userAgent (pre ++ line :: body)
  = disallows_of_lines pf userAgent pre
    ++ (if applies_to pf userAgent v then disallow_values pf body else []).
Proof.
  intros Hdir Hbody. unfold disallows_of_lines. rewrite fold_left_app.
  cbn [fold_left].
  destruct (fold_left (robots_line pf userAgent) pre (false, [])) as [inStar ds].
  rewrite robots_line_directive, Hdir.
  change (JS.eqb "user-agent" "user-agent") with true. cbv iota.
  by rewrite robots_fold_no_user_agent.
Qed.

Lemma robots_user_agent_line_decides_witness :
  disallows_of_lines (Fixture.platform []) Fixture.bot
    (["User-agent: MegabyteLabsBot/1.0"] ++ "User-agent: OtherBot" :: ["Disallow: /private"])
  = disallows_of_lines (Fixture.platform []) Fixture.bot
      ["User-agent: MegabyteLabsBot/1.0"] ++ [].
Proof.
  apply (robots_user_agent_line_decides (Fixture.platform []) Fixture.bot
           ["User-agent: MegabyteLabsBot/1.0"] ["Disallow: /private"]
           "User-agent: OtherBot" "OtherBot").
  - vm_compute. reflexivity.
  - constructor; [|constructor]. intros [v Hv]. vm_compute in Hv. discriminate Hv.
Defined.

(** X10: for one URL the task of [crawlBatch] issues the request for
    robots.txt of its origin, provided the URL parses, and then the
    request for the page unless robots.txt disallows it: never more than
    these two, always in this order, and robots.txt again for every URL. *)
Theorem crawl_task_requests (pf : Platform) (userAgent url : string)
        (out : list CrawlResult.t) (log : list Request) :
  snd (allowedByRobots pf url userAgent log)
  = log ++ robots_request pf userAgent url
  /\ snd (crawl_task pf userAgent url out log)
     = log ++ robots_request pf userAgent url
       ++ match fst (allowedByRobots pf url userAgent log) with
          | Ok false => []
          | _ => [(url, robots_headers userAgent)]
          end
  /\ length (snd (crawl_task pf userAgent url out log)) <= length log + 2.
Proof.
  assert (Hrobots : snd (allowedByRobots pf url userAgent log)
                    = log ++ robots_request pf userAgent url).
  { rewrite allowedByRobots_run. unfold robots_request.
    destruct (new_URL pf url) as [u|e]; [|by rewrite app_nil_r]. cbn zeta.
    destruct (fetch pf _ _) as [res|e]; [|done].
    destruct (Response_ok res); [|done].
    by destruct (Response_text pf res). }
  assert (Htask : snd (crawl_task pf userAgent url out log)
                  = log ++ robots_request pf userAgent url
                    ++ match fst (allowedByRobots pf url userAgent log) with
                       | Ok false => []
                       | _ => [(url, robots_headers userAgent)]
                       end).
  { rewrite crawl_task_run.
    destruct (allowedByRobots pf url userAgent log) as [a log1] eqn:Ha.
    cbn [fst snd] in Hrobots |- *. subst log1.
    destruct a as [[|]|e]; cbn [snd].
    - destruct (fetch pf url _); cbn [snd]; by rewrite <- app_assoc.
    - by rewrite app_nil_r.
    - exfalso. revert Ha. rewrite allowedByRobots_run.
      destruct (new_URL pf url) as [u|?]; [|done]. cbn zeta.
      destruct (fetch pf _ _) as [res|?]; [|done].
      destruct (Response_ok res); [|done].
      by destruct (Response_text pf res). }
  split; [done|]. split; [done|]. rewrite Htask, !length_app.
  assert (length (robots_request pf userAgent url) <= 1).
  { unfold robots_request. destruct (new_URL pf url); cbn [length]; lia. }
  destruct (fst (allowedByRobots pf url userAgent log)) as [[|]|]; cbn [length]; lia.
Qed.

(** ** More on sitemap documents *)

Lemma includes_spec (s p : string) :
  JS.includes s p = true <-> exists pre post, s = pre ++ p ++ post.
Proof.
  induction s as [|c s IH].
  - cbn [JS.includes]. rewrite orb_false_r, startsWith_spec. split.
    + intros [post H]. by exists "", post.
    + intros (pre & post & H). destruct pre; [by exists post | done].
  - cbn [JS.includes]. rewrite orb_true_iff, startsWith_spec, IH. split.
    + intros [[post H] | (pre & post & H)].
      * by exists "", post.
      * exists (c :: pre), post. by rewrite H.
    + intros (pre & post & H). destruct pre as [|d pre].
      * left. by exists post.
      * right. exists pre, post. by injection H.
Qed.

Lemma head_includes_spec (pf : Platform) (xml marker : string) :
  JS.includes (toLowerCase pf (JS.slice xml 0 200)) marker = true
  <-> marker_in_head pf xml marker.
Proof.
  unfold JS.slice, marker_in_head. rewrite Nat.sub_0_r, drop_0.
  apply includes_spec.
Qed.

(** X11: the parser is chosen by a look at the first 200 code units of
    the text, put in lower case: [<urlset] there selects the urlset
    parser, also when [<sitemapindex] is there too; otherwise
    [<sitemapindex] there selects the index parser; in both cases the
    XML parser is not consulted and the choice cannot fail.  With neither
    marker there the text is parsed: the index parser is chosen only for
    a document with a [sitemapindex] root and no [urlset] root, an error
    of the XML parser is rethrown, and anything else gets the urlset
    parser. *)
Theorem parser_choice (pf : Platform) (xml : string) :
  (marker_in_head pf xml "<urlset" ->
   SitemapParserFactory.from pf xml = Ok UrlsetStrategy)
  /\ (~ marker_in_head pf xml "<urlset" -> marker_in_head pf xml "<sitemapindex" ->
      SitemapParserFactory.from pf xml = Ok IndexStrategy)
  /\ (SitemapParserFactory.from pf xml = Ok IndexStrategy <->
      ~ marker_in_head pf xml "<urlset"
      /\ (marker_in_head pf xml "<sitemapindex"
          \/ exists doc, XMLParser_parse pf xml = Ok doc
                         /\ JS.truthy (JS.get doc "urlset") = false
                         /\ JS.truthy (JS.get doc "sitemapindex") = true))
  /\ (forall e,
         SitemapParserFactory.from pf xml = Throw e <->
         ~ marker_in_head pf xml "<urlset" /\ ~ marker_in_head pf xml "<sitemapindex"
         /\ XMLParser_parse pf xml = Throw e).
Proof.
  unfold SitemapParserFactory.from. cbv zeta.
  pose proof (head_includes_spec pf xml "<urlset") as Hu.
  pose proof (head_includes_spec pf xml "<sitemapindex") as Hi.
  destruct (JS.includes _ "<urlset") eqn:Eu.
  { assert (marker_in_head pf xml "<urlset") by by apply Hu.
    split; [done|]. split; [done|]. split; [|intros e]; split; try done; tauto. }
  assert (~ marker_in_head pf xml "<urlset") as Hnu.
  { intros H. apply Hu in H. done. }
  destruct (JS.includes _ "<sitemapindex") eqn:Ei.
  { assert (marker_in_head pf xml "<sitemapindex") by by apply Hi.
    split; [done|]. split; [done|]. split; [|intros e]; split; try done; tauto. }
  assert (~ marker_in_head pf xml "<sitemapindex") as Hni.
  { intros H. apply Hi in H. done. }
  split; [done|]. split; [done|].
  destruct (XMLParser_parse pf xml) as [doc|e0]; cbn [mbind Res_bind].
  - destruct (JS.truthy (JS.get doc "urlset")) eqn:Et.
    { split; [|intros e]; split; try done.
      - intros (_ & [H | (doc' & Hdoc & Ht & _)]); [done|]. congruence.
      - intros (_ & _ & H). done. }
    destruct (JS.truthy (JS.get doc "sitemapindex")) eqn:Es.
    + split; [|intros e]; split; try done.
      * intros _. split; [done|]. right. by exists doc.
      * intros (_ & _ & H). done.
    + split; [|intros e]; split; try done.
      * intros (_ & [H | (doc' & Hdoc & _ & Ht)]); [done|]. congruence.
      * intros (_ & _ & H). done.
  - split; [|intros e]; split; try done.
    + intros (_ & [H | (doc' & Hdoc & _)]); done.
    + intros [= ->]. done.
    + intros (_ & _ & [= ->]). done.
Qed.

Lemma parser_choice_witness :
  SitemapParserFactory.from (Fixture.platform [])
    "<?xml version='1.0'?><URLSET><sitemapindex/></URLSET>" = Ok UrlsetStrategy.
Proof.
  apply parser_choice.
  exists "<?xml version='1.0'?>", "><sitemapindex/></urlset>".
  vm_compute. reflexivity.
Defined.

(** The head is counted in code units: 150 letters outside ASCII before
    the root element leave it inside the head, 100 characters outside the
    basic plane, of two code units each, push it out. *)
Lemma parser_head_counts_code_units :
  SitemapParserFactory.from (Fixture.platform [])
    ("<!--" ++ repeat 233%N 150 ++ "--><sitemapindex/>") = Ok IndexStrategy
  /\ SitemapParserFactory.from (Fixture.platform [])
       ("<!--" ++ concat (repeat [55357; 56832]%N 100) ++ "--><sitemapindex/>")
     = Ok UrlsetStrategy.
Proof. split; vm_compute; reflexivity. Qed.

Lemma urlset_truthy (pf : Platform) (xml : string) (urls : list JS.Val) :
  UrlsetParser.extractUrls pf xml = Ok urls ->
  Forall (fun v => JS.truthy v = true) urls.
Proof.
  unfold UrlsetParser.extractUrls.
  destruct (XMLParser_parse pf xml) as [doc|e]; cbn [mbind Res_bind]; [|done].
  cbv zeta. destruct (negb _).
  - intros [= <-]. constructor.
  - intros [= <-]. apply Forall_forall. intros v Hin.
    apply list_elem_of_In, filter_In in Hin. by destruct Hin.
Qed.

Lemma loop_truthy (child : string -> Fueled (list JS.Val)) l acc r :
  (forall loc us, child loc = Some (Ok us) ->
                  Forall (fun v => JS.truthy v = true) us) ->
  Forall (fun v => JS.truthy v = true) acc ->
  IndexParser.loop child l acc = Some (Ok r) ->
  Forall (fun v => JS.truthy v = true) r.
Proof.
  intros Hchild. revert acc. induction l as [|entry l IH]; intros acc Hacc H.
  - cbn in H. by injection H as <-.
  - cbn [IndexParser.loop] in H. cbv zeta in H.
    destruct (negb _); [by eapply IH|].
    destruct (child _) as [[us|e]|] eqn:Hc; [|done|done].
    eapply IH; [|done]. apply Forall_app. split; [done|]. by eapply Hchild.
Qed.

Lemma index_truthy (pf : Platform) (userAgent : string) fuel xml urls :
  IndexParser.extractUrls pf userAgent fuel xml = Some (Ok urls) ->
  Forall (fun v => JS.truthy v = true) urls.
Proof.
  revert xml urls. induction fuel as [|fuel IH]; intros xml urls H; [done|].
  rewrite extractUrls_index_S in H.
  destruct (XMLParser_parse pf xml) as [doc|e]; [|done].
  destruct (negb _).
  { injection H as <-. constructor. }
  eapply loop_truthy; [|constructor|exact H].
  intros loc us. unfold resolve.
  destruct (SitemapSource.fetchText pf userAgent loc) as [childXml|e]; [|done].
  destruct (SitemapParserFactory.from pf childXml) as [[|]|e]; cbn [extractUrls];
    [|apply IH|done].
  intros [= Hu]. by eapply urlset_truthy.
Qed.

(** X12: whatever the documents hold and however deep the indexes nest,
    every value in a resolved URL list is truthy: an entry whose [loc] is
    missing, empty, null or zero contributes nothing, in a urlset and in
    every urlset below an index. *)
Theorem resolved_urls_are_truthy (pf : Platform) (userAgent : string)
        (fuel : nat) (sitemapUrl : string) (urls : list JS.Val) :
  resolve pf userAgent fuel sitemapUrl = Some (Ok urls) ->
  Forall (fun v => JS.truthy v = true) urls.
Proof.
  unfold resolve.
  destruct (SitemapSource.fetchText pf userAgent sitemapUrl) as [xml|e]; [|done].
  destruct (SitemapParserFactory.from pf xml) as [[|]|e]; cbn [extractUrls];
    [|apply index_truthy|done].
  intros [= Hu]. by eapply urlset_truthy.
Qed.

Lemma resolved_urls_are_truthy_witness :
  Forall (fun v => JS.truthy v = true)
    [JS.Str "https://a.example/p1"; JS.Str "https://a.example/p2";
     JS.Str "https://a.example/p3"; JS.Str "https://a.example/p1";
     JS.Str "https://a.example/p4"].
Proof.
  apply (resolved_urls_are_truthy (Fixture.platform Fixture.site) Fixture.bot 1
           "https://a.example/index.xml").
  vm_compute. reflexivity.
Defined.

(** X13: the look at the head of the text is final.  When [<urlset]
    occurs in the first 200 code units of the text, put in lower case,
    the text is read as a urlset whatever it is: if the parsed document has
    no [urlset.url], the resolution gives the empty list, with no error,
    and an index in that document is not followed: none of its children is
    fetched. *)
Theorem urlset_marker_hides_index (pf : Platform) (userAgent : string)
        (fuel : nat) (sitemapUrl xml : string) (doc : JS.Val) :
  SitemapSource.fetchText pf userAgent sitemapUrl = Ok xml ->
  marker_in_head pf xml "<urlset" ->
  XMLParser_parse pf xml = Ok doc ->
  JS.truthy (JS.get (JS.get doc "urlset") "url") = false ->
  resolve pf userAgent fuel sitemapUrl = Some (Ok []).
Proof.
  intros Hfetch Hmarker Hparse Hurls. unfold resolve. rewrite Hfetch.
  unfold SitemapParserFactory.from. cbv zeta.
  apply head_includes_spec in Hmarker. rewrite Hmarker. cbn [extractUrls].
  unfold UrlsetParser.extractUrls. rewrite Hparse. cbn [mbind Res_bind].
  cbv zeta. by rewrite Hurls.
Qed.

Lemma urlset_marker_hides_index_witness :
  resolve (Fixture.platform Samples.commented) Fixture.bot 5
    "https://c.example/sitemap.xml" = Some (Ok [])
  /\ index_entries (Fixture.index_doc Fixture.children_a)
     = [Fixture.loc_entry "https://a.example/s1.xml";
        Fixture.loc_entry "https://a.example/s2.xml.GZ"].
Proof.
  split; [|reflexivity].
  apply (urlset_marker_hides_index (Fixture.platform Samples.commented)
           Fixture.bot 5 "https://c.example/sitemap.xml"
           Samples.commented_index_xml (Fixture.index_doc Fixture.children_a)).
  - vm_compute. reflexivity.
  - exists "<!-- not a ",
      (drop 18 (Fixture.lower (take 200 Samples.commented_index_xml))).
    vm_compute. reflexivity.
  - vm_compute. reflexivity.
  - reflexivity.
Defined.

(** ** The inline summary *)

Lemma filter_length_Permutation {A} (f : A -> bool) (l1 l2 : list A) :
  l1 ≡ₚ l2 -> length (List.filter f l1) = length (List.filter f l2).
Proof.
  induction 1 as [|x l1 l2 _ IH|x y l|l1 l2 l3 _ IH1 _ IH2]; cbn.
  - done.
  - destruct (f x); cbn; by rewrite IH.
  - by destruct (f x), (f y).
  - by rewrite IH1.
Qed.

Lemma filter_length_map {A B} (f : B -> bool) (g : A -> B) (l : list A) :
  length (List.filter f (map g l)) = length (List.filter (fun a => f (g a)) l).
Proof.
  induction l as [|a l IH]; cbn; [done|]. destruct (f (g a)); cbn; by rewrite IH.
Qed.

(** X14: the line the inline enqueuer logs does not depend on the order
    in which the crawls settle: it names the number of URLs and, as
    [ok], the number of URLs whose record has [ok] set.  A record has
    [ok] set when the page answered 2xx and also when robots.txt
    disallowed the URL and no request for the page was made; a page that
    answered otherwise or could not be fetched is not counted. *)
Theorem inline_summary_counts (pf : Platform) (userAgent : string)
        (concurrency : number) (urls : list string)
        (console : string) (count : nat) :
  InlineEnqueuer.enqueueMany_returns pf userAgent concurrency urls console count ->
  console = "Crawled inline: " ++ JS.Z_to_string (Z.of_nat (length urls))
            ++ " urls (ok="
            ++ JS.Z_to_string
                  (Z.of_nat (length (List.filter (counted_ok pf userAgent) urls)))
            ++ ")"
  /\ (forall url,
         counted_ok pf userAgent url = true <->
         fst (allowedByRobots pf url userAgent []) = Ok false
         \/ exists res, fetch pf url (robots_headers userAgent) = Ok res
                        /\ Response_ok res = true).
Proof.
  intros (results & Hreturns & Hafter). split.
  - injection Hafter as <- _. unfold InlineEnqueuer.summary. cbv zeta.
    apply crawlBatch_result in Hreturns.
    rewrite (filter_length_Permutation _ _ _ Hreturns), filter_length_map.
    reflexivity.
  - intros url. unfold counted_ok, crawl_result.
    pose proof (allowedByRobots_run pf url userAgent []) as Hrun.
    destruct (fst (allowedByRobots pf url userAgent [])) as [[|]|e] eqn:Ha.
    + destruct (fetch pf url _) as [res|e]; cbn [CrawlResult.ok].
      * split; [intros H; right; by exists res|].
        intros [H | (res' & [= <-] & H)]; done.
      * split; [done|]. intros [H | (res' & H & _)]; done.
    + cbn [CrawlResult.ok]. split; [by left | done].
    + exfalso. rewrite Hrun in Ha.
      destruct (new_URL pf url) as [u|?]; [|done]. cbv zeta in Ha.
      destruct (fetch pf _ _) as [res|?]; [|done].
      destruct (Response_ok res); [|done].
      by destruct (Response_text pf res).
Qed.

Lemma inline_summary_counts_witness :
  exists console count,
    InlineEnqueuer.enqueueMany_returns (Fixture.platform Fixture.shops) Fixture.bot
      (Int 2)
      ["https://shop.example/private/x"; "https://open.example/gone";
       "https://open.example/page"] console count
    /\ console = "Crawled inline: 3 urls (ok=2)".
Proof.
  destruct (crawlBatch_does_return (Fixture.platform Fixture.shops)
              ["https://shop.example/private/x"; "https://open.example/gone";
               "https://open.example/page"] Fixture.bot (Int 2))
    as [results Hreturns].
  eexists _, 3.
  assert (H : InlineEnqueuer.enqueueMany_returns (Fixture.platform Fixture.shops)
                Fixture.bot (Int 2)
                ["https://shop.example/private/x"; "https://open.example/gone";
                 "https://open.example/page"]
                (InlineEnqueuer.summary
                   ["https://shop.example/private/x"; "https://open.example/gone";
                    "https://open.example/page"] results) 3).
  { exists results. split; [exact Hreturns | reflexivity]. }
  split; [exact H|].
  destruct (inline_summary_counts _ _ _ _ _ _ H) as [Hconsole _].
  rewrite Hconsole. vm_compute. reflexivity.
Defined.

(** ** The batches of the queue enqueuer *)

Lemma chunks_lookup urls k b :
  chunks urls !! k = Some b ->
  k < length (chunks urls)
  /\ b = map QueueEnqueuer.mkMessage (take 1000 (drop (k * 1000) urls)).
Proof.
  intros H. pose proof (lookup_lt_Some _ _ _ H) as Hlt. split; [done|].
  unfold chunks, chunks_from in H, Hlt. rewrite length_map, length_seq in Hlt.
  rewrite list_lookup_fmap, lookup_seq_lt in H by done. cbn in H.
  injection H as <-. unfold batch_at, QueueEnqueuer.Array_slice, QueueEnqueuer.chunkSize.
  by replace (k * 1000 + 1000 - k * 1000) with 1000 by lia.
Qed.

(** X15: the batches the queue enqueuer has sent when it returns are
    aligned: batch [k] carries the URLs from position [1000 k] on, and
    every batch but the last carries exactly 1000 of them, so only the
    last one can be short. *)
Theorem queue_batches_aligned (queue : QueueEnqueuer.Queue) (urls : list string)
        (log : list QueueEnqueuer.Batch) (count : nat)
        (log' : list QueueEnqueuer.Batch) :
  QueueEnqueuer.enqueueMany queue urls log = (Ok count, log') ->
  exists batches,
    log' = log ++ batches
    /\ forall k b,
        batches !! k = Some b ->
        b = map QueueEnqueuer.mkMessage (take 1000 (drop (k * 1000) urls))
        /\ (S k < length batches -> length b = 1000).
Proof.
  intros H. apply queue_enqueueMany_ok in H as [_ ->].
  exists (chunks urls). split; [done|]. intros k b Hk.
  apply chunks_lookup in Hk as [_ ->]. split; [done|].
  rewrite chunks_length. unfold div_ceil, QueueEnqueuer.chunkSize. intros Hlt.
  rewrite length_map, length_take, length_drop.
  assert (S (S k) <= (length urls + 1000 - 1) / 1000) as Hle by lia.
  assert (1000 * S (S k) <= length urls + 1000 - 1) as Hmul.
  { etrans; [apply Nat.mul_le_mono_l, Hle | apply Nat.Div0.mul_div_le]. }
  lia.
Qed.

Lemma queue_batches_aligned_witness :
  exists batches : list QueueEnqueuer.Batch,
    [batch_at (repeat "u" 2500) 0; batch_at (repeat "u" 2500) 1000;
     batch_at (repeat "u" 2500) 2000] = [] ++ batches
    /\ forall k b,
        batches !! k = Some b ->
        b = map QueueEnqueuer.mkMessage (take 1000 (drop (k * 1000) (repeat "u" 2500)))
        /\ (S k < length batches -> length b = 1000).
Proof.
  apply (queue_batches_aligned (fun _ _ => Ok tt) (repeat "u" 2500) [] 2500).
  unfold QueueEnqueuer.enqueueMany, mbind, Eff_bind.
  rewrite loop_send_all, send_all_accepted by done.
  vm_compute. reflexivity.
Defined.
